(** * Multiprocessing demonstrations: a shallow embedding

    The repository consists of five Python scripts that demonstrate the
    [multiprocessing] package: [Pool.apply_async] (direct submission),
    [Process] workers that pull from a shared input queue and push into a
    shared output queue, a nesting of both, a manager dictionary of
    dictionaries, and a benchmarking harness.

    Conventions of the embedding:
    - Python integers are [Z]; Python floats are read as exact rationals [Q]
      (the statements below that involve floats are statements of exact
      arithmetic);
    - a call that may raise returns an [option] ([None] is the exception);
    - [random.random()] reads the next value of an explicit generator that is
      threaded through the code;
    - [multiprocessing.Queue] is a FIFO list whose [put] and [get] are
      atomic: the non-blocking [get] returns the oldest item or raises
      [Empty]; it raises [Empty] on the empty queue, and it may raise it
      although items are queued (the reader lock is held by another process,
      or the feeder thread has not written the items yet); a blocking [get]
      can only proceed on a non-empty queue;
    - concurrent processes are an interleaving of atomic steps chosen by an
      arbitrary schedule. *)

From Stdlib Require Import ZArith QArith Qround Qabs Lia Lqa List.
From stdpp Require Import base list gmap strings.
Import ListNotations.

Local Open Scope Z_scope.

(** ** Shared numeric helpers *)

(** [range(a, b)] for integers. *)
Definition range (a b : Z) : list Z :=
  map (fun i => a + Z.of_nat i) (seq 0 (Z.to_nat (b - a))).

(** [np.sum] over exact numbers. *)
Definition np_sum (l : list Q) : Q := fold_left Qplus l 0%Q.

(** [int(x)] on a float: truncation toward zero. *)
Definition int_of (x : Q) : Z := Z.quot (Qnum x) (Z.pos (Qden x)).

(** ** MultiprocessingDemonstrationPool.py *)

Module Pool.

(** One summand of [ComputePi]: [4*(-1)**(n)/(2*n+1)]. *)
Definition summand (n : Z) : Q :=
  (inject_Z (4 * (-1) ^ n) / inject_Z (2 * n + 1))%Q.

Definition ComputePi {I : Type} (N : Z) (ID : I) : I * Q :=
  let Sum := fold_left (fun Sum n => (Sum + summand n)%Q) (range 0 N) 0%Q in
  (ID, Sum).

(** [np.linspace(start, stop, num)] with the default [endpoint=True]. *)
Definition linspace (start stop : Q) (num : Z) : list Q :=
  match Z.to_nat num with
  | O => []
  | 1%nat => [start]
  | n =>
      let step := ((stop - start) / inject_Z (num - 1))%Q in
      map (fun i => (inject_Z (Z.of_nat i) * step + start)%Q) (seq 0 n)
  end.

(** [(-1)**x] on an array element.  The elements it is applied to are
    integer-valued; on such [x] this is the source's value. *)
Definition neg_one_pow (x : Q) : Q := inject_Z ((-1) ^ Qfloor x).

Definition ComputePiVectorised {I : Type} (N : Z) (ID : I) : I * Q :=
  let RangeOfn := linspace 0 (inject_Z (N - 1)) N in
  let Summands := map (fun x => (neg_one_pow x / (2 * x + 1))%Q) RangeOfn in
  let Sum := (4 * np_sum Summands)%Q in
  (ID, Sum).

(** The statement of the docstrings: the [N]-th partial sum of the
    Madhava-Leibniz series, sum over n from 0 to N-1 of 4*(-1)^n/(2n+1). *)
Fixpoint MadhavaLeibniz_partial_sum (N : nat) : Q :=
  match N with
  | O => 0%Q
  | S k =>
      (MadhavaLeibniz_partial_sum k
       + 4 * inject_Z ((-1) ^ Z.of_nat k) / inject_Z (2 * Z.of_nat k + 1))%Q
  end.

End Pool.

(** ** The [random] module

    A generator is a source of raw integers read one after the other.
    [random.random()] returns a multiple of 2^-53 in [0,1);
    [random.randint(a, b)] returns an integer of [a..b] and raises
    [ValueError] on an empty range. *)

Record Rng := { raw : nat -> Z; pos : nat }.

Definition next_raw (g : Rng) : Z * Rng :=
  (raw g (pos g), {| raw := raw g; pos := S (pos g) |}).

Definition random_random (g : Rng) : Q * Rng :=
  let (z, g') := next_raw g in
  (Qmake (z mod 2 ^ 53) (2 ^ 53), g').

Definition random_randint (a b : Z) (g : Rng) : option Z * Rng :=
  if b <? a then (None, g)
  else let (z, g') := next_raw g in (Some (a + z mod (b - a + 1)), g').

(** The generator that always yields 0. *)
Definition zero_gen : Rng := {| raw := λ _, 0; pos := 0 |}.

(** ** Workers on a shared input queue and a shared output queue

    The pattern of [UsingQueues], [JobToSumRandomNumbersRepeatedly] and
    [JobToPerformTasks]: the caller fills an input queue, starts the worker
    processes and makes a fixed number of blocking [get]s on the output
    queue.  Each worker runs

      while True:
          try:
              x = InputQueue.get(block=False)
              (the loop body: compute on x, put the result)
          except Empty:
              break

    The loop body is a parameter: from the worker's job parameter, its
    private random generator and the popped item it produces the events it
    performs, the value it puts ([None] when it raises instead; only [Empty]
    is caught, so the exception ends the worker) and the next generator.

    [multiprocessing.Queue.get(block=False)] raises [Empty] when the queue
    is empty, and also when it cannot take an item at once although items
    are queued: another process holds the reader lock, or the feeder thread
    of the process that put the items has not written them to the pipe yet.
    The worker cannot tell the two apart and leaves its loop in both. *)

Module SharedQueue.
Section Machine.

Context {J G Arg Res E : Type}.
Variable body : J -> G -> Arg -> list E * option Res * G.

(** Where a worker is in its loop. *)
Inductive pc :=
  | AtLoop              (* about to call [InputQueue.get(block=False)] *)
  | Popped (x : Arg)    (* holds [x], about to run the loop body *)
  | Exited              (* left the loop through [except Empty: break] *)
  | Raised.             (* ended by an exception of the loop body *)

Record worker := { job : J; gen : G; at_ : pc }.

(** What a worker is observed to do. *)
Inductive event :=
  | TryPopItem (x : Arg)   (* the non-blocking get returned [x] *)
  | TryPopEmpty            (* the non-blocking get raised [Empty] *)
  | Inner (e : E)          (* an event of the loop body *)
  | PutResult (r : Res)    (* [OutputQueue.put(r)] *)
  | Uncaught.              (* the loop body raised *)

Record state := {
  InputQueue : list Arg;
  OutputQueue : list Res;
  Workers : list worker;
  pending : nat;                (* blocking gets the caller still makes *)
  Results : list Res;           (* what the caller has collected *)
  log : list (nat * event)      (* the events, with the worker's index *)
}.

Definition step_worker (i : nat) (s : state) : option state :=
  match Workers s !! i with
  | None => None
  | Some w =>
      match at_ w with
      | AtLoop =>
          match InputQueue s with
          | x :: q =>
              Some {| InputQueue := q; OutputQueue := OutputQueue s;
                      Workers := <[i := {| job := job w; gen := gen w; at_ := Popped x |}]> (Workers s);
                      pending := pending s; Results := Results s;
                      log := log s ++ [(i, TryPopItem x)] |}
          | [] =>
              Some {| InputQueue := []; OutputQueue := OutputQueue s;
                      Workers := <[i := {| job := job w; gen := gen w; at_ := Exited |}]> (Workers s);
                      pending := pending s; Results := Results s;
                      log := log s ++ [(i, TryPopEmpty)] |}
          end
      | Popped x =>
          match body (job w) (gen w) x with
          | (es, Some r, g') =>
              Some {| InputQueue := InputQueue s; OutputQueue := OutputQueue s ++ [r];
                      Workers := <[i := {| job := job w; gen := g'; at_ := AtLoop |}]> (Workers s);
                      pending := pending s; Results := Results s;
                      log := log s ++ map (λ e, (i, Inner e)) es ++ [(i, PutResult r)] |}
          | (es, None, g') =>
              Some {| InputQueue := InputQueue s; OutputQueue := OutputQueue s;
                      Workers := <[i := {| job := job w; gen := g'; at_ := Raised |}]> (Workers s);
                      pending := pending s; Results := Results s;
                      log := log s ++ map (λ e, (i, Inner e)) es ++ [(i, Uncaught)] |}
          end
      | Exited | Raised => None
      end
  end.

(** One blocking [OutputQueue.get()] of the caller's list comprehension. *)
Definition step_main (s : state) : option state :=
  match pending s, OutputQueue s with
  | S n, r :: q =>
      Some {| InputQueue := InputQueue s; OutputQueue := q;
              Workers := Workers s;
              pending := n; Results := Results s ++ [r];
              log := log s |}
  | _, _ => None
  end.

(** The non-blocking get of worker [i] raises [Empty] whatever the input
    queue holds. *)
Definition step_miss (i : nat) (s : state) : option state :=
  match Workers s !! i with
  | None => None
  | Some w =>
      match at_ w with
      | AtLoop =>
          Some {| InputQueue := InputQueue s; OutputQueue := OutputQueue s;
                  Workers := <[i := {| job := job w; gen := gen w; at_ := Exited |}]> (Workers s);
                  pending := pending s; Results := Results s;
                  log := log s ++ [(i, TryPopEmpty)] |}
      | _ => None
      end
  end.

(** Who moves: the caller, worker [i] whose get takes an item if there is
    one ([W i]), or worker [i] whose get raises [Empty] at once ([Miss i]). *)
Inductive actor := Main | W (i : nat) | Miss (i : nat).

Definition step (a : actor) (s : state) : option state :=
  match a with
  | Main => step_main s
  | W i => step_worker i s
  | Miss i => step_miss i s
  end.

(** The worker an actor is. *)
Definition actor_index (a : actor) : nat :=
  match a with Main => O | W i => i | Miss i => i end.

(** A schedule in which [Empty] is raised on the empty queue only. *)
Definition is_Miss (a : actor) : bool :=
  match a with Miss _ => true | _ => false end.

Definition timely (sched : list actor) : Prop :=
  Forall (λ a, is_Miss a = false) sched.

Fixpoint run (sched : list actor) (s : state) : option state :=
  match sched with
  | [] => Some s
  | a :: sched' =>
      match step a s with
      | Some s' => run sched' s'
      | None => None
      end
  end.

(** The caller has filled the input queue with [tasks], started [ws] and
    begins [expected] blocking gets. *)
Definition init (tasks : list Arg) (ws : list (J * G)) (expected : nat) : state :=
  {| InputQueue := tasks; OutputQueue := [];
     Workers := map (λ jg, {| job := jg.1; gen := jg.2; at_ := AtLoop |}) ws;
     pending := expected; Results := []; log := [] |}.

(** The list comprehension of blocking gets has returned. *)
Definition returned (s : state) : Prop := pending s = 0%nat.

Definition returned_dec (s : state) : bool := Nat.eqb (pending s) 0.

(** Nobody can move. *)
Definition stuck (s : state) : Prop := ∀ a, step a s = None.

Definition terminated (w : worker) : Prop := at_ w = Exited ∨ at_ w = Raised.

(** The same steps as a relation, with the worker list split at the worker
    that moves. *)
Inductive transition : actor → state → state → Prop :=
  | t_get iq r oq ws n rs lg :
      transition Main
        {| InputQueue := iq; OutputQueue := r :: oq; Workers := ws;
           pending := S n; Results := rs; log := lg |}
        {| InputQueue := iq; OutputQueue := oq; Workers := ws;
           pending := n; Results := rs ++ [r]; log := lg |}
  | t_pop x iq oq l1 j g l2 n rs lg :
      transition (W (length l1))
        {| InputQueue := x :: iq; OutputQueue := oq;
           Workers := l1 ++ {| job := j; gen := g; at_ := AtLoop |} :: l2;
           pending := n; Results := rs; log := lg |}
        {| InputQueue := iq; OutputQueue := oq;
           Workers := l1 ++ {| job := j; gen := g; at_ := Popped x |} :: l2;
           pending := n; Results := rs;
           log := lg ++ [(length l1, TryPopItem x)] |}
  | t_empty oq l1 j g l2 n rs lg :
      transition (W (length l1))
        {| InputQueue := []; OutputQueue := oq;
           Workers := l1 ++ {| job := j; gen := g; at_ := AtLoop |} :: l2;
           pending := n; Results := rs; log := lg |}
        {| InputQueue := []; OutputQueue := oq;
           Workers := l1 ++ {| job := j; gen := g; at_ := Exited |} :: l2;
           pending := n; Results := rs;
           log := lg ++ [(length l1, TryPopEmpty)] |}
  | t_miss iq oq l1 j g l2 n rs lg :
      transition (Miss (length l1))
        {| InputQueue := iq; OutputQueue := oq;
           Workers := l1 ++ {| job := j; gen := g; at_ := AtLoop |} :: l2;
           pending := n; Results := rs; log := lg |}
        {| InputQueue := iq; OutputQueue := oq;
           Workers := l1 ++ {| job := j; gen := g; at_ := Exited |} :: l2;
           pending := n; Results := rs;
           log := lg ++ [(length l1, TryPopEmpty)] |}
  | t_put x es r g' iq oq l1 j g l2 n rs lg :
      body j g x = (es, Some r, g') →
      transition (W (length l1))
        {| InputQueue := iq; OutputQueue := oq;
           Workers := l1 ++ {| job := j; gen := g; at_ := Popped x |} :: l2;
           pending := n; Results := rs; log := lg |}
        {| InputQueue := iq; OutputQueue := oq ++ [r];
           Workers := l1 ++ {| job := j; gen := g'; at_ := AtLoop |} :: l2;
           pending := n; Results := rs;
           log := lg ++ map (λ e, (length l1, Inner e)) es
                     ++ [(length l1, PutResult r)] |}
  | t_raise x es g' iq oq l1 j g l2 n rs lg :
      body j g x = (es, None, g') →
      transition (W (length l1))
        {| InputQueue := iq; OutputQueue := oq;
           Workers := l1 ++ {| job := j; gen := g; at_ := Popped x |} :: l2;
           pending := n; Results := rs; log := lg |}
        {| InputQueue := iq; OutputQueue := oq;
           Workers := l1 ++ {| job := j; gen := g'; at_ := Raised |} :: l2;
           pending := n; Results := rs;
           log := lg ++ map (λ e, (length l1, Inner e)) es
                     ++ [(length l1, Uncaught)] |}.

(** Projections of the log. *)
Definition worker_log (i : nat) (lg : list (nat * event)) : list event :=
  omap (λ p, if decide (p.1 = i) then Some p.2 else None) lg.

(** The results deposited in the output queue, in arrival order. *)
Definition deposited (lg : list (nat * event)) : list Res :=
  omap (λ p, match p.2 with PutResult r => Some r | _ => None end) lg.

(** The successful pops, in order, with the worker that made each. *)
Definition pops (lg : list (nat * event)) : list (nat * Arg) :=
  omap (λ p, match p.2 with TryPopItem x => Some (p.1, x) | _ => None end) lg.

(** The items the workers hold between a pop and the end of the body. *)
Definition held (ws : list worker) : list Arg :=
  omap (λ w, match at_ w with Popped x => Some x | _ => None end) ws.

(** Steps a worker can still make on its own account, and steps that remain
    at most in a state. *)
Definition pc_weight (p : pc) : nat :=
  match p with AtLoop => 1 | Popped _ => 2 | Exited | Raised => 0 end.

Definition measure (s : state) : nat :=
  2 * length (InputQueue s) + sum_list_with (λ w, pc_weight (at_ w)) (Workers s)
  + pending s.

(** The protocol of one worker: its events from start, the place it is at
    and the generator it has then. *)
Inductive protocol (j : J) (g0 : G) : list event → pc → G → Prop :=
  | p_start : protocol j g0 [] AtLoop g0
  | p_pop l g x :
      protocol j g0 l AtLoop g →
      protocol j g0 (l ++ [TryPopItem x]) (Popped x) g
  | p_empty l g :
      protocol j g0 l AtLoop g →
      protocol j g0 (l ++ [TryPopEmpty]) Exited g
  | p_put l g x es r g' :
      protocol j g0 l (Popped x) g →
      body j g x = (es, Some r, g') →
      protocol j g0 (l ++ map Inner es ++ [PutResult r]) AtLoop g'
  | p_raise l g x es g' :
      protocol j g0 l (Popped x) g →
      body j g x = (es, None, g') →
      protocol j g0 (l ++ map Inner es ++ [Uncaught]) Raised g'.

(** Counting the events of a kind. *)
Definition is_TryPopItem (e : event) : bool :=
  match e with TryPopItem _ => true | _ => false end.
Definition is_TryPopEmpty (e : event) : bool :=
  match e with TryPopEmpty => true | _ => false end.
Definition is_Inner (e : event) : bool :=
  match e with Inner _ => true | _ => false end.
Definition is_PutResult (e : event) : bool :=
  match e with PutResult _ => true | _ => false end.
Definition is_Uncaught (e : event) : bool :=
  match e with Uncaught => true | _ => false end.

Definition count (f : event → bool) (l : list event) : nat :=
  length (List.filter f l).

(** *** Invariants of the runs *)

(** The output queue and the caller's gets: what was deposited is what the
    caller has collected followed by what waits in the queue. *)
Definition sink_inv (expected : nat) (s : state) : Prop :=
  deposited (log s) = Results s ++ OutputQueue s
  ∧ (pending s + length (Results s) = expected)%nat.

(** The input queue: the submitted items are the popped ones followed by
    the ones that wait in the queue. *)
Definition queue_inv (tasks : list Arg) (s : state) : Prop :=
  tasks = map snd (pops (log s)) ++ InputQueue s.

(** When [Empty] is raised on the empty queue only, a worker that has left
    the loop by [Empty] has seen the queue empty, and nothing is put into the
    input queue once the workers run. *)
Definition exited_inv (s : state) : Prop :=
  (∃ w, w ∈ Workers s ∧ at_ w = Exited) → InputQueue s = [].

(** Every worker follows the protocol from the generator it started with. *)
Definition protocol_ok (ws : list (J * G)) (wl : list worker)
    (lg : list (nat * event)) : Prop :=
  ∀ i w, wl !! i = Some w →
    ∃ g0, ws !! i = Some (job w, g0)
          ∧ protocol (job w) g0 (worker_log i lg) (at_ w) (gen w).

Definition protocol_inv (ws : list (J * G)) (s : state) : Prop :=
  protocol_ok ws (Workers s) (log s).

(** Every event is an event of one of the workers. *)
Definition log_index_inv (s : state) : Prop :=
  Forall (λ p, (p.1 < length (Workers s))%nat) (log s).

(** Accounting of the identifiers [aid] of items and [rid] of results when
    no call fails: every submitted item is collected, in the output queue,
    held by a worker or still in the input queue. *)
Definition accounting_inv {Id : Type} (aid : Arg → Id) (rid : Res → Id)
    (tasks : list Arg) (s : state) : Prop :=
  map aid tasks ≡ₚ map rid (Results s) ++ map rid (OutputQueue s)
                    ++ map aid (held (Workers s)) ++ map aid (InputQueue s)
  ∧ (∀ x, x ∈ held (Workers s) ++ InputQueue s → x ∈ tasks)
  ∧ Forall (λ w, at_ w ≠ Raised) (Workers s).

End Machine.

Arguments pc : clear implicits.
Arguments worker : clear implicits.
Arguments event : clear implicits.
Arguments state : clear implicits.

End SharedQueue.

(** ** Direct submission to a pool

    The pattern of [UsePool] and of the cases of
    MultiprocessingDemonstrationPool.py:

      MyPool = multiprocessing.Pool(processes=...)
      Results = [MyPool.apply_async(f, args=...) for ...]
      Output = [r.get() for r in Results]

    [apply_async] appends the call to the task queue of the pool and returns
    a handle; a free pool process takes the oldest call of the task queue,
    runs it and stores the outcome under its handle; [r.get()] blocks until
    the outcome of its handle is there, returns the value and re-raises the
    exception when the call raised. *)

Module DirectSubmit.
Section Machine.

Context {G Args Res : Type}.
Variable f : G -> Args -> option Res * G.

Record state := {
  to_submit : list Args;             (* calls the caller has yet to submit *)
  submitted : list Args;             (* handle k is the k-th submitted call *)
  taskqueue : list nat;              (* handles no process has taken yet *)
  procs : list (G * option nat);     (* generator and current handle *)
  outcomes : gmap nat (option Res);  (* [None]: the call raised *)
  Output : list Res;                 (* what the caller has collected *)
  failed : bool                      (* a [get] has re-raised *)
}.

(** A pool process takes a call when it is free and finishes the call it
    runs. *)
Definition step_proc (p : nat) (s : state) : option state :=
  match procs s !! p with
  | None => None
  | Some (g, None) =>
      match taskqueue s with
      | [] => None
      | k :: q =>
          Some {| to_submit := to_submit s; submitted := submitted s;
                  taskqueue := q;
                  procs := <[p := (g, Some k)]> (procs s);
                  outcomes := outcomes s; Output := Output s;
                  failed := failed s |}
      end
  | Some (g, Some k) =>
      match submitted s !! k with
      | None => None
      | Some a =>
          let (r, g') := f g a in
          Some {| to_submit := to_submit s; submitted := submitted s;
                  taskqueue := taskqueue s;
                  procs := <[p := (g', None)]> (procs s);
                  outcomes := <[k := r]> (outcomes s); Output := Output s;
                  failed := failed s |}
      end
  end.

(** The caller: first the submissions, then the gets in the order of the
    handles. *)
Definition step_main (s : state) : option state :=
  if failed s then None else
  match to_submit s with
  | a :: rest =>
      Some {| to_submit := rest; submitted := submitted s ++ [a];
              taskqueue := taskqueue s ++ [length (submitted s)];
              procs := procs s; outcomes := outcomes s;
              Output := Output s; failed := false |}
  | [] =>
      match submitted s !! length (Output s) with
      | None => None
      | Some _ =>
          match outcomes s !! length (Output s) with
          | None => None
          | Some (Some r) =>
              Some {| to_submit := []; submitted := submitted s;
                      taskqueue := taskqueue s; procs := procs s;
                      outcomes := outcomes s;
                      Output := Output s ++ [r]; failed := false |}
          | Some None =>
              Some {| to_submit := []; submitted := submitted s;
                      taskqueue := taskqueue s; procs := procs s;
                      outcomes := outcomes s;
                      Output := Output s; failed := true |}
          end
      end
  end.

Inductive actor := Main | P (p : nat).

Definition step (a : actor) (s : state) : option state :=
  match a with Main => step_main s | P p => step_proc p s end.

Fixpoint run (sched : list actor) (s : state) : option state :=
  match sched with
  | [] => Some s
  | a :: sched' =>
      match step a s with
      | Some s' => run sched' s'
      | None => None
      end
  end.

(** The pool has been created with the processes [gens]; the caller is
    about to submit [tasks]. *)
Definition init (tasks : list Args) (gens : list G) : state :=
  {| to_submit := tasks; submitted := []; taskqueue := [];
     procs := map (λ g, (g, None)) gens; outcomes := ∅;
     Output := []; failed := false |}.

(** [Output = [r.get() for r in Results]] has been evaluated. *)
Definition returned (s : state) : Prop :=
  to_submit s = [] ∧ length (Output s) = length (submitted s) ∧ failed s = false.

Definition stuck (s : state) : Prop := ∀ a, step a s = None.

Definition running (s : state) : list nat := omap snd (procs s).

Definition measure (s : state) : nat :=
  4 * length (to_submit s) + 2 * length (taskqueue s) + length (running s)
  + (length (submitted s) - length (Output s))
  + (if failed s then 0 else 1).

(** The same steps as a relation, with the process list split at the
    process that moves. *)
Inductive transition : state → state → Prop :=
  | t_submit a rest sub tq ps oc out :
      transition
        {| to_submit := a :: rest; submitted := sub; taskqueue := tq;
           procs := ps; outcomes := oc; Output := out; failed := false |}
        {| to_submit := rest; submitted := sub ++ [a];
           taskqueue := tq ++ [length sub];
           procs := ps; outcomes := oc; Output := out; failed := false |}
  | t_get a r sub tq ps oc out :
      sub !! length out = Some a →
      oc !! length out = Some (Some r) →
      transition
        {| to_submit := []; submitted := sub; taskqueue := tq;
           procs := ps; outcomes := oc; Output := out; failed := false |}
        {| to_submit := []; submitted := sub; taskqueue := tq;
           procs := ps; outcomes := oc; Output := out ++ [r]; failed := false |}
  | t_get_raise a sub tq ps oc out :
      sub !! length out = Some a →
      oc !! length out = Some None →
      transition
        {| to_submit := []; submitted := sub; taskqueue := tq;
           procs := ps; outcomes := oc; Output := out; failed := false |}
        {| to_submit := []; submitted := sub; taskqueue := tq;
           procs := ps; outcomes := oc; Output := out; failed := true |}
  | t_take k q l1 g l2 ts sub oc out fl :
      transition
        {| to_submit := ts; submitted := sub; taskqueue := k :: q;
           procs := l1 ++ (g, None) :: l2; outcomes := oc; Output := out;
           failed := fl |}
        {| to_submit := ts; submitted := sub; taskqueue := q;
           procs := l1 ++ (g, Some k) :: l2; outcomes := oc; Output := out;
           failed := fl |}
  | t_finish k a r g' l1 g l2 ts sub tq oc out fl :
      sub !! k = Some a →
      f g a = (r, g') →
      transition
        {| to_submit := ts; submitted := sub; taskqueue := tq;
           procs := l1 ++ (g, Some k) :: l2; outcomes := oc; Output := out;
           failed := fl |}
        {| to_submit := ts; submitted := sub; taskqueue := tq;
           procs := l1 ++ (g', None) :: l2; outcomes := <[k := r]> oc;
           Output := out; failed := fl |}.

(** What holds of every state of a run on [tasks]. *)
Record invariant (tasks : list Args) (s : state) : Prop := {
  inv_tasks : submitted s ++ to_submit s = tasks;
  inv_outcomes : ∀ k o, outcomes s !! k = Some o →
                   ∃ a g, submitted s !! k = Some a ∧ (f g a).1 = o;
  inv_output : ∀ k r, Output s !! k = Some r →
                 ∃ a g, submitted s !! k = Some a ∧ (f g a).1 = Some r;
  inv_handles : ∀ k, (k < length (submitted s))%nat →
                  k ∈ taskqueue s ∨ k ∈ running s ∨ is_Some (outcomes s !! k);
  inv_running : ∀ k, k ∈ taskqueue s ∨ k ∈ running s →
                  (k < length (submitted s))%nat;
  inv_failed : failed s = true → ∃ a g, a ∈ submitted s ∧ (f g a).1 = None
}.

End Machine.

Arguments state : clear implicits.

End DirectSubmit.

(** ** MultiprocessingDemonstrationBenchmarking.py *)

Module Benchmarking.

(** [y <= np.sqrt(r)] over exact numbers; the root of a negative number is
    not a number and compares false. *)
Definition le_sqrt (y r : Q) : bool :=
  if negb (Qle_bool 0 r) then false
  else if Qle_bool y 0 then true
  else Qle_bool (y * y) r.

(** The [for] loop of [CPUHeavyFunction]. *)
Fixpoint draw (n : nat) (g : Rng) (NumbersInside : Z) : Z * Rng :=
  match n with
  | O => (NumbersInside, g)
  | S n' =>
      let (x, g) := random_random g in
      let (y, g) := random_random g in
      draw n' g (if le_sqrt y (1 - x * x) then NumbersInside + 1 else NumbersInside)
  end.

(** [Pi = 4*NumbersInside/NumbersToDraw] is a true division and raises
    [ZeroDivisionError] when [NumbersToDraw] is 0. *)
Definition CPUHeavyFunction (g : Rng) (NumbersToDraw ID : Z) : option (Z * Q) * Rng :=
  let (NumbersInside, g) := draw (Z.to_nat NumbersToDraw) g 0 in
  if NumbersToDraw =? 0 then (None, g)
  else (Some (ID, (inject_Z (4 * NumbersInside) / inject_Z NumbersToDraw)%Q), g).

(** A call [FunctionToEvaluate(a, b)]. *)
Inductive call (A B : Type) := Evaluate (a : A) (b : B).
Arguments Evaluate {A B} a b.

(** The body of the loop of [UsingQueues]. *)
Definition UsingQueues {A B R : Type}
    (FunctionToEvaluate : Rng -> A -> B -> option R * Rng)
    (_ : unit) (g : Rng) (TupleOfArguments : A * B)
    : list (call A B) * option R * Rng :=
  let (ReturnedTuple, g) :=
    FunctionToEvaluate g TupleOfArguments.1 TupleOfArguments.2 in
  ([Evaluate TupleOfArguments.1 TupleOfArguments.2], ReturnedTuple, g).

(** [UseProcess]: the state when the processes have been started and the
    caller begins [[OutputQueue.get() for i in range(NumberOfTasks)]].
    [gens k] is the generator of the k-th process. *)
Definition UseProcess (gens : nat -> Rng)
    (NumberOfWorkers NumberOfTasks WeightOfComputation : Z)
    : SharedQueue.state unit Rng (Z * Z) (Z * Q) (call Z Z) :=
  SharedQueue.init
    (map (λ i, (WeightOfComputation, i)) (range 0 NumberOfTasks))
    (map (λ i, (tt, gens (Z.to_nat i))) (range 0 NumberOfWorkers))
    (length (range 0 NumberOfTasks)).

(** A submitted call [MyPool.apply_async(F, args=[a, b])]. *)
Definition apply_args {A B R : Type}
    (F : Rng -> A -> B -> option R * Rng) (g : Rng) (args : A * B)
    : option R * Rng :=
  F g args.1 args.2.

(** [UsePool]: the pool has been created and the caller is about to submit
    the calls [CPUHeavyFunction(WeightOfComputation, i)].  [gens k] is the
    generator of the k-th pool process. *)
Definition UsePool (gens : nat -> Rng)
    (NumberOfWorkers NumberOfTasks WeightOfComputation : Z)
    : DirectSubmit.state Rng (Z * Z) (Z * Q) :=
  DirectSubmit.init
    (map (λ i, (WeightOfComputation, i)) (range 0 NumberOfTasks))
    (map (λ i, gens (Z.to_nat i)) (range 0 NumberOfWorkers)).

(** The task function of the scenario with squares:
    [compute(payload) = payload * payload], returned with the identifier of
    the task. *)
Definition square (g : Rng) (payload ID : Z) : option (Z * Z) * Rng :=
  (Some (ID, payload * payload), g).

End Benchmarking.

(** ** MultiprocessingDemonstrationProcess.py *)

Module Process.

(** The source's parameters. *)
Definition N : Z := 60000000.
Definition NumberOfProcesses : Z := 4.

(** The [for] loop of [SumRandomNumbers]. *)
Fixpoint add_random (n : nat) (g : Rng) (Sum : Q) : Q * Rng :=
  match n with
  | O => (Sum, g)
  | S n' => let (x, g) := random_random g in add_random n' g (Sum + x)%Q
  end.

(** [SumRandomNumbers]: the pair it puts into the output queue. *)
Definition SumRandomNumbers {I : Type} (g : Rng) (NumberOfValuesToAdd : Q) (ID : I)
    : (I * Q) * Rng :=
  let (Sum, g) := add_random (Z.to_nat (int_of NumberOfValuesToAdd)) g 0%Q in
  ((ID, Sum), g).

(** The body of the loop of [JobToSumRandomNumbersRepeatedly], for a
    number [N] of random numbers to add. *)
Definition JobToSumRandomNumbersRepeatedly (N : Z) (JobID : Z) (g : Rng) (InputValue : Q)
    : list (Benchmarking.call Q (Z * Z)) * option ((Z * Z) * Q) * Rng :=
  let NumberOfValuesToAdd := (InputValue * inject_Z N / 25)%Q in
  let (r, g) := SumRandomNumbers g NumberOfValuesToAdd (JobID, int_of InputValue) in
  ([Benchmarking.Evaluate NumberOfValuesToAdd (JobID, int_of InputValue)], Some r, g).

(** Case 4: the input queue holds [items], the jobs 1..NumberOfProcesses
    have been started and the caller begins one blocking get per item. *)
Definition Case4 (gens : Z -> Rng) (items : list Q) (NumberOfProcesses : Z)
    : SharedQueue.state Z Rng Q ((Z * Z) * Q) (Benchmarking.call Q (Z * Z)) :=
  SharedQueue.init items
    (map (λ i, (i, gens i)) (range 1 (NumberOfProcesses + 1)))
    (length items).

End Process.

(** ** MultiprocessingDemonstrationNestingProcessAndPool.py *)

Module Nesting.

(** The source's parameters. *)
Definition NumberOfSubtasksInOneTask : Z := 8.
Definition NumberOfProcessWorkers : Z := 2.
Definition NumberOfPoolWorkers : Z := 2.

(** [SumRandomNumbers]: the sum of [WeightedNumbersToAdd] random numbers. *)
Definition SumRandomNumbers (g : Rng) (WeightedNumbersToAdd : Z) : Q :=
  (Process.add_random (Z.to_nat WeightedNumbersToAdd) g 0%Q).1.

(** What a process does with its inner pool.  The pool is used by direct
    submission, so the sums are collected in the order of submission. *)
Inductive pool_event :=
  | PoolCreate (processes : Z)
  | ApplyAsync (WeightedNumbersToAdd : Z) (ProcessID : string) (SubTaskNumber : Z)
  | AsyncGet (SubTaskNumber : Z) (Sum : Q)
  | PoolClose
  | PoolJoin.

(** The generators of a process: its own, and the one of the pool process
    that runs the n-th sub-task this process submits. *)
Record gens := { own : Rng; sub : nat -> Rng; submitted : nat }.

(** [Sum = int(np.sum(ListOfSums)/(0.5*NumberOfSubtasksInOneTask*RandomWeight))];
    a zero divisor makes the quotient nan or inf, on which [int] raises. *)
Definition reduce (ListOfSums : list Q) (NumberOfSubtasksInOneTask RandomWeight : Z)
    : option Z :=
  let d := (0.5 * inject_Z NumberOfSubtasksInOneTask * inject_Z RandomWeight)%Q in
  if Qeq_bool d 0 then None else Some (int_of (np_sum ListOfSums / d)).

(** The body of the loop of [JobToPerformTasks], for given numbers of
    sub-tasks and of pool workers. *)
Definition JobToPerformTasks (NumberOfSubtasksInOneTask NumberOfPoolWorkers : Z)
    (ProcessID : string) (g : gens) (NumbersToAdd : Q)
    : list pool_event * option (Q * Z) * gens :=
  match random_randint 1 3 (own g) with
  | (None, own') => ([], None, {| own := own'; sub := sub g; submitted := submitted g |})
  | (Some RandomWeight, own') =>
      if NumberOfPoolWorkers <? 1 then
        (* [multiprocessing.Pool(processes=...)] raises [ValueError] *)
        ([], None, {| own := own'; sub := sub g; submitted := submitted g |})
      else
      let WeightedNumbersToAdd := RandomWeight * int_of NumbersToAdd in
      let SubtaskNumbers := range 0 NumberOfSubtasksInOneTask in
      let ListOfSums :=
        imap (λ n _, SumRandomNumbers (sub g (submitted g + n)) WeightedNumbersToAdd)
             SubtaskNumbers in
      let g' := {| own := own'; sub := sub g;
                   submitted := submitted g + length SubtaskNumbers |} in
      let events :=
        [PoolCreate NumberOfPoolWorkers]
        ++ map (λ SubtaskNumber, ApplyAsync WeightedNumbersToAdd ProcessID (SubtaskNumber + 1))
               SubtaskNumbers
        ++ zip_with (λ SubtaskNumber Sum, AsyncGet (SubtaskNumber + 1) Sum)
               SubtaskNumbers ListOfSums
        ++ [PoolClose; PoolJoin] in
      match reduce ListOfSums NumberOfSubtasksInOneTask RandomWeight with
      | Some Sum => (events, Some (NumbersToAdd, Sum), g')
      | None => (events, None, g')
      end
  end.

(** [x] is within the relative tolerance [tol] of [c]. *)
Definition within_tolerance (tol x c : Q) : Prop :=
  (Qabs (x - c) <= tol * Qabs c)%Q.

(** The sub-tasks submitted among the events of a process. *)
Definition sub_tasks (es : list pool_event) : list (Z * string * Z) :=
  omap (λ e, match e with ApplyAsync w p k => Some (w, p, k) | _ => None end) es.

(** The sub-task numbers of one task: [SubtaskNumber+1] for
    [SubtaskNumber in range(NumberOfSubtasksInOneTask)]. *)
Definition sub_task_numbers (NumberOfSubtasksInOneTask : Z) : list Z :=
  map (λ SubtaskNumber, SubtaskNumber + 1) (range 0 NumberOfSubtasksInOneTask).

(** The pool events of one task with the random weight [RandomWeight] and
    the sums [ListOfSums] of its sub-tasks. *)
Definition task_events (K PW : Z) (ProcessID : string) (NumbersToAdd : Q)
    (RandomWeight : Z) (ListOfSums : list Q) : list pool_event :=
  [PoolCreate PW]
  ++ map (ApplyAsync (RandomWeight * int_of NumbersToAdd) ProcessID) (sub_task_numbers K)
  ++ zip_with AsyncGet (sub_task_numbers K) ListOfSums
  ++ [PoolClose; PoolJoin].

Definition task_ok (K : Z) (t : Q * Z * list Q * Z) : Prop :=
  let '(NumbersToAdd, RandomWeight, ListOfSums, Sum) := t in
  1 <= RandomWeight <= 3
  ∧ length ListOfSums = Z.to_nat K
  ∧ reduce ListOfSums K RandomWeight = Some Sum.

(** Generators that always yield 0. *)
Definition zero_gens : gens :=
  {| own := zero_gen; sub := λ _, zero_gen; submitted := 0 |}.

End Nesting.

(** ** MultiprocessingDemonstrationManagerDictOfDicts.py *)

Module ManagerDict.

(** Values stored in an interior dictionary. *)
Inductive value :=
  | VList (l : list Z)
  | VBool (b : bool)
  | VInt (n : Z).

(** An interior dictionary [Dict[Key]] and the manager's dictionary. *)
Abbreviation inner := (gmap string value).
Abbreviation dict := (gmap Z inner).

(** The calls a process makes on the manager's dictionary.  [Dict[k]] is
    [GetItem]: the proxy hands out a copy [v] of the interior dictionary.
    [Dict[k] = v] is [SetItem]. *)
Inductive op :=
  | GetItem (k : Z) (v : inner)
  | SetItem (k : Z) (v : inner).

Record store := { shared : dict; calls : list op }.

Inductive res (A : Type) :=
  | Ok (a : A)
  | Raise
  | OutOfFuel.
Arguments Ok {A} a.
Arguments Raise {A}.
Arguments OutOfFuel {A}.

(** State and exceptions: the store survives an exception. *)
Definition M (A : Type) : Type := store -> res A * store.

#[export] Instance M_ret : MRet M := fun A a st => (Ok a, st).
#[export] Instance M_bind : MBind M := fun A B f c st =>
  match c st with
  | (Ok a, st') => f a st'
  | (Raise, st') => (Raise, st')
  | (OutOfFuel, st') => (OutOfFuel, st')
  end.

Definition raise {A} : M A := fun st => (Raise, st).
Definition out_of_fuel {A} : M A := fun st => (OutOfFuel, st).
Definition lift {A} (o : option A) : M A :=
  match o with Some a => mret a | None => raise end.

(** [Dict[k]] *)
Definition getitem (k : Z) : M inner := fun st =>
  match shared st !! k with
  | Some v => (Ok v, {| shared := shared st; calls := calls st ++ [GetItem k v] |})
  | None => (Raise, st)
  end.

(** [Dict[k] = v] *)
Definition setitem (k : Z) (v : inner) : M unit := fun st =>
  (Ok tt, {| shared := <[k := v]> (shared st); calls := calls st ++ [SetItem k v] |}).

(** [l[-k]] for k = 1, 2. *)
Definition neg_index (l : list Z) (k : nat) : option Z := rev l !! (k - 1)%nat.

Definition as_list (v : value) : option (list Z) :=
  match v with VList l => Some l | _ => None end.

(** [v == False] *)
Definition eq_False (v : value) : bool :=
  match v with
  | VBool b => negb b
  | VInt n => n =? 0
  | VList _ => false
  end.

Definition ComputeNextElementOfLucasSequence (Sequence : list Z) (P Q : Z) : option Z :=
  a ← neg_index Sequence 1;
  b ← neg_index Sequence 2;
  Some (P * a - Q * b).

(** The [while] loop of [Worker]; one unit of fuel per evaluation of the
    loop condition.  The result is returned when the loop is left. *)
Fixpoint Worker_loop (fuel : nat) (P Q Key : Z) : M unit :=
  match fuel with
  | O => out_of_fuel
  | S fuel' =>
      d ← getitem Key;
      c ← lift (d !! "CompFinished");
      if eq_False c then
        TemporaryDict ← getitem Key;
        s ← lift (TemporaryDict !! "Sequence" ≫= as_list);
        x ← lift (ComputeNextElementOfLucasSequence s P Q);
        let TemporaryDict := <["Sequence" := VList (s ++ [x])]> TemporaryDict in
        _ ← setitem Key TemporaryDict;
        d ← getitem Key;
        s ← lift (d !! "Sequence" ≫= as_list);
        z ← lift (neg_index s 1);
        if 1000 <=? z then
          TemporaryDict ← getitem Key;
          let TemporaryDict := <["CompFinished" := VBool true]> TemporaryDict in
          let TemporaryDict := <["P" := VInt P]> TemporaryDict in
          let TemporaryDict := <["Q" := VInt Q]> TemporaryDict in
          setitem Key TemporaryDict
        else Worker_loop fuel' P Q Key
      else mret tt
  end.

Definition Worker (fuel : nat) (Key : Z) (g : Rng) : M unit :=
  let (P, g) := random_randint 1 Key g in
  let (Q, g) := random_randint (- Key) (-1) g in
  P ← lift P;
  Q ← lift Q;
  Worker_loop fuel P Q Key.

(** The interior dictionary [MyDict[k]] after initialisation. *)
Definition initial_inner : inner :=
  <["CompFinished" := VBool false]> (<["Sequence" := VList [0; 1]]> ∅).

(** The Lucas sequence of the first kind that the loop extends:
    after [n] appended elements. *)
Fixpoint lucas (P Q : Z) (n : nat) : list Z :=
  match n with
  | O => [0; 1]
  | S k =>
      let s := lucas P Q k in
      match ComputeNextElementOfLucasSequence s P Q with
      | Some x => s ++ [x]
      | None => s
      end
  end.

(** A [SetItem] writes the copy handed out by the [GetItem] just before it,
    with fields of the copy replaced. *)
Definition modified_copy (v0 v : inner) : Prop :=
  (exists s, v = <["Sequence" := VList s]> v0) \/
  (exists P Q, v = <["Q" := VInt Q]> (<["P" := VInt P]> (<["CompFinished" := VBool true]> v0))).

Fixpoint read_modify_write (prev : option op) (l : list op) : Prop :=
  match l with
  | [] => True
  | o :: l' =>
      match o with
      | GetItem _ _ => True
      | SetItem k v =>
          match prev with
          | Some (GetItem k0 v0) => k0 = k /\ modified_copy v0 v
          | _ => False
          end
      end /\ read_modify_write (Some o) l'
  end.

Definition op_key (o : op) : Z :=
  match o with GetItem k _ => k | SetItem k _ => k end.

(** The effect of a sequence of calls on the manager's dictionary: a
    [SetItem] replaces the whole entry, a [GetItem] changes nothing. *)
Definition replay (l : list op) (d : dict) : dict :=
  fold_left (fun d o => match o with
                        | GetItem _ _ => d
                        | SetItem k v => <[k := v]> d
                        end) l d.

(** The last two elements of the sequence after [n] appended elements. *)
Fixpoint lucas_pair (P Q : Z) (n : nat) : Z * Z :=
  match n with
  | O => (0, 1)
  | S k => let (a, b) := lucas_pair P Q k in (b, P * b - Q * a)
  end.

Definition lucas_last (P Q : Z) (n : nat) : Z := (lucas_pair P Q n).2.

(** The interior dictionary the loop leaves behind after [m] appended
    elements. *)
Definition finished (P Q : Z) (m : nat) (d : inner) : inner :=
  <["Q" := VInt Q]> (<["P" := VInt P]> (<["CompFinished" := VBool true]>
    (<["Sequence" := VList (lucas P Q m)]> d))).

(** Evaluations of the loop condition that suffice from [k] appended
    elements on. *)
Definition fuel_needed (P Q : Z) (k : nat) : Z :=
  match k with O => 1000 | _ => 1000 - lucas_last P Q k end.

(** Weakest preconditions for the store monad. *)
Definition wp {A} (c : M A) (st : store) (Φ : res A → store → Prop) : Prop :=
  Φ (c st).1 (c st).2.

(** What a run may do to the store: it appends calls on [Key] only, every
    [SetItem] among them rewrites the copy read just before, and the
    dictionary changes by these whole-entry replacements and nothing else. *)
Definition disciplined (Key : Z) (st st' : store) : Prop :=
  ∃ new, calls st' = calls st ++ new
         ∧ Forall (λ o, op_key o = Key) new
         ∧ read_modify_write None new
         ∧ shared st' = replay new (shared st).

End ManagerDict.

(** ** MultiprocessingDemonstrationPool.py: the integration example *)

Module Integration.

(** [Integrand(x, m, t)] *)
Definition Integrand (x m t : Q) : Q := (m * x + t)%Q.

(** [AnalyticIntegral(LowerB, UpperB, m, t)] *)
Definition AnalyticIntegral (LowerB UpperB m t : Q) : Q :=
  (m * (UpperB ^ 2 - LowerB ^ 2) / 2 + t * (UpperB - LowerB))%Q.

(** [zip(l[:-1], l[1:])] *)
Definition consecutive (l : list Q) : list (Q * Q) := zip (removelast l) (tail l).

(** The last block of the script for a quadrature routine [quad], which
    returns the value of the integral and an error estimate:
      ListOfIntegrationBorders = np.linspace(0, 100, NumberOfProcesses+1)
      Output = [quad(Integrand, i, j, (m, t)) for i, j in zip(...)]
      Sum = sum([i[0] for i in Output])
    The pool returns the outputs in the order of submission. *)
Definition IntegrateInParts (quad : (Q -> Q) -> Q -> Q -> Q * Q)
    (NumberOfProcesses : Z) (m t : Q) : Q :=
  let ListOfIntegrationBorders := Pool.linspace 0 100 (NumberOfProcesses + 1) in
  let Output :=
    map (λ ij, quad (λ x, Integrand x m t) ij.1 ij.2)
        (consecutive ListOfIntegrationBorders) in
  np_sum (map fst Output).

(** A routine with the interface of [integrate.quad] that is exact on linear
    integrands: the trapezoidal rule on one interval, with error estimate 0.
    It stands for [quad] in the example of the integral in parts. *)
Definition trapezoid (f : Q -> Q) (a b : Q) : Q * Q :=
  (((b - a) * (f a + f b) / 2)%Q, 0%Q).

End Integration.

(** ** MultiprocessingDemonstrationBenchmarking.py: the serial harness *)

Module Harness.

(** [[CPUHeavyFunction(WeightOfComputation, i) for i in ids]] with one
    generator; the first call that raises ends the comprehension. *)
Fixpoint Serial_calls (ids : list Z) (g : Rng) (WeightOfComputation : Z)
    : option (list (Z * Q)) * Rng :=
  match ids with
  | [] => (Some [], g)
  | i :: ids' =>
      match Benchmarking.CPUHeavyFunction g WeightOfComputation i with
      | (None, g') => (None, g')
      | (Some r, g') =>
          let (Output, g'') := Serial_calls ids' g' WeightOfComputation in
          (cons r <$> Output, g'')
      end
  end.

(** The list [Output] of [Serial]. *)
Definition Serial (g : Rng) (NumberOfWorkers NumberOfTasks WeightOfComputation : Z)
    : option (list (Z * Q)) * Rng :=
  Serial_calls (range 0 NumberOfTasks) g WeightOfComputation.

(** What [SleepForxSeconds] does. *)
Inductive sleep_event :=
  | Sleep            (* [time.sleep(1.0)] *)
  | PrintSleeping    (* [print('sleeping...')] *)
  | PrintAwakening   (* the message with the time of day *)
  | PrintBlank.      (* [print(' ')] *)

(** The [while s<(x-1)] loop of [SleepForxSeconds]; one unit of fuel per
    evaluation of the condition. *)
Fixpoint sleep_loop (fuel : nat) (s x : Z) : option (list sleep_event) :=
  match fuel with
  | O => None
  | S fuel' =>
      if s <? x - 1 then
        (λ l, Sleep :: PrintSleeping :: l) <$> sleep_loop fuel' (s + 1) x
      else Some []
  end.

Definition SleepForxSeconds (fuel : nat) (x : Z) : option (list sleep_event) :=
  (λ l, l ++ [Sleep; PrintAwakening; PrintBlank]) <$> sleep_loop fuel 0 x.

Definition sleeps (l : list sleep_event) : nat :=
  length (List.filter (λ e, match e with Sleep => true | _ => false end) l).

End Harness.

(** ** MultiprocessingDemonstrationProcess.py: the serial cases *)

Module ProcessCases.

(** Case 1: [[SumRandomNumbers(N, i, QueueOfResults) for i in ids]] puts one
    pair per call into the queue, which the gets then return in order. *)
Fixpoint Case1_calls (ids : list Z) (g : Rng) (N : Q) : list (Z * Q) * Rng :=
  match ids with
  | [] => ([], g)
  | i :: ids' =>
      let (r, g) := Process.SumRandomNumbers g N i in
      let (rs, g) := Case1_calls ids' g N in
      (r :: rs, g)
  end.

Definition Case1 (g : Rng) (N NumberOfProcesses : Z) : list (Z * Q) * Rng :=
  Case1_calls (range 1 (NumberOfProcesses + 1)) g (inject_Z N).

(** Case 3: the job 1 alone on the input queue. *)
Definition Case3 (g : Rng) (items : list Q)
    : SharedQueue.state Z Rng Q ((Z * Z) * Q) (Benchmarking.call Q (Z * Z)) :=
  SharedQueue.init items [(1, g)] (length items).

End ProcessCases.

(** ** MultiprocessingDemonstrationManagerDictOfDicts.py: the main part *)

Module ManagerMain.
Import ManagerDict.

(** [MyDict] after the initialisation loop over [ListOfKeys]. *)
Definition MyDict (ListOfKeys : list Z) : dict :=
  fold_left (λ d k, <[k := initial_inner]> d) ListOfKeys ∅.

(** The workers of the keys [keys] run one after the other, each with its
    own generator and [fuel]. *)
Fixpoint run_workers (fuel : nat) (keys : list Z) (gens : Z -> Rng) (st : store)
    : store :=
  match keys with
  | [] => st
  | k :: keys' => run_workers fuel keys' gens (Worker fuel k (gens k) st).2
  end.

(** The interior dictionary of [Key] when its worker has finished. *)
Definition is_finished (Key : Z) (v : inner) : Prop :=
  ∃ (P Q : Z) (m : nat),
    1 <= P <= Key ∧ - Key <= Q <= -1 ∧ (1 <= m <= 16)%nat
    ∧ 1000 <= lucas_last P Q m
    ∧ v = finished P Q m initial_inner.

End ManagerMain.

(** ** Shared queues: lost items and the order with one worker *)

Module QueueAccounting.
Section Defs.
Import SharedQueue.
Context {J G Arg Res E : Type}.

(** The workers that an exception of the loop body has ended. *)
Definition died (ws : list (worker J G Arg)) : nat :=
  length (List.filter (λ w, match at_ w with Raised => true | _ => false end) ws).

(** Every popped item has given a result, is held by a worker or has ended
    its worker. *)
Definition loss_inv (s : state J G Arg Res E) : Prop :=
  length (pops (log s))
  = (length (deposited (log s)) + length (held (Workers s)) + died (Workers s))%nat.

(** With one worker, the job [j0], the identifiers keep the order of
    submission, and the worker is not ended by an exception. *)
Definition in_order_inv {Id : Type} (aid : Arg → Id) (rid : Res → Id)
    (tasks : list Arg) (j0 : J) (s : state J G Arg Res E) : Prop :=
  map aid tasks = map rid (Results s) ++ map rid (OutputQueue s)
                  ++ map aid (held (Workers s)) ++ map aid (InputQueue s)
  ∧ (∀ x, x ∈ held (Workers s) ++ InputQueue s → x ∈ tasks)
  ∧ (∃ w, Workers s = [w] ∧ job w = j0 ∧ at_ w ≠ Raised).

(** The schedule of a job that is called in the caller's own process: the
    job runs until it leaves its loop ([n] items: two steps for each and the
    last, failing, get), then the caller makes its [n] gets. *)
Definition serial_schedule (n : nat) : list actor :=
  repeat (W 0) (2 * n + 1) ++ repeat Main n.

(** Nothing is deposited when every call on the items fails. *)
Definition all_fail_inv (tasks : list Arg) (s : state J G Arg Res E) : Prop :=
  deposited (log s) = []
  ∧ (∀ x, x ∈ held (Workers s) ++ InputQueue s → x ∈ tasks).

End Defs.
End QueueAccounting.

(** ** The serial runs of MultiprocessingDemonstrationNestingProcessAndPool.py *)

Module NestingMain.

(** The serial part of the main program: the input queue holds
    [ListOfNumbersToAdd], [JobToPerformTasks] is called in the main process
    and the caller makes one blocking get per item. *)
Definition Serial (g : Nesting.gens) (ListOfNumbersToAdd : list Q)
    : SharedQueue.state string Nesting.gens Q (Q * Z) Nesting.pool_event :=
  SharedQueue.init ListOfNumbersToAdd [("MainProcess", g)]
    (length ListOfNumbersToAdd).

End NestingMain.

(** ** One task of a nested worker, as the log of a run shows it *)

Module NestedTask.
Import Nesting.











End NestedTask.

(** ** Theorems *)

Section PiSeries.
Import Pool.

Lemma np_sum_acc (l : list Q) (a : Q) :
  (fold_left Qplus l a == a + np_sum l)%Q.
Proof.
  unfold np_sum. revert a. induction l as [|x l IH]; intros a; simpl.
  - ring.
  - rewrite IH, (IH (0 + x)%Q). ring.
Qed.

Lemma np_sum_snoc (l : list Q) (x : Q) :
  (np_sum (l ++ [x]) == np_sum l + x)%Q.
Proof.
  unfold np_sum. rewrite fold_left_app. simpl. reflexivity.
Qed.

Lemma range_0_succ (k : nat) :
  range 0 (Z.of_nat (S k)) = range 0 (Z.of_nat k) ++ [Z.of_nat k].
Proof.
  unfold range. rewrite !Z.sub_0_r, !Nat2Z.id.
  rewrite seq_S, map_app. reflexivity.
Qed.

Lemma ComputePi_partial_sum {I : Type} (k : nat) (ID : I) :
  (snd (ComputePi (Z.of_nat k) ID) == MadhavaLeibniz_partial_sum k)%Q.
Proof.
  unfold ComputePi. simpl snd. induction k as [|k IH].
  - reflexivity.
  - rewrite range_0_succ, fold_left_app. simpl fold_left.
    rewrite IH. cbn [MadhavaLeibniz_partial_sum]. unfold summand.
    rewrite inject_Z_mult. reflexivity.
Qed.

Lemma linspace_integers (N : Z) :
  1 <= N ->
  Forall2 Qeq (linspace 0 (inject_Z (N - 1)) N) (map inject_Z (range 0 N)).
Proof.
  intros HN. unfold linspace, range. rewrite Z.sub_0_r.
  destruct (Z.to_nat N) as [|[|n]] eqn:E; [lia| |].
  - simpl. constructor; [reflexivity|constructor].
  - assert (HN1 : ~ (inject_Z (N - 1) == 0)%Q).
    { change 0%Q with (inject_Z 0). rewrite inject_Z_injective. lia. }
    generalize (seq 0 (S (S n))). intros l.
    induction l as [|i l IH]; simpl; constructor; [|exact IH].
    rewrite Z.add_0_l. field. exact HN1.
Qed.

Lemma vectorised_summands (l : list Q) (zs : list Z) :
  Forall2 Qeq l (map inject_Z zs) ->
  (np_sum (map (fun x => neg_one_pow x / (2 * x + 1)) l)
   == np_sum (map (fun n => inject_Z ((-1) ^ n) / inject_Z (2 * n + 1)) zs))%Q.
Proof.
  revert l. induction zs as [|n zs IH]; intros l H.
  - inversion H. reflexivity.
  - destruct l as [|x l]; [inversion H|].
    apply Forall2_cons_1 in H as [Hx Hl].
    simpl map. unfold np_sum. simpl fold_left.
    rewrite !np_sum_acc, (IH _ Hl).
    unfold neg_one_pow. rewrite (Qfloor_comp _ _ Hx), Qfloor_Z, Hx.
    rewrite inject_Z_plus, inject_Z_mult. reflexivity.
Qed.

Lemma ComputePiVectorised_partial_sum {I : Type} (k : nat) (ID : I) :
  (1 <= k)%nat ->
  (snd (ComputePiVectorised (Z.of_nat k) ID) == MadhavaLeibniz_partial_sum k)%Q.
Proof.
  intros Hk. unfold ComputePiVectorised. simpl snd.
  rewrite (vectorised_summands _ (range 0 (Z.of_nat k)))
    by (apply linspace_integers; lia).
  clear Hk. induction k as [|k IH].
  - reflexivity.
  - rewrite range_0_succ, map_app. simpl map. rewrite np_sum_snoc.
    cbn [MadhavaLeibniz_partial_sum]. rewrite <- IH. field.
    change 0%Q with (inject_Z 0). rewrite inject_Z_injective. lia.
Qed.

(** C9: for every N >= 1 and every ID, [ComputePiVectorised] and
    [ComputePi] return the same pair under exact arithmetic: the identifier
    and the N-th partial sum of the Madhava-Leibniz series. *)
Theorem ComputePi_refines_series {I : Type} (N : Z) (ID : I) :
  1 <= N ->
  fst (ComputePi N ID) = ID /\
  fst (ComputePiVectorised N ID) = ID /\
  (snd (ComputePi N ID) == MadhavaLeibniz_partial_sum (Z.to_nat N))%Q /\
  (snd (ComputePiVectorised N ID) == MadhavaLeibniz_partial_sum (Z.to_nat N))%Q /\
  (snd (ComputePiVectorised N ID) == snd (ComputePi N ID))%Q.
Proof.
  intros HN. remember (Z.to_nat N) as k eqn:Hk.
  assert (HNk : N = Z.of_nat k) by lia.
  assert (Hk1 : (1 <= k)%nat) by lia. clear Hk. subst N.
  pose proof (ComputePi_partial_sum k ID) as H1.
  pose proof (ComputePiVectorised_partial_sum k ID Hk1) as H2.
  repeat split; try assumption.
  etransitivity; [exact H2 | symmetry; exact H1].
Qed.

Lemma ComputePi_refines_series_witness :
  1 <= 4 /\
  (snd (ComputePiVectorised 4 7) == snd (ComputePi 4 7))%Q.
Proof.
  split; [lia | apply (ComputePi_refines_series 4 7); lia].
Defined.

Example ComputePi_3 : ComputePi 3 1 = (1, (52 # 15)%Q) /\ Qred (snd (ComputePiVectorised 3 1)) = (52 # 15)%Q.
Proof. split; vm_compute; reflexivity. Qed.

End PiSeries.

Section DictOfDicts.
Import ManagerDict.


Lemma wp_mono {A} (c : M A) st (Φ Ψ : res A → store → Prop) :
  wp c st Φ → (∀ r st', Φ r st' → Ψ r st') → wp c st Ψ.
Proof. unfold wp. auto. Qed.

Lemma wp_bind {A B} (c : M A) (f : A → M B) st (Φ : res B → store → Prop) :
  wp c st (λ r st', match r with
                    | Ok a => wp (f a) st' Φ
                    | Raise => Φ Raise st'
                    | OutOfFuel => Φ OutOfFuel st'
                    end) →
  wp (c ≫= f) st Φ.
Proof.
  unfold wp, mbind, M_bind. destruct (c st) as [[a| |] st']; simpl; auto.
Qed.

Lemma wp_ret {A} (a : A) st (Φ : res A → store → Prop) :
  Φ (Ok a) st → wp (mret a) st Φ.
Proof. unfold wp. auto. Qed.

Lemma wp_lift {A} (o : option A) st (Φ : res A → store → Prop) :
  (∀ a, o = Some a → Φ (Ok a) st) → (o = None → Φ Raise st) →
  wp (lift o) st Φ.
Proof. unfold wp. destruct o; simpl; auto. Qed.

Lemma wp_getitem k st (Φ : res inner → store → Prop) :
  (∀ v, shared st !! k = Some v →
        Φ (Ok v) {| shared := shared st; calls := calls st ++ [GetItem k v] |}) →
  (shared st !! k = None → Φ Raise st) →
  wp (getitem k) st Φ.
Proof. unfold wp, getitem. destruct (shared st !! k); simpl; auto. Qed.

Lemma wp_setitem k v st (Φ : res unit → store → Prop) :
  Φ (Ok tt) {| shared := <[k := v]> (shared st); calls := calls st ++ [SetItem k v] |} →
  wp (setitem k v) st Φ.
Proof. unfold wp. auto. Qed.

Lemma read_modify_write_weaken p l :
  read_modify_write None l → read_modify_write p l.
Proof. destruct l as [|[]]; simpl; tauto. Qed.

Lemma read_modify_write_app p l1 l2 :
  read_modify_write p l1 → read_modify_write None l2 →
  read_modify_write p (l1 ++ l2).
Proof.
  revert p. induction l1 as [|o l1 IH]; intros p H1 H2; simpl in *.
  - by apply read_modify_write_weaken.
  - destruct H1 as [Ho H1]. split; [exact Ho | by apply IH].
Qed.


Lemma disciplined_refl Key st : disciplined Key st st.
Proof. exists []. rewrite app_nil_r. repeat split; constructor. Qed.

Lemma disciplined_trans Key st1 st2 st3 :
  disciplined Key st1 st2 → disciplined Key st2 st3 → disciplined Key st1 st3.
Proof.
  intros (n1 & E1 & F1 & R1 & S1) (n2 & E2 & F2 & R2 & S2).
  exists (n1 ++ n2). repeat split.
  - by rewrite E2, E1, app_assoc.
  - by apply Forall_app.
  - by apply read_modify_write_app.
  - unfold replay in *. by rewrite fold_left_app, <- S1.
Qed.

Lemma disciplined_get Key st0 sh l v :
  disciplined Key st0 {| shared := sh; calls := l |} →
  disciplined Key st0 {| shared := sh; calls := l ++ [GetItem Key v] |}.
Proof.
  intros H. eapply disciplined_trans; [exact H|].
  exists [GetItem Key v]. repeat split; simpl; auto.
Qed.

Lemma disciplined_get_set Key st0 sh l v v' :
  disciplined Key st0 {| shared := sh; calls := l |} → modified_copy v v' →
  disciplined Key st0
    {| shared := <[Key := v']> sh;
       calls := (l ++ [GetItem Key v]) ++ [SetItem Key v'] |}.
Proof.
  intros H Hm. eapply disciplined_trans; [exact H|].
  exists [GetItem Key v; SetItem Key v']. simpl. repeat split; auto.
  by rewrite <- app_assoc.
Qed.

Lemma Worker_loop_disciplined_from fuel P Q Key st0 st :
  disciplined Key st0 st →
  wp (Worker_loop fuel P Q Key) st (λ _ st', disciplined Key st0 st').
Proof.
  revert st. induction fuel as [|fuel IH]; intros [sh l] H0; [exact H0|].
  cbn [Worker_loop].
  apply wp_bind, wp_getitem; simpl; [intros d Hd | intros _; exact H0].
  pose proof (disciplined_get Key st0 sh l d H0) as H1.
  apply wp_bind, wp_lift; [intros c Hc | intros _; exact H1].
  destruct (eq_False c); [|by apply wp_ret].
  apply wp_bind, wp_getitem; simpl; [intros T HT | intros _; exact H1].
  pose proof (disciplined_get Key st0 _ _ T H1) as H2.
  apply wp_bind, wp_lift; [intros s Hs | intros _; exact H2].
  apply wp_bind, wp_lift; [intros x Hx | intros _; exact H2].
  apply wp_bind, wp_setitem.
  assert (H3 := disciplined_get_set Key st0 _ _ T
                  (<["Sequence" := VList (s ++ [x])]> T) H1 (or_introl (ex_intro _ _ eq_refl))).
  apply wp_bind, wp_getitem; simpl; [intros d' Hd' | intros _; exact H3].
  pose proof (disciplined_get Key st0 _ _ d' H3) as H4.
  apply wp_bind, wp_lift; [intros s' Hs' | intros _; exact H4].
  apply wp_bind, wp_lift; [intros z Hz | intros _; exact H4].
  destruct (1000 <=? z).
  - apply wp_bind, wp_getitem; simpl; [intros T' HT' | intros _; exact H4].
    apply wp_setitem.
    apply (disciplined_get_set Key st0 _ _ T' _ H4). right. eauto.
  - apply IH, H4.
Qed.

Lemma replay_other Key (new : list op) (d : dict) k :
  Forall (λ o, op_key o = Key) new → k ≠ Key → replay new d !! k = d !! k.
Proof.
  unfold replay. revert d. induction new as [|o new IH]; intros d HF Hk; [done|].
  apply Forall_cons_1 in HF as [Ho HF]. simpl. rewrite IH by done.
  destruct o as [|k' v]; [done|]. simpl in Ho. subst k'.
  by rewrite lookup_insert_ne.
Qed.

(** C8: every call [Worker] makes on the manager's dictionary is on its own
    key; every write is one assignment [Dict[Key] = TemporaryDict] of a copy
    read just before and modified outside the dictionary; the dictionary
    changes by these whole-entry replacements only, so nothing else of it is
    touched. *)
Theorem Worker_whole_entry_replacement (fuel : nat) (Key : Z) (g : Rng) (st : store) :
  let st' := (Worker fuel Key g st).2 in
  ∃ new : list op,
    calls st' = calls st ++ new
    ∧ Forall (λ o, op_key o = Key) new
    ∧ read_modify_write None new
    ∧ shared st' = replay new (shared st)
    ∧ ∀ k, k ≠ Key → shared st' !! k = shared st !! k.
Proof.
  intros st'.
  assert (H : disciplined Key st st').
  { subst st'. unfold Worker.
    destruct (random_randint 1 Key g) as [P g1].
    destruct (random_randint (- Key) (-1) g1) as [Q g2].
    change (wp (P ← lift P; Q ← lift Q; Worker_loop fuel P Q Key) st
              (λ _ st', disciplined Key st st')).
    apply wp_bind, wp_lift; [intros P' _ | intros _; apply disciplined_refl].
    apply wp_bind, wp_lift; [intros Q' _ | intros _; apply disciplined_refl].
    apply Worker_loop_disciplined_from, disciplined_refl. }
  destruct H as (new & E & F & R & S). exists new. repeat split; try done.
  intros k Hk. rewrite S. by eapply replay_other.
Qed.

(** *** Termination of the loop *)

Section Lucas.
Variables P Q : Z.
Hypothesis HP : 1 <= P.
Hypothesis HQ : Q <= -1.

Local Abbreviation lucas_pair := (lucas_pair P Q).
Local Abbreviation lucas_last := (lucas_last P Q).
Local Abbreviation finished := (finished P Q).
Local Abbreviation fuel_needed := (fuel_needed P Q).


Lemma neg_index_snoc2 (s : list Z) a b :
  neg_index (s ++ [a; b]) 1 = Some b ∧ neg_index (s ++ [a; b]) 2 = Some a.
Proof. unfold neg_index. rewrite rev_app_distr. simpl. done. Qed.

Lemma lucas_shape (n : nat) :
  ∃ s, lucas P Q n = s ++ [(lucas_pair n).1; (lucas_pair n).2].
Proof.
  induction n as [|n [s IH]]; [by exists []|].
  cbn [lucas lucas_pair]. destruct (lucas_pair n) as [a b]. simpl in IH.
  rewrite IH. unfold ComputeNextElementOfLucasSequence.
  destruct (neg_index_snoc2 s a b) as [-> ->]. simpl.
  exists (s ++ [a]). by rewrite <- !app_assoc.
Qed.

Lemma lucas_next (n : nat) :
  ComputeNextElementOfLucasSequence (lucas P Q n) P Q = Some (lucas_last (S n))
  ∧ lucas P Q (S n) = lucas P Q n ++ [lucas_last (S n)].
Proof.
  destruct (lucas_shape n) as [s E]. unfold lucas_last. cbn [lucas lucas_pair].
  rewrite E. destruct (lucas_pair n) as [a b]. simpl.
  unfold ComputeNextElementOfLucasSequence.
  destruct (neg_index_snoc2 s a b) as [-> ->]. done.
Qed.

Lemma lucas_neg_index (n : nat) :
  neg_index (lucas P Q n) 1 = Some (lucas_last n).
Proof.
  destruct (lucas_shape n) as [s ->]. apply neg_index_snoc2.
Qed.

Lemma lucas_pair_bounds (n : nat) :
  0 <= (lucas_pair n).1 ∧ 1 <= (lucas_pair n).2
  ∧ ((1 <= n)%nat → 1 <= (lucas_pair n).1).
Proof.
  induction n as [|n IH]; [simpl; lia|].
  cbn [lucas_pair]. destruct (lucas_pair n) as [a b]. simpl in *.
  destruct IH as (Ha & Hb & _). repeat split; try lia; nia.
Qed.

Lemma lucas_increasing (n : nat) :
  (1 <= n)%nat → lucas_last n < lucas_last (S n).
Proof.
  intros Hn. unfold lucas_last. cbn [lucas_pair].
  destruct (lucas_pair_bounds n) as (Ha & Hb & Ha1). specialize (Ha1 Hn).
  destruct (lucas_pair n) as [a b]. simpl in *. nia.
Qed.

Lemma lucas_lower_bound (n : nat) : (1 <= n)%nat → Z.of_nat n <= lucas_last n.
Proof.
  induction n as [|n IH]; [lia|]. intros _.
  destruct (decide (n = 0%nat)) as [->|Hn].
  - unfold lucas_last. simpl. lia.
  - pose proof (lucas_increasing n ltac:(lia)). lia.
Qed.

Lemma lucas_unbounded (bound : Z) : ∃ n, bound <= lucas_last n.
Proof.
  exists (S (Z.to_nat bound)).
  pose proof (lucas_lower_bound (S (Z.to_nat bound)) ltac:(lia)). lia.
Qed.


Opaque lucas.

Lemma Worker_loop_finishes (Key : Z) (fuel : nat) :
  ∀ (k : nat) (sh : dict) (l : list op) (d : inner) (c : value),
    sh !! Key = Some d →
    d !! "CompFinished" = Some c → eq_False c = true →
    d !! "Sequence" = Some (VList (lucas P Q k)) →
    Z.max 0 (fuel_needed k) < Z.of_nat fuel →
    wp (Worker_loop fuel P Q Key) {| shared := sh; calls := l |}
      (λ r st', r = Ok tt ∧
                ∃ m, (k < m)%nat ∧ 1000 <= lucas_last m
                     ∧ (∀ j, (k < j < m)%nat → lucas_last j < 1000)
                     ∧ shared st' = <[Key := finished m d]> sh).
Proof.
  induction fuel as [|fuel IH]; intros k sh l d c Hsh Hc Hf Hs Hfuel.
  { lia. }
  destruct (lucas_next k) as [Hnext Hsnoc].
  cbn [Worker_loop].
  apply wp_bind, wp_getitem; cbn [shared calls]; [intros ? Hv | congruence].
  rewrite Hsh in Hv. injection Hv as <-.
  rewrite Hc. apply wp_bind, wp_lift; [intros ? [= <-] | congruence].
  rewrite Hf.
  apply wp_bind, wp_getitem; cbn [shared calls]; [intros ? Hv | congruence].
  rewrite Hsh in Hv. injection Hv as <-.
  rewrite Hs. cbn [mbind option_bind as_list].
  apply wp_bind, wp_lift; [intros ? [= <-] | congruence].
  rewrite Hnext. apply wp_bind, wp_lift; [intros ? [= <-] | congruence].
  rewrite <- Hsnoc.
  apply wp_bind, wp_setitem.
  set (d1 := <["Sequence" := VList (lucas P Q (S k))]> d).
  apply wp_bind, wp_getitem; cbn [shared calls]; rewrite lookup_insert_eq;
    [intros ? [= <-] | congruence].
  unfold d1 at 1. rewrite lookup_insert_eq. cbn [mbind option_bind as_list].
  apply wp_bind, wp_lift; [intros ? [= <-] | congruence].
  rewrite lucas_neg_index.
  apply wp_bind, wp_lift; [intros ? [= <-] | congruence].
  destruct (1000 <=? lucas_last (S k)) eqn:Hz.
  - apply Z.leb_le in Hz.
    apply wp_bind, wp_getitem; cbn [shared calls]; rewrite lookup_insert_eq;
      [intros ? [= <-] | congruence].
    apply wp_setitem. split; [done|]. exists (S k). cbn [shared calls].
    repeat split; [lia | done | intros; lia |].
    by rewrite insert_insert_eq.
  - apply Z.leb_gt in Hz.
    eapply wp_mono.
    + apply (IH (S k) _ _ d1 c).
      * by rewrite lookup_insert_eq.
      * unfold d1. by rewrite lookup_insert_ne.
      * done.
      * unfold d1. by rewrite lookup_insert_eq.
      * cbn [fuel_needed]. destruct k as [|k].
        -- assert (1 <= lucas_last 1) by (unfold lucas_last; simpl; lia).
           simpl in Hfuel. lia.
        -- pose proof (lucas_increasing (S k) ltac:(lia)).
           cbn [fuel_needed] in Hfuel. lia.
    + cbn beta. intros r st' (-> & m & Hkm & Hm & Hlt & Hsh').
      split; [done|]. exists m. repeat split; [lia | done | |].
      * intros j Hj. destruct (decide (j = S k)) as [->|]; [done|].
        apply Hlt. lia.
      * rewrite Hsh', insert_insert_eq. unfold finished, d1.
        by rewrite insert_insert_eq.
Qed.

Transparent lucas.

End Lucas.

(** C10: for every Key >= 1, P in [1..Key] and Q in [-Key..-1], the loop of
    [Worker] started on the sequence [0, 1] terminates: from the second
    appended element on every new element is strictly greater than its
    predecessor, the sequence is unbounded, and the loop is left at the first
    appended element that reaches 1000, with [CompFinished] set to [True]. *)
Theorem Worker_loop_terminates (Key P Q : Z) (fuel : nat) (st : store) :
  1 <= Key → 1 <= P <= Key → - Key <= Q <= -1 →
  shared st !! Key = Some initial_inner →
  (1000 < fuel)%nat →
  ∃ m : nat,
    (1 <= m)%nat
    ∧ (Worker_loop fuel P Q Key st).1 = Ok tt
    ∧ shared (Worker_loop fuel P Q Key st).2 !! Key
      = Some (finished P Q m initial_inner)
    ∧ finished P Q m initial_inner !! "CompFinished" = Some (VBool true)
    ∧ finished P Q m initial_inner !! "Sequence" = Some (VList (lucas P Q m))
    ∧ neg_index (lucas P Q m) 1 = Some (lucas_last P Q m)
    ∧ 1000 <= lucas_last P Q m
    ∧ (∀ j, (1 <= j < m)%nat → lucas_last P Q j < 1000)
    ∧ (∀ j, ComputeNextElementOfLucasSequence (lucas P Q j) P Q
             = Some (lucas_last P Q (S j))
            ∧ lucas P Q (S j) = lucas P Q j ++ [lucas_last P Q (S j)])
    ∧ (∀ j, (1 <= j)%nat → lucas_last P Q j < lucas_last P Q (S j))
    ∧ (∀ bound, ∃ j, bound <= lucas_last P Q j).
Proof.
  intros HKey HP HQ Hst Hfuel. destruct st as [sh l]. simpl in Hst.
  assert (HP1 : 1 <= P) by lia. assert (HQ1 : Q <= -1) by lia.
  assert (Hfn : Z.max 0 (fuel_needed P Q 0) < Z.of_nat fuel)
    by (cbn [fuel_needed]; lia).
  pose proof (Worker_loop_finishes P Q HP1 HQ1 Key fuel 0 sh l initial_inner
                (VBool false) Hst eq_refl eq_refl eq_refl Hfn) as H.
  unfold wp in H. destruct H as (Hr & m & Hm & H1000 & Hlt & Hsh).
  exists m.
  split; [lia|]. split; [done|].
  split; [rewrite Hsh; apply lookup_insert_eq|].
  split; [done|]. split; [done|].
  split; [by apply lucas_neg_index|]. split; [done|].
  split; [intros j Hj; apply Hlt; lia|].
  split; [intros j; by apply lucas_next|].
  split; [intros j Hj; by apply lucas_increasing|].
  intros bound. by apply lucas_unbounded.
Qed.

Lemma Worker_loop_terminates_witness :
  ∃ m : nat,
    (Worker_loop 1001 1 (-1) 1
       {| shared := <[1 := initial_inner]> ∅; calls := [] |}).1 = Ok tt
    ∧ 1000 <= lucas_last 1 (-1) m.
Proof.
  destruct (Worker_loop_terminates 1 1 (-1) 1001
              {| shared := <[1 := initial_inner]> ∅; calls := [] |})
    as (m & H); [lia | lia | lia | reflexivity | lia |].
  exists m. split; apply H.
Defined.

Example Worker_loop_fibonacci :
  (shared (Worker_loop 20 1 (-1) 1
             {| shared := <[1 := initial_inner]> ∅; calls := [] |}).2 !! 1)
    ≫= (λ d : inner, d !! "Sequence")
  = Some (VList [0; 1; 1; 2; 3; 5; 8; 13; 21; 34; 55; 89; 144; 233; 377; 610; 987; 1597]).
Proof. vm_compute. reflexivity. Qed.

End DictOfDicts.

(** *** Workers on shared queues: the steps *)

Section SharedQueueFacts.
Import SharedQueue.
Context {J G Arg Res E : Type}.
Variable body : J -> G -> Arg -> list E * option Res * G.

Local Abbreviation state := (SharedQueue.state J G Arg Res E).
Local Abbreviation worker := (SharedQueue.worker J G Arg).
Local Abbreviation event := (SharedQueue.event Arg Res E).
Local Abbreviation protocol_ok := (SharedQueue.protocol_ok body).
Local Abbreviation protocol_inv := (SharedQueue.protocol_inv body).

Lemma insert_middle {A} (l1 : list A) (w w' : A) (l2 : list A) :
  <[length l1 := w']> (l1 ++ w :: l2) = l1 ++ w' :: l2.
Proof.
  rewrite insert_app_r_alt by lia. by rewrite Nat.sub_diag.
Qed.

Lemma lookup_other_middle {A} (l1 : list A) (w w' : A) (l2 : list A) (k : nat) :
  k ≠ length l1 → (l1 ++ w' :: l2) !! k = (l1 ++ w :: l2) !! k.
Proof.
  intros Hk. destruct (decide (k < length l1)%nat).
  - by rewrite !lookup_app_l.
  - rewrite !lookup_app_r by lia.
    destruct (k - length l1)%nat eqn:E'; [lia | done].
Qed.

Lemma step_transition (a : actor) (s s' : state) :
  step body a s = Some s' → transition body a s s'.
Proof.
  destruct s as [iq oq ws n rs lg]. destruct a as [|i|i]; simpl.
  - unfold step_main; simpl. destruct n, oq; intros [= <-]. constructor.
  - unfold step_worker; simpl. destruct (ws !! i) as [[j g p]|] eqn:Hw; [|done].
    apply list_elem_of_split_length in Hw as (l1 & l2 & -> & ->).
    simpl. rewrite !insert_middle. destruct p as [|x| |]; [| |done|done].
    + destruct iq; intros [= <-]; rewrite ?insert_middle; constructor.
    + destruct (body j g x) as [[es [r|]] g'] eqn:Hb; intros [= <-];
        rewrite ?insert_middle; econstructor; eassumption.
  - unfold step_miss; simpl. destruct (ws !! i) as [[j g p]|] eqn:Hw; [|done].
    apply list_elem_of_split_length in Hw as (l1 & l2 & -> & ->).
    simpl. destruct p as [|x| |]; [|done|done|done].
    intros [= <-]. rewrite insert_middle. constructor.
Qed.

Lemma transition_step (a : actor) (s s' : state) :
  transition body a s s' → step body a s = Some s'.
Proof.
  destruct 1; simpl; unfold step_worker, step_miss; simpl;
    rewrite ?list_lookup_middle by done; simpl;
    rewrite ?insert_middle; try done.
  all: match goal with H : body _ _ _ = _ |- _ => rewrite H end.
  all: by rewrite insert_middle.
Qed.

(** Invariants are proved for one step and carried along a schedule. *)
Lemma run_invariant (I : state → Prop) :
  (∀ a s s', transition body a s s' → I s → I s') →
  ∀ sched s s', run body sched s = Some s' → I s → I s'.
Proof.
  intros Hstep. induction sched as [|a sched IH]; intros s s' Hrun Hs; simpl in Hrun.
  - by injection Hrun as <-.
  - destruct (step body a s) as [s1|] eqn:Hs1; [|done].
    eapply IH; [exact Hrun|]. eapply Hstep; [|exact Hs]. by apply step_transition.
Qed.

(** The same along the schedules in which [Empty] is raised on the empty
    queue only. *)
Lemma run_invariant_timely (I : state → Prop) :
  (∀ a s s', is_Miss a = false → transition body a s s' → I s → I s') →
  ∀ sched s s', timely sched → run body sched s = Some s' → I s → I s'.
Proof.
  intros Hstep. induction sched as [|a sched IH]; intros s s' Ht Hrun Hs;
    simpl in Hrun.
  - by injection Hrun as <-.
  - destruct (step body a s) as [s1|] eqn:Hs1; [|done].
    apply Forall_cons in Ht as [Ha Ht].
    eapply IH; [exact Ht | exact Hrun|].
    eapply Hstep; [exact Ha| |exact Hs]. by apply step_transition.
Qed.

Lemma run_app (sched1 sched2 : list actor) (s : state) :
  run body (sched1 ++ sched2) s = run body sched1 s ≫= run body sched2.
Proof.
  revert s. induction sched1 as [|a sched1 IH]; intros s; simpl; [done|].
  destruct (step body a s); simpl; [apply IH | done].
Qed.

(** *** Every step uses up one unit of the measure *)

Lemma transition_measure (a : actor) (s s' : state) :
  transition body a s s' → (measure s' < measure s)%nat.
Proof.
  destruct 1; unfold measure; simpl; rewrite ?sum_list_with_app; simpl; lia.
Qed.

Lemma run_measure (sched : list actor) (s s' : state) :
  run body sched s = Some s' → (length sched + measure s' <= measure s)%nat.
Proof.
  revert s. induction sched as [|a sched IH]; intros s Hrun; simpl in Hrun.
  - injection Hrun as <-. simpl. lia.
  - destruct (step body a s) as [s1|] eqn:Hs1; [|done].
    apply step_transition, transition_measure in Hs1.
    apply IH in Hrun. simpl. lia.
Qed.

(** *** Projections of the log *)

Lemma deposited_app (l1 l2 : list (nat * event)) :
  deposited (l1 ++ l2) = deposited l1 ++ deposited l2.
Proof. apply omap_app. Qed.

Lemma deposited_inner (i : nat) (es : list E) :
  deposited (map (λ e, (i, Inner e : event)) es) = [].
Proof. by induction es. Qed.

Lemma pops_app (l1 l2 : list (nat * event)) :
  pops (l1 ++ l2) = pops l1 ++ pops l2.
Proof. apply omap_app. Qed.

Lemma pops_inner (i : nat) (es : list E) :
  pops (map (λ e, (i, Inner e : event)) es) = [].
Proof. by induction es. Qed.

Lemma worker_log_app (k : nat) (l1 l2 : list (nat * event)) :
  worker_log k (l1 ++ l2) = worker_log k l1 ++ worker_log k l2.
Proof. apply omap_app. Qed.

Lemma worker_log_cons (k i : nat) (e : event) (l : list (nat * event)) :
  worker_log k ((i, e) :: l)
  = if decide (i = k) then e :: worker_log k l else worker_log k l.
Proof. unfold worker_log. simpl. by destruct (decide (i = k)). Qed.

Lemma worker_log_same (k : nat) (l : list event) :
  worker_log k (map (λ e, (k, e)) l) = l.
Proof.
  induction l as [|e l IH]; [done|]. cbn [map].
  by rewrite worker_log_cons, decide_True, IH.
Qed.

Lemma worker_log_other (k i : nat) (l : list event) :
  k ≠ i → worker_log k (map (λ e, (i, e)) l) = [].
Proof.
  intros Hk. induction l as [|e l IH]; [done|]. cbn [map].
  by rewrite worker_log_cons, decide_False.
Qed.

(** The events a step appends belong to the worker that moves. *)
Lemma transition_log (a : actor) (s s' : state) :
  transition body a s s' →
  ∃ new : list event,
    log s' = log s ++ map (λ e, (actor_index a, e)) new
    ∧ (a = Main → new = []).
Proof.
  destruct 1; simpl.
  - exists []. by rewrite app_nil_r.
  - by exists [TryPopItem x].
  - by exists [TryPopEmpty].
  - by exists [TryPopEmpty].
  - exists (map Inner es ++ [PutResult r]).
    by rewrite map_app, <- list_fmap_compose.
  - exists (map Inner es ++ [Uncaught]).
    by rewrite map_app, <- list_fmap_compose.
Qed.

(** *** The output queue and the caller's gets *)

Lemma sink_inv_step (expected : nat) (a : actor) (s s' : state) :
  transition body a s s' → sink_inv expected s → sink_inv expected s'.
Proof.
  unfold sink_inv. destruct 1; simpl; intros [Hd Hp];
    rewrite ?deposited_app, ?deposited_inner, ?length_app; simpl;
    rewrite ?app_nil_r, ?Hd, <- ?app_assoc; simpl; split; try done; lia.
Qed.

Lemma sink_inv_run tasks ws (expected : nat) sched (s : state) :
  run body sched (init tasks ws expected) = Some s → sink_inv expected s.
Proof.
  intros Hrun. eapply (run_invariant (sink_inv expected)); [|exact Hrun|].
  - intros a s1 s2. apply sink_inv_step.
  - split; simpl; [done | lia].
Qed.

(** *** The input queue *)

Lemma queue_inv_step tasks (a : actor) (s s' : state) :
  transition body a s s' → queue_inv tasks s → queue_inv tasks s'.
Proof.
  unfold queue_inv. destruct 1; simpl; intros ->;
    rewrite ?pops_app, ?pops_inner, ?map_app; simpl;
    rewrite ?app_nil_r, <- ?app_assoc; done.
Qed.

Lemma queue_inv_run tasks ws (expected : nat) sched (s : state) :
  run body sched (init tasks ws expected) = Some s → queue_inv tasks s.
Proof.
  intros Hrun. eapply (run_invariant (queue_inv tasks)); [|exact Hrun|done].
  intros a s1 s2. apply queue_inv_step.
Qed.

Lemma elem_of_middle_other {A} (l1 l2 : list A) (x w w' : A) :
  x ∈ l1 ++ w' :: l2 → x ≠ w' → x ∈ l1 ++ w :: l2.
Proof.
  rewrite !elem_of_app, !elem_of_cons. intros [?|[?|?]] ?; auto. done.
Qed.

Lemma exited_inv_step (a : actor) (s s' : state) :
  is_Miss a = false → transition body a s s' → exited_inv s → exited_inv s'.
Proof.
  unfold exited_inv. intros Ha.
  destruct 1; simpl; intros IH (w & Hw & He); try done.
  - apply IH. eauto.
  - exfalso. assert (x :: iq = []); [|done]. apply IH. exists w.
    split; [|done]. eapply elem_of_middle_other; [exact Hw | by intros ->].
  - apply IH. exists w. split; [|done].
    eapply elem_of_middle_other; [exact Hw | by intros ->].
  - apply IH. exists w. split; [|done].
    eapply elem_of_middle_other; [exact Hw | by intros ->].
Qed.

Lemma exited_inv_run tasks ws (expected : nat) sched (s : state) :
  timely sched →
  run body sched (init tasks ws expected) = Some s → exited_inv s.
Proof.
  intros Ht Hrun. eapply (run_invariant_timely exited_inv); [|exact Ht|exact Hrun|].
  - intros a s1 s2. apply exited_inv_step.
  - intros (w & Hw & He). simpl in Hw.
    apply list_elem_of_fmap in Hw as (jg & -> & _). done.
Qed.

(** *** The protocol of each worker *)

Lemma protocol_ok_move ws (l1 l2 : list worker) (w0 w' : worker)
    (lg : list (nat * event)) (new : list event) :
  protocol_ok ws (l1 ++ w0 :: l2) lg →
  job w' = job w0 →
  (∀ g0, protocol body (job w0) g0 (worker_log (length l1) lg) (at_ w0) (gen w0) →
         protocol body (job w0) g0 (worker_log (length l1) lg ++ new) (at_ w') (gen w')) →
  protocol_ok ws (l1 ++ w' :: l2) (lg ++ map (λ e, (length l1, e)) new).
Proof.
  intros Hinv Hjob Hnew k w Hk. rewrite worker_log_app.
  destruct (decide (k = length l1)) as [->|Hne].
  - rewrite list_lookup_middle in Hk by done. injection Hk as <-.
    destruct (Hinv (length l1) w0) as (g0 & Hg0 & Hp);
      [by rewrite list_lookup_middle|].
    exists g0. rewrite Hjob, worker_log_same. split; [done | by apply Hnew].
  - rewrite (lookup_other_middle l1 w0 w' l2 k Hne) in Hk.
    destruct (Hinv k w Hk) as (g0 & Hg0 & Hp).
    exists g0. by rewrite worker_log_other, app_nil_r.
Qed.

Lemma protocol_inv_step ws (a : actor) (s s' : state) :
  transition body a s s' → protocol_inv ws s → protocol_inv ws s'.
Proof.
  unfold protocol_inv. destruct 1; simpl; intros Hinv.
  - done.
  - apply (protocol_ok_move ws l1 l2 _ _ lg [TryPopItem x] Hinv); [done|].
    simpl. intros g0 Hp. by constructor.
  - apply (protocol_ok_move ws l1 l2 _ _ lg [TryPopEmpty] Hinv); [done|].
    simpl. intros g0 Hp. by constructor.
  - apply (protocol_ok_move ws l1 l2 _ _ lg [TryPopEmpty] Hinv); [done|].
    simpl. intros g0 Hp. by constructor.
  - pose proof (protocol_ok_move ws l1 l2 _
                  {| job := j; gen := g'; at_ := AtLoop |} lg
                  (map Inner es ++ [PutResult r]) Hinv eq_refl) as Hm.
    rewrite map_app, <- list_fmap_compose in Hm. apply Hm.
    simpl. intros g0 Hp. by econstructor.
  - pose proof (protocol_ok_move ws l1 l2 _
                  {| job := j; gen := g'; at_ := Raised |} lg
                  (map Inner es ++ [Uncaught]) Hinv eq_refl) as Hm.
    rewrite map_app, <- list_fmap_compose in Hm. apply Hm.
    simpl. intros g0 Hp. by econstructor.
Qed.

Lemma protocol_inv_run tasks ws (expected : nat) sched (s : state) :
  run body sched (init tasks ws expected) = Some s → protocol_inv ws s.
Proof.
  intros Hrun. eapply (run_invariant (protocol_inv ws)); [|exact Hrun|].
  - intros a s1 s2. apply protocol_inv_step.
  - intros i w Hw. simpl in Hw. rewrite list_lookup_fmap in Hw.
    destruct (ws !! i) as [[j g]|] eqn:Hi; [|done]. injection Hw as <-.
    exists g. split; [done | constructor].
Qed.

(** *** Accounting of identifiers when no call fails *)

Section Accounting.
Context {Id : Type} (aid : Arg → Id) (rid : Res → Id) (tasks : list Arg).
Hypothesis body_returns :
  ∀ j g x, x ∈ tasks → ∃ es r g', body j g x = (es, Some r, g') ∧ rid r = aid x.

Local Abbreviation accounting_inv := (SharedQueue.accounting_inv aid rid tasks).

Lemma held_middle (l1 l2 : list worker) (w : worker) :
  held (l1 ++ w :: l2)
  = held l1 ++ match at_ w with Popped x => [x] | _ => [] end ++ held l2.
Proof.
  unfold held. rewrite omap_app. simpl. by destruct (at_ w).
Qed.

Lemma accounting_inv_step (a : actor) (s s' : state) :
  transition body a s s' → accounting_inv s → accounting_inv s'.
Proof.
  unfold accounting_inv.
  destruct 1; simpl; rewrite ?held_middle; simpl; intros (Hperm & Hin & Hnr).
  - split; [|done]. rewrite Hperm, map_app. simpl. by rewrite <- app_assoc.
  - split; [|split].
    + rewrite Hperm, !map_app. simpl. solve_Permutation.
    + intros y Hy. apply Hin.
      rewrite !elem_of_app, !elem_of_cons in *. tauto.
    + apply Forall_app in Hnr as [H1 H2]. apply Forall_cons in H2 as [_ H2].
      apply Forall_app. split; [done|]. by constructor.
  - split; [done|]. split; [done|].
    apply Forall_app in Hnr as [H1 H2]. apply Forall_cons in H2 as [_ H2].
    apply Forall_app. split; [done|]. by constructor.
  - split; [done|]. split; [done|].
    apply Forall_app in Hnr as [H1 H2]. apply Forall_cons in H2 as [_ H2].
    apply Forall_app. split; [done|]. by constructor.
  - destruct (body_returns j g x) as (es' & r' & g'' & Hb & Hid);
      [apply Hin; rewrite !elem_of_app, !elem_of_cons; tauto|].
    rewrite Hb in H. injection H as <- <- <-.
    split; [|split].
    + rewrite Hperm, !map_app. simpl. rewrite Hid. solve_Permutation.
    + intros y Hy. apply Hin.
      rewrite !elem_of_app, !elem_of_cons in *. tauto.
    + apply Forall_app in Hnr as [H1 H2]. apply Forall_cons in H2 as [_ H2].
      apply Forall_app. split; [done|]. by constructor.
  - destruct (body_returns j g x) as (es' & r' & g'' & Hb & Hid);
      [apply Hin; rewrite !elem_of_app, !elem_of_cons; tauto|].
    rewrite Hb in H. done.
Qed.

Lemma held_init ws (expected : nat) :
  held (Workers (init tasks ws expected : state)) = [].
Proof. simpl. by induction ws. Qed.

Lemma accounting_inv_run ws (expected : nat) sched (s : state) :
  run body sched (init tasks ws expected) = Some s → accounting_inv s.
Proof.
  intros Hrun. eapply (run_invariant accounting_inv); [|exact Hrun|].
  - intros a s1 s2. apply accounting_inv_step.
  - unfold accounting_inv. rewrite held_init. simpl.
    split; [done|]. split; [done|].
    apply Forall_fmap, Forall_true. done.
Qed.

End Accounting.

Lemma workers_length_run tasks ws (expected : nat) sched (s : state) :
  run body sched (init tasks ws expected) = Some s →
  length (Workers s) = length ws.
Proof.
  intros Hrun.
  eapply (run_invariant (λ s, length (Workers s) = length ws)); [|exact Hrun|].
  - intros a s1 s2. destruct 1; simpl; rewrite ?length_app; simpl; done.
  - simpl. by rewrite length_map.
Qed.

(** A worker that cannot move has left its loop. *)
Lemma worker_cannot_move (s : state) (i : nat) (w : worker) :
  Workers s !! i = Some w → step body (W i) s = None → terminated w.
Proof.
  intros Hw. simpl. unfold step_worker, terminated. rewrite Hw.
  destruct (at_ w) as [|x| |]; auto.
  - by destruct (InputQueue s).
  - by destruct (body (job w) (gen w) x) as [[es [r|]] g'].
Qed.

Lemma stuck_terminated (s : state) : stuck body s → Forall terminated (Workers s).
Proof.
  intros Hs. apply Forall_lookup. intros i w Hw.
  eapply worker_cannot_move; [exact Hw | apply Hs].
Qed.

Lemma held_terminated (wl : list worker) : Forall terminated wl → held wl = [].
Proof.
  induction 1 as [|w wl [Hw|Hw] _ IH]; [done| |]; unfold held in *; simpl;
    by rewrite Hw.
Qed.

(** *** Completeness of a run in which no call fails *)

Section Complete.
Context {Id : Type} (aid : Arg → Id) (rid : Res → Id) (tasks : list Arg).
Hypothesis body_returns :
  ∀ j g x, x ∈ tasks → ∃ es r g', body j g x = (es, Some r, g') ∧ rid r = aid x.
Variable ws : list (J * G).
Variables (sched : list actor) (s : state).
Hypothesis Hrun : run body sched (init tasks ws (length tasks)) = Some s.

Lemma complete_when_returned :
  returned s →
  length (Results s) = length tasks ∧ map rid (Results s) ≡ₚ map aid tasks.
Proof.
  unfold returned. intros Hret.
  destruct (sink_inv_run _ _ _ _ _ Hrun) as [_ Hp].
  destruct (accounting_inv_run aid rid tasks body_returns _ _ _ _ Hrun)
    as (Hperm & _ & _).
  assert (Hlen : length (Results s) = length tasks) by lia.
  split; [done|].
  pose proof (Permutation_length Hperm) as HL.
  rewrite !length_app, !length_map in HL.
  destruct (OutputQueue s); [|simpl in HL; lia].
  destruct (held (Workers s)); [|simpl in HL; lia].
  destruct (InputQueue s); [|simpl in HL; lia].
  simpl in Hperm. by rewrite !app_nil_r in Hperm.
Qed.

(** In a run in which [Empty] is raised on the empty queue only. *)
Lemma all_popped_when_terminated :
  timely sched → ws ≠ [] → Forall terminated (Workers s) →
  InputQueue s = [] ∧ map snd (pops (log s)) = tasks
  ∧ Forall (λ w, at_ w = Exited) (Workers s).
Proof.
  intros Htimely Hws Hterm.
  destruct (accounting_inv_run aid rid tasks body_returns _ _ _ _ Hrun)
    as (_ & _ & Hnr).
  assert (Hex : Forall (λ w : worker, at_ w = Exited) (Workers s)).
  { apply Forall_lookup. intros i w Hw.
    pose proof (proj1 (Forall_lookup _ _) Hterm i w Hw) as [?|Hr]; [done|].
    by pose proof (proj1 (Forall_lookup _ _) Hnr i w Hw). }
  assert (Hiq : InputQueue s = []).
  { apply (exited_inv_run _ _ _ _ _ Htimely Hrun).
    pose proof (workers_length_run _ _ _ _ _ Hrun) as HL.
    destruct (Workers s) as [|w wl] eqn:Ew; [by destruct ws|].
    exists w. split; [by left|]. by apply Forall_cons in Hex as [? _]. }
  pose proof (queue_inv_run _ _ _ _ _ Hrun) as Hq. unfold queue_inv in Hq.
  rewrite Hiq, app_nil_r in Hq. done.
Qed.

Lemma returns_when_stuck : timely sched → ws ≠ [] → stuck body s → returned s.
Proof.
  intros Htimely Hws Hstuck. pose proof (stuck_terminated _ Hstuck) as Hterm.
  destruct (all_popped_when_terminated Htimely Hws Hterm) as (Hiq & _ & _).
  destruct (sink_inv_run _ _ _ _ _ Hrun) as [_ Hp].
  destruct (accounting_inv_run aid rid tasks body_returns _ _ _ _ Hrun)
    as (Hperm & _ & _).
  apply Permutation_length in Hperm.
  rewrite Hiq, (held_terminated _ Hterm), !length_app, !length_map in Hperm.
  simpl in Hperm. unfold returned.
  pose proof (Hstuck Main) as Hm. simpl in Hm. unfold step_main in Hm.
  destruct (pending s) as [|n]; [done|].
  destruct (OutputQueue s); [simpl in Hperm; lia | done].
Qed.

Lemma bounded_schedule : (length sched <= 3 * length tasks + length ws)%nat.
Proof.
  pose proof (run_measure _ _ _ Hrun) as Hm.
  unfold measure at 2 in Hm. simpl in Hm.
  assert (Hw : ∀ l : list (J * G),
    sum_list_with (λ w : worker, pc_weight (at_ w))
      (map (λ jg, {| job := jg.1; gen := jg.2; at_ := AtLoop |}) l) = length l).
  { intros l. induction l as [|x l IH]; simpl; [done|]. by rewrite IH. }
  rewrite Hw in Hm. lia.
Qed.

End Complete.

(** *** The caller's gets go through when enough was deposited *)



End SharedQueueFacts.


Section BenchmarkingFacts.
Import SharedQueue Benchmarking.


(** A run in which the only worker dies on [ZeroDivisionError]: nobody can
    move any more and the caller's get has not returned. *)
Example UseProcess_deadlock :
  ∃ s, run (UsingQueues CPUHeavyFunction) [W 0; W 0]
         (UseProcess (λ _, zero_gen) 1 1 0) = Some s
       ∧ deposited (log s) = [] ∧ ¬ returned s
       ∧ step (UsingQueues CPUHeavyFunction) Main s = None
       ∧ step (UsingQueues CPUHeavyFunction) (W 0) s = None.
Proof.
  eexists. split; [vm_compute; reflexivity|].
  repeat split; try (vm_compute; reflexivity). vm_compute. discriminate.
Qed.

Lemma CPUHeavyFunction_returns (g : Rng) (NumbersToDraw ID : Z) :
  NumbersToDraw ≠ 0 →
  ∃ Pi g', CPUHeavyFunction g NumbersToDraw ID = (Some (ID, Pi), g').
Proof.
  intros HN. unfold CPUHeavyFunction.
  destruct (draw (Z.to_nat NumbersToDraw) g 0) as [n g'].
  apply Z.eqb_neq in HN. rewrite HN. eauto.
Qed.

Lemma length_range (a b : Z) : length (range a b) = Z.to_nat (b - a).
Proof. unfold range. by rewrite length_map, length_seq. Qed.

(** C1: [UseProcess(2, 3, 1)], no call fails.  The first worker takes the
    first task and puts its result; then the non-blocking get of each worker
    raises [Empty] although two tasks are queued, and both workers leave
    their loops.  The caller collects the one result; nobody can move any
    more, two tasks stay in the input queue for ever, and the three gets
    have not returned. *)
Theorem UseProcess_early_Empty :
  ∃ s, run (UsingQueues CPUHeavyFunction) [W 0; W 0; Miss 0; Miss 1; Main]
         (UseProcess (λ _, zero_gen) 2 3 1) = Some s
       ∧ stuck (UsingQueues CPUHeavyFunction) s
       ∧ ¬ returned s
       ∧ map fst (Results s) = [0]
       ∧ InputQueue s = [(1, 1); (1, 2)]
       ∧ Forall (λ w, at_ w = Exited) (Workers s)
       ∧ count is_Uncaught (map snd (log s)) = 0%nat.
Proof.
  eexists. split; [vm_compute; reflexivity|].
  split; [|split; [|split; [|split; [|split]]]].
  - intros [|[|[|i]]|[|[|i]]]; reflexivity.
  - vm_compute. discriminate.
  - reflexivity.
  - reflexivity.
  - repeat constructor.
  - reflexivity.
Qed.

(** X19: in [UseProcess] with a weight for which no call fails, whenever the
    caller's [NumberOfTasks] gets have returned they have collected exactly
    [NumberOfTasks] results whose identifiers are, as a multiset, those of
    the submitted tasks; in a run in which [Empty] is raised on the empty
    queue only, with at least one worker, nobody stops before the gets have
    returned; every run ends after a bounded number of steps. *)
Theorem UseProcess_complete_when_timely (gens : nat → Rng)
    (NumberOfWorkers NumberOfTasks WeightOfComputation : Z)
    (sched : list actor) (s : state unit Rng (Z * Z) (Z * Q) (call Z Z)) :
  WeightOfComputation ≠ 0 →
  run (UsingQueues CPUHeavyFunction) sched
    (UseProcess gens NumberOfWorkers NumberOfTasks WeightOfComputation) = Some s →
  (returned s →
     length (Results s) = Z.to_nat NumberOfTasks
     ∧ map fst (Results s) ≡ₚ range 0 NumberOfTasks)
  ∧ (timely sched → 1 <= NumberOfWorkers →
     stuck (UsingQueues CPUHeavyFunction) s → returned s)
  ∧ (length sched <= 3 * Z.to_nat NumberOfTasks + Z.to_nat NumberOfWorkers)%nat.
Proof.
  intros HW Hrun. unfold UseProcess in Hrun.
  set (tasks := map (λ i, (WeightOfComputation, i)) (range 0 NumberOfTasks)) in *.
  set (ws := map (λ i, ((), gens (Z.to_nat i))) (range 0 NumberOfWorkers)) in *.
  assert (Hlen : length tasks = length (range 0 NumberOfTasks))
    by (unfold tasks; by rewrite length_map).
  rewrite <- Hlen in Hrun.
  assert (Hids : map snd tasks = range 0 NumberOfTasks).
  { unfold tasks. rewrite map_map. simpl. apply map_id. }
  assert (Hbody : ∀ (j : unit) g x, x ∈ tasks →
    ∃ es r g', UsingQueues CPUHeavyFunction j g x = (es, Some r, g') ∧ fst r = snd x).
  { intros j g x Hx. unfold tasks in Hx.
    apply list_elem_of_fmap in Hx as (i & -> & _). unfold UsingQueues. simpl.
    destruct (CPUHeavyFunction_returns g WeightOfComputation i HW) as (Pi & g' & ->).
    eauto. }
  rewrite length_range, Z.sub_0_r in Hlen.
  split; [|split].
  - intros Hret.
    destruct (complete_when_returned _ snd fst tasks Hbody ws sched s Hrun Hret)
      as [H1 H2].
    by rewrite H1, H2, Hlen, Hids.
  - intros Htimely HNW.
    apply (returns_when_stuck _ snd fst tasks Hbody ws sched s Hrun Htimely).
    unfold ws. intros Hnil. apply (f_equal length) in Hnil.
    rewrite length_map, length_range in Hnil. simpl in Hnil. lia.
  - pose proof (bounded_schedule _ tasks ws sched s Hrun) as Hb.
    unfold ws in Hb. rewrite length_map, length_range, Z.sub_0_r, Hlen in Hb.
    exact Hb.
Qed.

Lemma UseProcess_complete_when_timely_witness :
  ∃ s, run (UsingQueues CPUHeavyFunction) [W 0; W 1; W 1; W 0; W 0; W 1; Main; Main]
         (UseProcess (λ _, zero_gen) 2 2 1) = Some s
       ∧ (returned s → length (Results s) = Z.to_nat 2
                        ∧ map fst (Results s) ≡ₚ range 0 2).
Proof.
  eexists. split; [vm_compute; reflexivity|].
  eapply (UseProcess_complete_when_timely (λ _, zero_gen) 2 2 1
            [W 0; W 1; W 1; W 0; W 0; W 1; Main; Main]).
  - lia.
  - vm_compute. reflexivity.
Defined.

Example UseProcess_arrival_order :
  (λ s, (map fst (Results s), returned_dec s)) <$>
    run (UsingQueues CPUHeavyFunction) [W 0; W 1; W 1; W 0; W 0; W 1; Main; Main]
      (UseProcess (λ _, zero_gen) 2 2 1)
  = Some ([1; 0], true).
Proof. vm_compute. reflexivity. Qed.

End BenchmarkingFacts.

Section ProtocolCounts.
Import SharedQueue.
Context {Arg Res E : Type}.

Local Abbreviation event := (SharedQueue.event Arg Res E).

Lemma count_app (f : event → bool) (l1 l2 : list event) :
  count f (l1 ++ l2) = (count f l1 + count f l2)%nat.
Proof. unfold count. by rewrite List.filter_app, length_app. Qed.

End ProtocolCounts.

Section UsingQueuesFacts.
Import SharedQueue Benchmarking.
Context {A B R : Type}.
Variable FunctionToEvaluate : Rng → A → B → option R * Rng.

Local Abbreviation body := (UsingQueues FunctionToEvaluate).

Lemma UsingQueues_events (j : unit) g x es r g' :
  body j g x = (es, r, g') → es = [Evaluate x.1 x.2].
Proof.
  unfold UsingQueues. destruct (FunctionToEvaluate g x.1 x.2). by intros [= <- _ _].
Qed.

Lemma UsingQueues_protocol_counts (j : unit) g0 l p g :
  protocol body j g0 l p g →
  count is_TryPopEmpty l = (if p is Exited then 1 else 0)%nat
  ∧ count is_Uncaught l = (if p is Raised then 1 else 0)%nat
  ∧ count is_TryPopItem l = (count is_Inner l + if p is Popped _ then 1 else 0)%nat
  ∧ count is_Inner l = (count is_PutResult l + count is_Uncaught l)%nat.
Proof.
  induction 1 as [|l g x _ IH|l g _ IH|l g x es r g' _ IH Hb|l g x es g' _ IH Hb];
    try (apply UsingQueues_events in Hb as ->);
    try destruct IH as (IH1 & IH2 & IH3 & IH4);
    rewrite ?count_app; unfold count in *; simpl in *; repeat split; lia.
Qed.

(** C3, as the code has it: the non-blocking get never blocks, an empty
    queue makes the worker leave its loop normally; a worker has left its
    loop through [Empty] exactly when it has received [Empty], and ends
    otherwise only when the evaluated function raises; every popped item
    leads to exactly one evaluation, and to exactly one put when that
    evaluation returns (none when it raises). *)
Theorem UsingQueues_protocol (tasks : list (A * B)) (ws : list (unit * Rng))
    (expected : nat) (sched : list actor)
    (s : state unit Rng (A * B) R (call A B)) (i : nat)
    (w : worker unit Rng (A * B)) :
  run body sched (init tasks ws expected) = Some s →
  Workers s !! i = Some w →
  let L := worker_log i (log s) in
  (at_ w = AtLoop →
     ∃ s', step body (W i) s = Some s'
           ∧ match InputQueue s with
             | [] => log s' = log s ++ [(i, TryPopEmpty)]
                     ∧ at_ <$> Workers s' !! i = Some Exited
             | x :: q => log s' = log s ++ [(i, TryPopItem x)]
                         ∧ at_ <$> Workers s' !! i = Some (Popped x)
                         ∧ InputQueue s' = q
             end)
  ∧ count is_TryPopEmpty L = (if at_ w is Exited then 1 else 0)%nat
  ∧ count is_Uncaught L = (if at_ w is Raised then 1 else 0)%nat
  ∧ (terminated w ↔ step body (W i) s = None)
  ∧ count is_TryPopItem L = (count is_Inner L + if at_ w is Popped _ then 1 else 0)%nat
  ∧ count is_Inner L = (count is_PutResult L + count is_Uncaught L)%nat
  ∧ ((∀ g a b, is_Some (FunctionToEvaluate g a b).1) →
     at_ w ≠ Raised
     ∧ count is_TryPopItem L
       = (count is_PutResult L + if at_ w is Popped _ then 1 else 0)%nat).
Proof.
  intros Hrun Hw L.
  destruct (protocol_inv_run body _ _ _ _ _ Hrun i w Hw) as (g0 & _ & Hp).
  destruct (UsingQueues_protocol_counts _ _ _ _ _ Hp) as (H1 & H2 & H3 & H4).
  fold L in H1, H2, H3, H4.
  assert (Hlen : (i < length (Workers s))%nat) by (by eapply lookup_lt_Some).
  split; [|split; [done|split; [done|split; [|split; [done|split; [done|]]]]]].
  - intros Hat. simpl. unfold step_worker. rewrite Hw, Hat.
    destruct (InputQueue s) as [|x q]; eexists; (split; [reflexivity|]); simpl;
      rewrite list_lookup_insert_eq by done; done.
  - split.
    + intros [Ht|Ht]; simpl; unfold step_worker; by rewrite Hw, Ht.
    + by apply worker_cannot_move.
  - intros Hsome.
    assert (Hnr : at_ w ≠ Raised).
    { clear H1 H2 H3 H4. remember (at_ w) as p eqn:Ep. clear Ep.
      induction Hp as [| | | |l g x es g' _ _ Hb]; try done.
      unfold UsingQueues in Hb. specialize (Hsome g x.1 x.2).
      destruct (FunctionToEvaluate g x.1 x.2) as [[r|] g1]; [done|].
      by destruct Hsome. }
    split; [done|]. destruct (at_ w); try done; lia.
Qed.

End UsingQueuesFacts.

Section UsingQueuesExamples.
Import SharedQueue Benchmarking.

Lemma UsingQueues_protocol_witness :
  ∃ s w, run (UsingQueues CPUHeavyFunction) [W 0; W 0; Main; W 0]
           (UseProcess (λ _, zero_gen) 1 1 1) = Some s
         ∧ Workers s !! 0%nat = Some w
         ∧ count is_TryPopEmpty (worker_log 0 (log s))
           = (if at_ w is Exited then 1 else 0)%nat
         ∧ count is_Inner (worker_log 0 (log s))
           = (count is_PutResult (worker_log 0 (log s))
              + count is_Uncaught (worker_log 0 (log s)))%nat.
Proof.
  eexists. eexists. split; [vm_compute; reflexivity|].
  split; [vm_compute; reflexivity|].
  edestruct (UsingQueues_protocol CPUHeavyFunction)
    with (tasks := [(1, 0)]) (ws := [(tt, zero_gen)]) (expected := 1%nat)
         (sched := [W 0; W 0; Main; W 0]) (i := 0%nat)
    as (_ & H1 & _ & _ & _ & H2 & _);
    [vm_compute; reflexivity | vm_compute; reflexivity |].
  split; [exact H1 | exact H2].
Defined.

(** C3 as stated fails when the evaluated function raises:
    [UseProcess] with one worker, one task and weight 0.  The worker pops
    the task, [CPUHeavyFunction] raises [ZeroDivisionError], and the worker
    has ended without ever receiving [Empty] and without a put. *)
Lemma UsingQueues_raise_counterexample :
  ∃ s w, run (UsingQueues CPUHeavyFunction) [W 0; W 0]
           (UseProcess (λ _, zero_gen) 1 1 0) = Some s
         ∧ Workers s !! 0%nat = Some w
         ∧ terminated w
         ∧ count is_TryPopEmpty (worker_log 0 (log s)) = 0%nat
         ∧ count is_TryPopItem (worker_log 0 (log s)) = 1%nat
         ∧ count is_Inner (worker_log 0 (log s)) = 1%nat
         ∧ count is_PutResult (worker_log 0 (log s)) = 0%nat
         ∧ OutputQueue s = [] ∧ Results s = []
         ∧ stuck (UsingQueues CPUHeavyFunction) s.
Proof.
  eexists. eexists. split; [vm_compute; reflexivity|].
  split; [vm_compute; reflexivity|].
  split; [right; reflexivity|].
  repeat (split; [vm_compute; reflexivity|]).
  intros [|[|i]|[|i]]; vm_compute; reflexivity.
Qed.

End UsingQueuesExamples.

Section LogIndex.
Import SharedQueue.
Context {J G Arg Res E : Type}.
Variable body : J -> G -> Arg -> list E * option Res * G.

Local Abbreviation state := (SharedQueue.state J G Arg Res E).

Lemma log_index_inv_step (a : actor) (s s' : state) :
  transition body a s s' → log_index_inv s → log_index_inv s'.
Proof.
  unfold log_index_inv.
  destruct 1; simpl; rewrite ?length_app; simpl; intros Hl;
    rewrite ?length_app in Hl; simpl in Hl; try done;
    repeat (apply Forall_app; split); try done;
    try (apply Forall_fmap, Forall_true; simpl; intros; lia);
    repeat constructor; simpl; lia.
Qed.

Lemma log_index_inv_run tasks ws (expected : nat) sched (s : state) :
  run body sched (init tasks ws expected) = Some s → log_index_inv s.
Proof.
  intros Hrun. eapply (run_invariant body log_index_inv); [|exact Hrun|].
  - intros a s1 s2. apply log_index_inv_step.
  - constructor.
Qed.

Lemma pops_index (lg : list (nat * SharedQueue.event Arg Res E)) (n : nat) :
  Forall (λ p, (p.1 < n)%nat) lg → Forall (λ p, (p.1 < n)%nat) (pops lg).
Proof.
  induction 1 as [|[i e] lg Hi _ IH]; [constructor|].
  unfold pops in *. simpl. destruct e; simpl; try done. by constructor.
Qed.

Lemma popped_by_one_worker (l : list (nat * Arg)) (x : Arg) (i i' : nat) :
  NoDup (map snd l) → (i, x) ∈ l → (i', x) ∈ l → i = i'.
Proof.
  induction l as [|[k y] l IH]; intros Hnd H1 H2; [by apply elem_of_nil in H1|].
  simpl in Hnd. apply NoDup_cons in Hnd as [Hy Hnd].
  apply elem_of_cons in H1 as [H1|H1]; apply elem_of_cons in H2 as [H2|H2];
    simplify_eq; try done.
  - exfalso. apply Hy. apply list_elem_of_fmap. by exists (i', y).
  - exfalso. apply Hy. apply list_elem_of_fmap. by exists (i, y).
  - by apply IH.
Qed.

End LogIndex.

Section ProcessFacts.
Import SharedQueue Benchmarking Process.

Lemma JobToSumRandomNumbersRepeatedly_returns (N JobID : Z) (g : Rng) (x : Q) :
  ∃ es r g', JobToSumRandomNumbersRepeatedly N JobID g x = (es, Some r, g')
             ∧ r.1.2 = int_of x.
Proof.
  unfold JobToSumRandomNumbersRepeatedly, SumRandomNumbers.
  destruct (add_random _ g 0%Q) as [Sum g']. by eexists _, _, _.
Qed.

(** Case 4 of the demonstration of [Process]: the results carry
    the job that computed them and the integer part of the input value; the
    second components are, as a multiset, those of the submitted items. *)
Lemma Case4_complete (N : Z) (gens : Z → Rng) (items : list Q)
    (NumberOfProcesses : Z) (sched : list actor)
    (s : state Z Rng Q ((Z * Z) * Q) (call Q (Z * Z))) :
  run (JobToSumRandomNumbersRepeatedly N) sched (Case4 gens items NumberOfProcesses)
    = Some s →
  (returned s →
     length (Results s) = length items
     ∧ map (λ r, r.1.2) (Results s) ≡ₚ map int_of items)
  ∧ (timely sched → 1 <= NumberOfProcesses →
     stuck (JobToSumRandomNumbersRepeatedly N) s → returned s).
Proof.
  intros Hrun. unfold Case4 in Hrun.
  assert (Hbody : ∀ j g x, x ∈ items →
    ∃ es r g', JobToSumRandomNumbersRepeatedly N j g x = (es, Some r, g')
               ∧ r.1.2 = int_of x)
    by (intros; apply JobToSumRandomNumbersRepeatedly_returns).
  split.
  - by apply (complete_when_returned _ int_of (λ r, r.1.2) items Hbody _ sched s Hrun).
  - intros Htimely HNP.
    apply (returns_when_stuck _ int_of (λ r, r.1.2) items Hbody _ sched s Hrun Htimely).
    intros Hnil. apply (f_equal length) in Hnil.
    rewrite length_map, length_range in Hnil. simpl in Hnil. lia.
Qed.

Opaque JobToSumRandomNumbersRepeatedly.

(** Two jobs on the items 1, 2, 3: each job takes one item and puts its
    result, then the non-blocking get of each raises [Empty] although the
    item 3 is queued; the caller collects the two results. *)
Lemma Case4_early_Empty (N : Z) (gens : Z → Rng) :
  ∃ s, run (JobToSumRandomNumbersRepeatedly N) [W 0; W 0; W 1; W 1; Miss 0; Miss 1; Main; Main]
         (Case4 gens [1; 2; 3]%Q 2) = Some s
       ∧ stuck (JobToSumRandomNumbersRepeatedly N) s
       ∧ Forall (λ w, at_ w = Exited) (Workers s)
       ∧ pops (log s) = [(0%nat, 1%Q); (1%nat, 2%Q)]
       ∧ InputQueue s = [3%Q]
       ∧ ¬ returned s.
Proof.
  unfold Case4.
  change (range 1 (2 + 1)) with [1; 2].
  destruct (JobToSumRandomNumbersRepeatedly_returns N 1 (gens 1) 1%Q)
    as (es1 & r1 & g1 & Hb1 & _).
  destruct (JobToSumRandomNumbersRepeatedly_returns N 2 (gens 2) 2%Q)
    as (es2 & r2 & g2 & Hb2 & _).
  eexists. split.
  - simpl. unfold step_worker. simpl. rewrite Hb1. simpl. rewrite Hb2. simpl.
    unfold step_main. simpl.
    reflexivity.
  - cbn [Workers InputQueue log pending]. split; [|split; [|split; [|split]]].
    + intros [|[|[|i]]|[|[|i]]]; reflexivity.
    + repeat constructor.
    + match goal with |- pops (?a :: ?l) = ?r => change (pops ([a] ++ l) = r) end.
      rewrite !pops_app, !pops_inner. reflexivity.
    + reflexivity.
    + unfold returned. simpl. discriminate.
Qed.

Transparent JobToSumRandomNumbersRepeatedly.

(** C5: the scenario at the source's [N]: the items 1, 2, 3 and two jobs
    that pop until [Empty].  Both jobs have left their loops after exactly
    2 successful pops in all, the item 3 stays in the input queue and the
    caller's gets do not return; when both gets raise [Empty] at once there
    is no pop at all. *)
Theorem two_jobs_early_Empty :
  (∃ s, run (JobToSumRandomNumbersRepeatedly N) [W 0; W 0; W 1; W 1; Miss 0; Miss 1; Main; Main]
          (Case4 (λ _, zero_gen) [1; 2; 3]%Q 2) = Some s
        ∧ stuck (JobToSumRandomNumbersRepeatedly N) s
        ∧ Forall (λ w, at_ w = Exited) (Workers s)
        ∧ pops (log s) = [(0%nat, 1%Q); (1%nat, 2%Q)]
        ∧ InputQueue s = [3%Q]
        ∧ ¬ returned s)
  ∧ (∃ s, run (JobToSumRandomNumbersRepeatedly N) [Miss 0; Miss 1]
            (Case4 (λ _, zero_gen) [1; 2; 3]%Q 2) = Some s
          ∧ stuck (JobToSumRandomNumbersRepeatedly N) s
          ∧ Forall (λ w, at_ w = Exited) (Workers s)
          ∧ pops (log s) = []
          ∧ InputQueue s = [1; 2; 3]%Q).
Proof.
  split; [apply Case4_early_Empty|].
  eexists. split; [reflexivity|]. split; [|split; [|split]].
  - intros [|[|[|i]]|[|[|i]]]; reflexivity.
  - repeat constructor.
  - reflexivity.
  - reflexivity.
Qed.

(** X20: with the items 1, 2, 3 in the input queue and two jobs popping
    until [Empty], the successful pops are at any time an initial part of
    1, 2, 3 (nothing is popped twice, nothing else is popped, there are
    never 4 pops), made by the two jobs; in a run in which [Empty] is raised
    on the empty queue only, once both jobs have ended there have been
    exactly 3 pops, every item was popped by exactly one job, and nobody
    stops before the gets have returned. *)
Theorem pops_initial_part (N : Z) (gens : Z → Rng) (sched : list actor)
    (s : state Z Rng Q ((Z * Z) * Q) (call Q (Z * Z))) :
  run (JobToSumRandomNumbersRepeatedly N) sched (Case4 gens [1; 2; 3]%Q 2) = Some s →
  (∃ rest, [1; 2; 3]%Q = map snd (pops (log s)) ++ rest)
  ∧ (length (pops (log s)) <= 3)%nat
  ∧ NoDup (map snd (pops (log s)))
  ∧ Forall (λ p, (p.1 < 2)%nat) (pops (log s))
  ∧ (timely sched → Forall terminated (Workers s) →
       length (pops (log s)) = 3%nat
       ∧ map snd (pops (log s)) = [1; 2; 3]%Q
       ∧ ∀ x, x ∈ [1; 2; 3]%Q →
           ∃ i, (i, x) ∈ pops (log s) ∧ ∀ i', (i', x) ∈ pops (log s) → i' = i)
  ∧ (timely sched → stuck (JobToSumRandomNumbersRepeatedly N) s →
       Forall terminated (Workers s) ∧ returned s)
  ∧ (length sched <= 11)%nat.
Proof.
  intros Hrun. unfold Case4 in Hrun.
  set (ws := map (λ i, (i, gens i)) (range 1 (2 + 1))) in *.
  set (body := JobToSumRandomNumbersRepeatedly N) in *.
  assert (Hbody : ∀ j g x, x ∈ [1; 2; 3]%Q →
    ∃ es r g', body j g x = (es, Some r, g') ∧ r.1.2 = int_of x)
    by (intros; apply JobToSumRandomNumbersRepeatedly_returns).
  assert (Hws : ws ≠ []) by done.
  pose proof (queue_inv_run body _ _ _ _ _ Hrun) as Hq. unfold queue_inv in Hq.
  assert (Hnd : NoDup [1; 2; 3]%Q).
  { apply NoDup_ListNoDup.
    repeat (constructor; [simpl; intros Hd; intuition discriminate|]).
    constructor. }
  split; [by eexists|]. split; [|split; [|split; [|split; [|split]]]].
  - apply (f_equal length) in Hq. rewrite length_app, length_map in Hq.
    simpl in Hq. lia.
  - rewrite Hq in Hnd. by apply NoDup_app in Hnd as [? _].
  - pose proof (log_index_inv_run body _ _ _ _ _ Hrun) as Hi.
    unfold log_index_inv in Hi.
    rewrite (workers_length_run body _ _ _ _ _ Hrun) in Hi.
    by apply pops_index.
  - intros Htimely Hterm.
    destruct (all_popped_when_terminated body int_of (λ r, r.1.2) _ Hbody
                ws sched s Hrun Htimely Hws Hterm) as (_ & Hp & _).
    split; [by rewrite <- (length_map snd), Hp|]. split; [done|].
    intros x Hx. rewrite <- Hp in Hx.
    apply list_elem_of_fmap in Hx as ([i y] & -> & Hi). exists i. split; [done|].
    intros i' Hi'. simpl in Hi'.
    eapply popped_by_one_worker; [|exact Hi'|exact Hi].
    by rewrite Hp.
  - intros Htimely Hstuck. split; [by apply (stuck_terminated body)|].
    by apply (returns_when_stuck body int_of (λ r, r.1.2) _ Hbody ws sched s Hrun).
  - apply (bounded_schedule body _ ws sched s Hrun).
Qed.

Lemma pops_initial_part_witness :
  ∃ s, run (JobToSumRandomNumbersRepeatedly 25)
         [W 0; W 1; W 1; W 1; W 0; W 1; W 0; W 1]
         (Case4 (λ _, zero_gen) [1; 2; 3]%Q 2) = Some s
       ∧ Forall (λ p, (p.1 < 2)%nat) (pops (log s)).
Proof.
  eexists. split; [vm_compute; reflexivity|].
  eapply (pops_initial_part 25 (λ _, zero_gen)
            [W 0; W 1; W 1; W 1; W 0; W 1; W 0; W 1]).
  vm_compute. reflexivity.
Defined.

Example Case4_pops :
  (λ s, pops (log s)) <$>
    run (JobToSumRandomNumbersRepeatedly 25)
      [W 0; W 1; W 1; W 1; W 0; W 1; W 0; W 1]
      (Case4 (λ _, zero_gen) [1; 2; 3]%Q 2)
  = Some [(0%nat, 1%Q); (1%nat, 2%Q); (1%nat, 3%Q)].
Proof. vm_compute. reflexivity. Qed.

End ProcessFacts.

Section NestingFacts.
Import SharedQueue Nesting.

Local Abbreviation nevent := (SharedQueue.event Q (Q * Z) pool_event).

Lemma random_randint_range (a b : Z) (g : Rng) :
  a <= b → ∃ z g', random_randint a b g = (Some z, g') ∧ a <= z <= b.
Proof.
  intros Hab. unfold random_randint.
  destruct (b <? a) eqn:Hlt; [apply Z.ltb_lt in Hlt; lia|].
  destruct (next_raw g) as [z g']. eexists _, _. split; [done|].
  pose proof (Z.mod_pos_bound z (b - a + 1) ltac:(lia)). lia.
Qed.

Lemma reduce_defined (ListOfSums : list Q) (K RandomWeight : Z) :
  1 <= K → 1 <= RandomWeight → is_Some (reduce ListOfSums K RandomWeight).
Proof.
  intros HK HR. unfold reduce.
  destruct (Qeq_bool _ 0) eqn:Hd; [|by eexists].
  apply Qeq_bool_eq in Hd. exfalso.
  assert (H : (0 < 0.5 * inject_Z K * inject_Z RandomWeight)%Q).
  { apply Qmult_lt_0_compat; [apply Qmult_lt_0_compat; [done|]|];
      rewrite <- (Zlt_Qlt 0); lia. }
  rewrite Hd in H. by apply Qlt_irrefl in H.
Qed.

Lemma JobToPerformTasks_returns (K PW : Z) (ProcessID : string) (g : gens) (x : Q) :
  1 <= K → 1 <= PW →
  ∃ RandomWeight ListOfSums Sum g',
    task_ok K (x, RandomWeight, ListOfSums, Sum)
    ∧ JobToPerformTasks K PW ProcessID g x
      = (task_events K PW ProcessID x RandomWeight ListOfSums, Some (x, Sum), g').
Proof.
  intros HK HPW. unfold JobToPerformTasks.
  destruct (random_randint_range 1 3 (own g) ltac:(lia)) as (RW & own' & -> & HRW).
  destruct (PW <? 1) eqn:Hlt; [apply Z.ltb_lt in Hlt; lia|].
  set (sums := imap _ (range 0 K)).
  destruct (reduce_defined sums K RW HK ltac:(lia)) as [Sum HSum].
  rewrite HSum. exists RW, sums, Sum. eexists. split.
  - split; [done|]. split; [|done].
    unfold sums. by rewrite length_imap, length_range, Z.sub_0_r.
  - unfold task_events, sub_task_numbers.
    rewrite map_map, zip_with_fmap_l. done.
Qed.

Lemma sub_task_numbers_distinct (K : Z) :
  length (sub_task_numbers K) = Z.to_nat K ∧ NoDup (sub_task_numbers K).
Proof.
  unfold sub_task_numbers, range. rewrite !length_map, length_seq, Z.sub_0_r.
  split; [done|]. rewrite map_map.
  apply NoDup_fmap_2; [intros a b; lia | apply NoDup_seq].
Qed.

Lemma sub_tasks_of_task (K PW : Z) (ProcessID : string) (x : Q) (RW : Z)
    (sums : list Q) :
  sub_tasks (task_events K PW ProcessID x RW sums)
  = map (λ k, (RW * int_of x, ProcessID, k)) (sub_task_numbers K).
Proof.
  unfold sub_tasks, task_events. rewrite !omap_app. simpl.
  assert (H1 : ∀ l, omap (λ e, match e with ApplyAsync w p k => Some (w, p, k) | _ => None end)
                      (map (ApplyAsync (RW * int_of x) ProcessID) l)
                    = map (λ k, (RW * int_of x, ProcessID, k)) l).
  { induction l as [|k l IH]; simpl; [done | f_equal; exact IH]. }
  assert (H2 : ∀ l l', omap (λ e, match e with ApplyAsync w p k => Some (w, p, k) | _ => None end)
                      (zip_with AsyncGet l l') = []).
  { induction l as [|k l IH]; intros [|y l']; simpl; try done. }
  by rewrite H1, H2, app_nil_r.
Qed.

Example JobToPerformTasks_submissions :
  (JobToPerformTasks 2 2 "Process-1" zero_gens 3%Q).1.2 = Some (3%Q, 0)
  ∧ sub_tasks (JobToPerformTasks 2 2 "Process-1" zero_gens 3%Q).1.1
    = [(3, "Process-1", 1); (3, "Process-1", 2)].
Proof. split; vm_compute; reflexivity. Qed.

End NestingFacts.

(** *** Direct submission: the steps *)

Section DirectSubmitFacts.
Import DirectSubmit.
Context {G Args Res : Type}.
Variable f : G -> Args -> option Res * G.

Local Abbreviation state := (DirectSubmit.state G Args Res).

Lemma pool_running_middle (l1 l2 : list (G * option nat)) (g : G) (o : option nat) :
  omap snd (l1 ++ (g, o) :: l2)
  = omap snd l1 ++ match o with Some k => [k] | None => [] end ++ omap snd l2.
Proof. rewrite omap_app. simpl. by destruct o. Qed.

Lemma pool_invariant_init (tasks : list Args) (gens : list G) :
  invariant f tasks (init tasks gens).
Proof.
  assert (Hrun : running (init tasks gens : state) = []).
  { unfold running. simpl. by induction gens. }
  split; rewrite ?Hrun; simpl.
  - done.
  - intros k o Hk. by rewrite lookup_empty in Hk.
  - intros k r Hk. done.
  - intros k Hk. lia.
  - intros k [Hk|Hk]; by apply elem_of_nil in Hk.
  - done.
Qed.

Lemma pool_step_transition (a : actor) (s s' : state) :
  step f a s = Some s' → transition f s s'.
Proof.
  destruct s as [ts sub tq ps oc out fl]. destruct a as [|p]; simpl.
  - unfold step_main; simpl. destruct fl; [done|].
    destruct ts as [|a rest].
    + destruct (sub !! length out) as [a|] eqn:Hsub; [|done].
      destruct (oc !! length out) as [[r|]|] eqn:Hoc; intros [= <-];
        econstructor; eassumption.
    + intros [= <-]. constructor.
  - unfold step_proc; simpl.
    destruct (ps !! p) as [[g [k|]]|] eqn:Hp; [| |done];
      apply list_elem_of_split_length in Hp as (l1 & l2 & -> & ->).
    + destruct (sub !! k) as [a|] eqn:Hsub; [|done].
      destruct (f g a) as [r g'] eqn:Hfa. intros [= <-].
      rewrite insert_middle. econstructor; eassumption.
    + destruct tq as [|k q]; [done|]. intros [= <-].
      rewrite insert_middle. constructor.
Qed.

Lemma pool_invariant_step (tasks : list Args) (s s' : state) :
  transition f s s' → invariant f tasks s → invariant f tasks s'.
Proof.
  intros Htr [Ht Ho Hout Hh Hr Hf].
  destruct Htr as [a rest sub tq ps oc out|a r sub tq ps oc out Hsub Hoc
                  |a sub tq ps oc out Hsub Hoc|k q l1 g l2 ts sub oc out fl
                  |k a r g' l1 g l2 ts sub tq oc out fl Hsub Hfa];
    unfold running in *; simpl in *; rewrite ?pool_running_middle in *; simpl in *.
  - split; unfold running; simpl.
    + by rewrite <- app_assoc.
    + intros k o Hk. destruct (Ho k o Hk) as (a' & g & Ha & Hfa').
      exists a', g. split; [|done]. by apply lookup_app_l_Some.
    + intros k r Hk. destruct (Hout k r Hk) as (a' & g & Ha & Hfa').
      exists a', g. split; [|done]. by apply lookup_app_l_Some.
    + intros k Hk. rewrite length_app in Hk. simpl in Hk.
      destruct (decide (k = length sub)) as [->|Hne].
      * left. apply elem_of_app. right. by left.
      * destruct (Hh k ltac:(lia)) as [?|[?|?]]; auto.
        left. apply elem_of_app. by left.
    + intros k [Hk|Hk]; rewrite length_app; simpl.
      * apply elem_of_app in Hk as [Hk|Hk].
        -- pose proof (Hr k (or_introl Hk)). lia.
        -- apply list_elem_of_singleton in Hk as ->. lia.
      * pose proof (Hr k (or_intror Hk)). lia.
    + done.
  - split; unfold running; simpl; try done.
    intros k r' Hk. destruct (decide (k = length out)) as [->|Hne].
    + rewrite list_lookup_middle in Hk by done. injection Hk as <-.
      by apply Ho.
    + apply Hout. rewrite lookup_app_l in Hk; [done|].
      apply lookup_lt_Some in Hk. rewrite length_app in Hk. simpl in Hk. lia.
  - split; unfold running; simpl; try done.
    intros _. destruct (Ho _ _ Hoc) as (a' & g & Ha & Hfa').
    exists a', g. split; [|done]. by eapply list_elem_of_lookup_2.
  - split; unfold running; simpl; rewrite ?pool_running_middle; simpl; try done.
    + intros k' Hk'. destruct (Hh k' Hk') as [Hin|[Hrun|?]]; auto.
      * apply elem_of_cons in Hin as [->|Hin]; auto.
        right. left. apply elem_of_app. right. by left.
      * right. left. apply elem_of_app in Hrun as [?|?];
          apply elem_of_app; auto. right. by right.
    + intros k' [Hk'|Hk']; apply Hr.
      * left. by right.
      * apply elem_of_app in Hk' as [?|Hk'].
        -- right. apply elem_of_app. by left.
        -- apply elem_of_cons in Hk' as [->|?].
           ++ left. by left.
           ++ right. apply elem_of_app. by right.
  - split; unfold running; simpl; rewrite ?pool_running_middle; simpl; try done.
    + intros k' o Hk'. destruct (decide (k' = k)) as [->|Hne].
      * rewrite lookup_insert_eq in Hk'. injection Hk' as <-.
        exists a, g. by rewrite Hfa.
      * rewrite lookup_insert_ne in Hk' by done. by apply Ho.
    + intros k' Hk'. destruct (decide (k' = k)) as [->|Hne].
      * right. right. by rewrite lookup_insert_eq.
      * destruct (Hh k' Hk') as [?|[Hrun|?]]; auto.
        -- right. left. apply elem_of_app in Hrun as [?|Hrun];
             apply elem_of_app; auto.
           apply elem_of_cons in Hrun as [->|?]; [done | by right].
        -- right. right. by rewrite lookup_insert_ne.
    + intros k' [Hk'|Hk']; apply Hr; auto.
      right. apply elem_of_app in Hk' as [?|?]; apply elem_of_app; auto.
      right. by right.
Qed.

Lemma pool_run_invariant (I : state → Prop) :
  (∀ s s', transition f s s' → I s → I s') →
  ∀ sched s s', run f sched s = Some s' → I s → I s'.
Proof.
  intros Hstep. induction sched as [|a sched IH]; intros s s' Hrun Hs; simpl in Hrun.
  - by injection Hrun as <-.
  - destruct (step f a s) as [s1|] eqn:Hs1; [|done].
    eapply IH; [exact Hrun|]. eapply Hstep; [|exact Hs]. by eapply pool_step_transition.
Qed.

Lemma pool_invariant_run (tasks : list Args) (gens : list G) sched (s : state) :
  run f sched (init tasks gens) = Some s → invariant f tasks s.
Proof.
  intros Hrun. eapply (pool_run_invariant (invariant f tasks)); [|exact Hrun|].
  - apply pool_invariant_step.
  - apply pool_invariant_init.
Qed.

Lemma pool_transition_measure (tasks : list Args) (s s' : state) :
  transition f s s' → (measure s' < measure s)%nat.
Proof.
  destruct 1 as [a rest sub tq ps oc out|a r sub tq ps oc out Hsub Hoc
                |a sub tq ps oc out Hsub Hoc|k q l1 g l2 ts sub oc out fl
                |k a r g' l1 g l2 ts sub tq oc out fl Hsub Hfa];
    unfold measure, running; simpl;
    rewrite ?pool_running_middle, ?length_app; simpl;
    try (apply lookup_lt_Some in Hsub); lia.
Qed.

Lemma pool_run_measure (tasks : list Args) sched (s s' : state) :
  run f sched s = Some s' → (length sched + measure s' <= measure s)%nat.
Proof.
  revert s. induction sched as [|a sched IH]; intros s Hrun; simpl in Hrun.
  - injection Hrun as <-. simpl. lia.
  - destruct (step f a s) as [s1|] eqn:Hs1; [|done].
    apply pool_step_transition, (pool_transition_measure tasks) in Hs1.
    apply IH in Hrun. simpl. lia.
Qed.

Section Order.
Context {Id : Type} (aid : Args → Id) (rid : Res → Id).
Hypothesis f_id : ∀ g a r, (f g a).1 = Some r → rid r = aid a.
Variables (tasks : list Args) (gens : list G) (sched : list actor) (s : state).
Hypothesis Hrun : run f sched (init tasks gens) = Some s.

(** The k-th collected result is a result of the k-th submitted call. *)
Lemma output_of_submitted (k : nat) (r : Res) :
  Output s !! k = Some r →
  ∃ a g, tasks !! k = Some a ∧ (f g a).1 = Some r ∧ rid r = aid a.
Proof.
  intros Hk. destruct (pool_invariant_run tasks gens sched s Hrun) as [Ht _ Hout _ _ _].
  destruct (Hout k r Hk) as (a & g & Ha & Hfa).
  exists a, g. split; [|split; [done | by eapply f_id]].
  rewrite <- Ht. by apply lookup_app_l_Some.
Qed.

Lemma output_ids_in_order : map rid (Output s) = map aid (take (length (Output s)) tasks).
Proof.
  apply list_eq. intros k. rewrite !list_lookup_fmap.
  destruct (Output s !! k) as [r|] eqn:Hk; simpl.
  - destruct (output_of_submitted k r Hk) as (a & g & Ha & _ & Hid).
    rewrite lookup_take_lt by (by eapply lookup_lt_Some).
    by rewrite Ha, Hid.
  - apply lookup_ge_None in Hk. rewrite lookup_take_ge by lia. done.
Qed.

Lemma output_ids_when_returned :
  returned s → length (Output s) = length tasks ∧ map rid (Output s) = map aid tasks.
Proof.
  intros (Hts & Hlen & _). destruct (pool_invariant_run tasks gens sched s Hrun) as [Ht _ _ _ _ _].
  rewrite Hts, app_nil_r in Ht. rewrite Ht in Hlen. split; [done|].
  by rewrite output_ids_in_order, Hlen, firstn_all.
Qed.

End Order.

Lemma omap_snd_none (l : list (G * option nat)) :
  Forall (λ go, go.2 = None) l → omap snd l = [].
Proof.
  induction 1 as [|[g o] l Hgo _ IH]; simpl; [done|].
  simpl in Hgo. subst o. exact IH.
Qed.

(** With at least one pool process and no failing call every run ends with
    the caller's gets returned. *)
Lemma pool_returns_when_stuck (tasks : list Args) (gens : list G) sched (s : state) :
  (∀ g a, a ∈ tasks → is_Some (f g a).1) → gens ≠ [] →
  run f sched (init tasks gens) = Some s → stuck f s → returned s.
Proof.
  intros Hsome Hgens Hrun Hstuck.
  destruct (pool_invariant_run tasks gens sched s Hrun) as [Ht Ho Hout Hh Hr Hf].
  assert (Hlenp : length (procs s) = length gens).
  { eapply (pool_run_invariant (λ s, length (procs s) = length gens)); [|exact Hrun|].
    - intros s1 s2. destruct 1; simpl; rewrite ?length_app; simpl; done.
    - simpl. by rewrite length_map. }
  assert (Hfl : failed s = false).
  { destruct (failed s) eqn:Hfl; [|done]. destruct (Hf eq_refl) as (a & g & Ha & Hn).
    destruct (Hsome g a) as [r Hr']; [|congruence].
    rewrite <- Ht. apply elem_of_app. by left. }
  assert (Hidle : ∀ p g o, procs s !! p = Some (g, o) → o = None).
  { intros p g [k|] Hp; [|done]. exfalso.
    pose proof (Hstuck (P p)) as Hs. simpl in Hs. unfold step_proc in Hs.
    rewrite Hp in Hs.
    assert (Hk : (k < length (submitted s))%nat).
    { apply Hr. right. unfold running. apply list_elem_of_omap.
      exists (g, Some k). split; [by eapply list_elem_of_lookup_2 | done]. }
    apply lookup_lt_is_Some in Hk as [a Ha]. rewrite Ha in Hs.
    by destruct (f g a). }
  assert (Hrunning : running s = []).
  { assert (Hall : Forall (λ go : G * option nat, go.2 = None) (procs s)).
    { apply Forall_lookup. intros p [g o] Hp. simpl. by eapply Hidle. }
    by apply omap_snd_none. }
  assert (Hq : taskqueue s = []).
  { destruct (procs s) as [|[g o] ps] eqn:Hps;
      [destruct gens; [done | simpl in Hlenp; lia]|].
    pose proof (Hstuck (P 0)) as Hs. simpl in Hs. unfold step_proc in Hs.
    rewrite Hps in Hs. simpl in Hs.
    assert (o = None) as -> by (by apply (Hidle 0%nat g)).
    by destruct (taskqueue s). }
  pose proof (Hstuck Main) as Hm. simpl in Hm. unfold step_main in Hm.
  rewrite Hfl in Hm. destruct (to_submit s) as [|a rest] eqn:Hts; [|done].
  split; [done|]. split; [|done].
  assert (Hle : (length (Output s) <= length (submitted s))%nat).
  { destruct (Output s) as [|r out] eqn:Hout' using rev_ind; [simpl; lia|].
    destruct (Hout (length out) r) as (a & g & Ha & _);
      [by apply list_lookup_middle|].
    apply lookup_lt_Some in Ha. rewrite length_app. simpl. lia. }
  destruct (decide (length (Output s) = length (submitted s))) as [|Hne]; [done|].
  exfalso. assert (Hlt : (length (Output s) < length (submitted s))%nat) by lia.
  destruct (Hh _ Hlt) as [Hin|[Hin|[o Hoc]]].
  - rewrite Hq in Hin. by apply elem_of_nil in Hin.
  - rewrite Hrunning in Hin. by apply elem_of_nil in Hin.
  - apply lookup_lt_is_Some in Hlt as [a Ha]. rewrite Ha, Hoc in Hm.
    by destruct o.
Qed.

Lemma pool_bounded_schedule (tasks : list Args) (gens : list G) sched (s : state) :
  run f sched (init tasks gens) = Some s → (length sched <= 4 * length tasks + 1)%nat.
Proof.
  intros Hrun. pose proof (pool_run_measure tasks _ _ _ Hrun) as Hm.
  unfold measure at 2 in Hm. unfold running in Hm. simpl in Hm.
  assert (Hw : ∀ l : list G, omap snd (map (λ g, (g, None : option nat)) l) = [])
    by (intros l; by induction l).
  rewrite Hw in Hm. simpl in Hm. lia.
Qed.

End DirectSubmitFacts.

Section UsePoolFacts.
Import DirectSubmit Benchmarking.

Lemma CPUHeavyFunction_id (g : Rng) (NumbersToDraw ID : Z) r g' :
  CPUHeavyFunction g NumbersToDraw ID = (Some r, g') → r.1 = ID.
Proof.
  unfold CPUHeavyFunction. destruct (draw _ g 0) as [n g1].
  destruct (NumbersToDraw =? 0); [done|]. by intros [= <- _].
Qed.

(** C2: the results collected from a pool come back in the order of
    submission: the k-th collected result carries the identifier of the k-th
    submitted task, for every function that returns the identifier it is
    given and every sequence of tasks, and so for [UsePool]; when no call
    fails and there is a pool process, nobody stops before the caller's
    gets have returned all the results, which happens after at most
    4*(number of tasks)+1 steps: so for [UsePool] with a non-zero weight and
    at least one worker.  The tasks 1..5 with the squaring function on one
    pool process give exactly (1,1), (2,4), (3,9), (4,16), (5,25), and every
    run returns them. *)
Theorem direct_submit_in_submission_order :
  (∀ (A I V : Type) (F : Rng → A → I → option (I * V) * Rng),
     (∀ g a i r g', F g a i = (Some r, g') → r.1 = i) →
     ∀ (tasks : list (A * I)) (gens : list Rng) (sched : list actor)
       (s : state Rng (A * I) (I * V)),
       run (apply_args F) sched (init tasks gens) = Some s →
       (∀ k r, Output s !! k = Some r → ∃ t, tasks !! k = Some t ∧ r.1 = t.2)
       ∧ (returned s → length (Output s) = length tasks
                        ∧ map fst (Output s) = map snd tasks)
       ∧ ((∀ g t, t ∈ tasks → is_Some (F g t.1 t.2).1) → gens ≠ [] →
          stuck (apply_args F) s → returned s)
       ∧ (length sched <= 4 * length tasks + 1)%nat)
  ∧ (∀ gens NumberOfWorkers NumberOfTasks WeightOfComputation sched s,
       run (apply_args CPUHeavyFunction) sched
         (UsePool gens NumberOfWorkers NumberOfTasks WeightOfComputation) = Some s →
       (returned s →
          length (Output s) = Z.to_nat NumberOfTasks
          ∧ map fst (Output s) = range 0 NumberOfTasks)
       ∧ (WeightOfComputation ≠ 0 → 1 <= NumberOfWorkers →
          stuck (apply_args CPUHeavyFunction) s → returned s)
       ∧ (length sched <= 4 * Z.to_nat NumberOfTasks + 1)%nat)
  ∧ (∀ (g : Rng) sched s,
       run (apply_args square) sched
         (init [(1, 1); (2, 2); (3, 3); (4, 4); (5, 5)] [g]) = Some s →
       (returned s → Output s = [(1, 1); (2, 4); (3, 9); (4, 16); (5, 25)])
       ∧ (stuck (apply_args square) s → returned s)
       ∧ (length sched <= 21)%nat).
Proof.
  assert (Hgen : ∀ (A I V : Type) (F : Rng → A → I → option (I * V) * Rng),
     (∀ g a i r g', F g a i = (Some r, g') → r.1 = i) →
     ∀ (tasks : list (A * I)) (gens : list Rng) (sched : list actor)
       (s : state Rng (A * I) (I * V)),
       run (apply_args F) sched (init tasks gens) = Some s →
       (∀ k r, Output s !! k = Some r → ∃ t, tasks !! k = Some t ∧ r.1 = t.2)
       ∧ (returned s → length (Output s) = length tasks
                        ∧ map fst (Output s) = map snd tasks)
       ∧ ((∀ g t, t ∈ tasks → is_Some (F g t.1 t.2).1) → gens ≠ [] →
          stuck (apply_args F) s → returned s)
       ∧ (length sched <= 4 * length tasks + 1)%nat).
  { intros A I V F HF tasks gens sched s Hrun.
    assert (Hid : ∀ g (a : A * I) r, (apply_args F g a).1 = Some r → r.1 = a.2).
    { intros g a r. unfold apply_args. destruct (F g a.1 a.2) as [o g'] eqn:E.
      simpl. intros ->. by eapply HF. }
    split; [|split; [|split]].
    - intros k r Hk.
      destruct (output_of_submitted _ snd fst Hid tasks gens sched s Hrun k r Hk)
        as (a & g & Ha & _ & Hr). by exists a.
    - by apply (output_ids_when_returned _ snd fst Hid tasks gens sched s Hrun).
    - intros Hsome Hgens Hstuck.
      by apply (pool_returns_when_stuck (apply_args F) tasks gens sched s).
    - apply (pool_bounded_schedule _ _ _ _ _ Hrun). }
  split; [exact Hgen|]. split.
  - intros gens NW NT W sched s Hrun. unfold UsePool in Hrun.
    destruct (Hgen _ _ _ CPUHeavyFunction CPUHeavyFunction_id _ _ _ _ Hrun)
      as (_ & H & Hlive & Hbound).
    rewrite length_map, length_range, Z.sub_0_r in Hbound.
    split; [|split; [|exact Hbound]].
    + intros Hret. destruct (H Hret) as [Hl ->].
      rewrite length_map, length_range, Z.sub_0_r in Hl. split; [exact Hl|].
      rewrite map_map. simpl. apply map_id.
    + intros HW HNW. apply Hlive.
      * intros g t Ht. apply list_elem_of_fmap in Ht as (i & -> & _). simpl.
        destruct (CPUHeavyFunction_returns g W i HW) as (Pi & g' & ->).
        by eexists.
      * intros Hnil. apply (f_equal length) in Hnil.
        rewrite length_map, length_range in Hnil. simpl in Hnil. lia.
  - intros g sched s Hrun.
    assert (Hid : ∀ g (a : Z * Z) r, (apply_args square g a).1 = Some r →
                  r = (a.2, a.1 * a.1)) by (by intros g0 a r [= <-]).
    split; [|split].
    + intros Hret.
      destruct (output_ids_when_returned _ (λ a : Z * Z, (a.2, a.1 * a.1)) id
                  Hid _ _ _ _ Hrun Hret) as [_ H].
      rewrite map_id in H. exact H.
    + intros Hstuck.
      eapply (pool_returns_when_stuck (apply_args square) _ [g] sched s);
        [|done|exact Hrun|exact Hstuck].
      intros g0 a _. by eexists.
    + apply (pool_bounded_schedule _ _ _ _ _ Hrun).
Qed.

Example square_scenario_run :
  Output <$> run (apply_args square)
               [Main; Main; P 0; Main; P 0; P 0; Main; Main; P 0; P 0; P 0; Main;
                P 0; P 0; Main; P 0; P 0; Main; Main; Main]
               (init [(1, 1); (2, 2); (3, 3); (4, 4); (5, 5)] [zero_gen])
  = Some [(1, 1); (2, 4); (3, 9); (4, 16); (5, 25)].
Proof. vm_compute. reflexivity. Qed.

(** Two pool processes finish the calls out of order: the caller cannot
    collect the second result first, and collects both in the order of
    submission. *)
Example UsePool_out_of_order :
  run (apply_args CPUHeavyFunction) [Main; Main; P 0; P 1; P 1; Main]
    (UsePool (λ _, zero_gen) 2 2 1) = None
  ∧ (λ s, map fst (Output s)) <$>
      run (apply_args CPUHeavyFunction) [Main; Main; P 0; P 1; P 1; P 0; Main; Main]
        (UsePool (λ _, zero_gen) 2 2 1)
    = Some [0; 1].
Proof. split; vm_compute; reflexivity. Qed.

End UsePoolFacts.

Section ReductionFacts.
Import Nesting.

Lemma int_of_proper (x y : Q) : (x == y)%Q → int_of x = int_of y.
Proof.
  unfold Qeq, int_of. destruct x as [a b], y as [c d]. simpl. intros H.
  rewrite <- (Z.quot_mul_cancel_r a (Z.pos b) (Z.pos d)) by done.
  rewrite <- (Z.quot_mul_cancel_r c (Z.pos d) (Z.pos b)) by done.
  rewrite H. f_equal. lia.
Qed.

Lemma np_sum_repeat (c : Q) (n : nat) :
  (np_sum (repeat c n) == inject_Z (Z.of_nat n) * c)%Q.
Proof.
  induction n as [|n IH].
  - unfold np_sum. simpl. ring.
  - change (repeat c (S n)) with ([c] ++ repeat c n).
    unfold np_sum. rewrite fold_left_app. simpl.
    rewrite np_sum_acc, IH, Nat2Z.inj_succ. unfold Z.succ.
    rewrite inject_Z_plus. ring.
Qed.

(** C6, as the code has it: when each of the K inner results equals c, the
    reduction returns the integer part of c / (0.5 * RandomWeight), whatever
    K is: the sum is divided by the expected value 0.5 * RandomWeight of one
    summand per number to add, so that the result approximates the number of
    random numbers added, not c.  It is the integer part of c when
    RandomWeight is 2. *)
Theorem reduce_constant (K RandomWeight : Z) (c : Q) :
  1 <= K → 1 <= RandomWeight →
  reduce (repeat c (Z.to_nat K)) K RandomWeight
  = Some (int_of (c / (0.5 * inject_Z RandomWeight)))
  ∧ (RandomWeight = 2 → reduce (repeat c (Z.to_nat K)) K RandomWeight = Some (int_of c)).
Proof.
  intros HK HR.
  assert (HKq : ¬ (inject_Z K == 0)%Q)
    by (change 0%Q with (inject_Z 0); rewrite inject_Z_injective; lia).
  assert (HRq : ¬ (inject_Z RandomWeight == 0)%Q)
    by (change 0%Q with (inject_Z 0); rewrite inject_Z_injective; lia).
  assert (H : reduce (repeat c (Z.to_nat K)) K RandomWeight
              = Some (int_of (c / (0.5 * inject_Z RandomWeight)))).
  { destruct (reduce_defined (repeat c (Z.to_nat K)) K RandomWeight HK HR) as [v Hv].
    rewrite Hv. f_equal. unfold reduce in Hv.
    destruct (Qeq_bool _ 0); [done|]. injection Hv as <-.
    apply int_of_proper. rewrite np_sum_repeat, Z2Nat.id by lia.
    field. by split. }
  split; [exact H|]. intros ->. rewrite H. f_equal. apply int_of_proper.
  by field.
Qed.

Lemma reduce_constant_witness :
  1 <= 8 ∧ 1 <= 2 ∧
  reduce (repeat 1000000%Q (Z.to_nat 8)) 8 2 = Some (int_of 1000000%Q).
Proof.
  split; [lia|]. split; [lia|].
  apply (reduce_constant 8 2 1000000%Q); [lia | lia | reflexivity].
Defined.

(** C6 as stated fails: eight inner results that each equal 100, with the
    random weight 1, are reduced to 200, which is not within half of 100 of
    100, let alone within a floating-point tolerance. *)
Lemma reduce_not_within_tolerance :
  reduce (repeat 100%Q 8) NumberOfSubtasksInOneTask 1 = Some 200
  ∧ ¬ within_tolerance (1 # 2) (inject_Z 200) 100.
Proof.
  split; [vm_compute; reflexivity|].
  unfold within_tolerance. vm_compute. intros H. by apply H.
Qed.

End ReductionFacts.

(** *** The tasks of a nested worker *)

Section NestedTaskFacts.
Import SharedQueue Nesting NestedTask.

Local Abbreviation nevent := (SharedQueue.event Q (Q * Z) pool_event).














End NestedTaskFacts.

(** * Further properties of the code *)

(** ** The random numbers and the functions that consume them *)

Section RandomFacts.
Import Benchmarking Process.

Lemma random_random_range (g : Rng) :
  (0 <= (random_random g).1)%Q ∧ ((random_random g).1 < 1)%Q
  ∧ pos (random_random g).2 = S (pos g) ∧ raw (random_random g).2 = raw g.
Proof.
  unfold random_random, next_raw. simpl.
  pose proof (Z.mod_pos_bound (raw g (pos g)) (2 ^ 53) ltac:(lia)) as Hm.
  unfold Qle, Qlt. simpl. rewrite Pos2Z.inj_pow.
  repeat split; lia.
Qed.

Lemma add_random_range (n : nat) (g : Rng) (Sum : Q) :
  (Sum <= (add_random n g Sum).1)%Q
  ∧ ((add_random n g Sum).1 <= Sum + inject_Z (Z.of_nat n))%Q
  ∧ ((1 <= n)%nat → ((add_random n g Sum).1 < Sum + inject_Z (Z.of_nat n))%Q)
  ∧ pos (add_random n g Sum).2 = (pos g + n)%nat
  ∧ raw (add_random n g Sum).2 = raw g.
Proof.
  revert g Sum. induction n as [|n IH]; intros g Sum.
  - cbn [add_random fst snd]. change (inject_Z (Z.of_nat 0)) with 0%Q.
    split; [lra|]. split; [lra|]. split; [intros; lia|]. split; [lia | done].
  - cbn [add_random].
    destruct (random_random_range g) as (H0 & H1 & Hp & Hr).
    destruct (random_random g) as [x g1]. simpl in H0, H1, Hp, Hr.
    destruct (IH g1 (Sum + x)%Q) as (I1 & I2 & _ & I4 & I5).
    rewrite Nat2Z.inj_succ. unfold Z.succ. rewrite inject_Z_plus.
    change (inject_Z 1) with 1%Q.
    repeat split.
    + lra.
    + lra.
    + intros _. lra.
    + rewrite I4, Hp. lia.
    + by rewrite I5.
Qed.

Lemma draw_range (n : nat) (g : Rng) (NumbersInside : Z) :
  NumbersInside <= (draw n g NumbersInside).1 <= NumbersInside + Z.of_nat n
  ∧ pos (draw n g NumbersInside).2 = (pos g + 2 * n)%nat
  ∧ raw (draw n g NumbersInside).2 = raw g.
Proof.
  revert g NumbersInside. induction n as [|n IH]; intros g c.
  - simpl. repeat split; lia.
  - cbn [draw].
    destruct (random_random_range g) as (_ & _ & Hp & Hr).
    destruct (random_random g) as [x g1]. simpl in Hp, Hr.
    destruct (random_random_range g1) as (_ & _ & Hp1 & Hr1).
    destruct (random_random g1) as [y g2]. simpl in Hp1, Hr1.
    match goal with |- context [draw n g2 ?c'] =>
      destruct (IH g2 c') as (I1 & I2 & I3);
      assert (Hc : c <= c' <= c + 1) by (destruct (le_sqrt _ _); lia)
    end.
    repeat split; try lia. by rewrite I3, Hr1.
Qed.

Lemma CPUHeavyFunction_value (g : Rng) (NumbersToDraw ID : Z) r g' :
  CPUHeavyFunction g NumbersToDraw ID = (Some r, g') →
  r.1 = ID ∧ (0 <= r.2)%Q ∧ (r.2 <= 4)%Q.
Proof.
  unfold CPUHeavyFunction.
  destruct (draw_range (Z.to_nat NumbersToDraw) g 0) as (Hc & _ & _).
  destruct (draw (Z.to_nat NumbersToDraw) g 0) as [c g1]. simpl in Hc.
  destruct (NumbersToDraw =? 0) eqn:E; [done|]. apply Z.eqb_neq in E.
  intros [= <- _]. simpl. split; [done|].
  destruct (Z.lt_ge_cases 0 NumbersToDraw) as [Hn|Hn].
  - assert (Hq : (0 < inject_Z NumbersToDraw)%Q) by (rewrite <- (Zlt_Qlt 0); lia).
    split.
    + apply Qle_shift_div_l; [done|]. rewrite Qmult_0_l.
      rewrite <- (Zle_Qle 0). lia.
    + apply Qle_shift_div_r; [done|].
      change 4%Q with (inject_Z 4). rewrite <- inject_Z_mult, <- Zle_Qle. lia.
  - rewrite Z2Nat.nonpos in Hc by lia. assert (c = 0) as -> by lia.
    unfold Qle, Qdiv. simpl. lia.
Qed.

(** X1: [CPUHeavyFunction] raises exactly when [NumbersToDraw] is 0.  For
    a positive [NumbersToDraw] it returns the identifier it was given with a
    value between 0 and 4 and has consumed 2*NumbersToDraw random numbers;
    for a negative one it draws nothing and returns the value 0. *)
Theorem CPUHeavyFunction_range (g : Rng) (NumbersToDraw ID : Z) :
  (NumbersToDraw = 0 → CPUHeavyFunction g NumbersToDraw ID = (None, g))
  ∧ (NumbersToDraw < 0 →
     ∃ Pi, CPUHeavyFunction g NumbersToDraw ID = (Some (ID, Pi), g) ∧ (Pi == 0)%Q)
  ∧ (0 < NumbersToDraw →
     ∃ Pi g', CPUHeavyFunction g NumbersToDraw ID = (Some (ID, Pi), g')
              ∧ (0 <= Pi)%Q ∧ (Pi <= 4)%Q
              ∧ pos g' = (pos g + 2 * Z.to_nat NumbersToDraw)%nat
              ∧ raw g' = raw g).
Proof.
  unfold CPUHeavyFunction. split; [|split].
  - intros ->. reflexivity.
  - intros Hn. rewrite Z2Nat.nonpos by lia. simpl.
    destruct (NumbersToDraw =? 0) eqn:E; [apply Z.eqb_eq in E; lia|].
    eexists. split; [reflexivity|]. unfold Qeq, Qdiv. simpl. lia.
  - intros Hn.
    destruct (draw_range (Z.to_nat NumbersToDraw) g 0) as (Hc & Hp & Hr).
    destruct (draw (Z.to_nat NumbersToDraw) g 0) as [c g']. simpl in Hc, Hp, Hr.
    destruct (NumbersToDraw =? 0) eqn:E; [apply Z.eqb_eq in E; lia|].
    eexists _, _. split; [reflexivity|].
    assert (Hq : (0 < inject_Z NumbersToDraw)%Q) by (rewrite <- (Zlt_Qlt 0); lia).
    repeat split; try done.
    + apply Qle_shift_div_l; [done|]. rewrite Qmult_0_l.
      rewrite <- (Zle_Qle 0). lia.
    + apply Qle_shift_div_r; [done|].
      change 4%Q with (inject_Z 4). rewrite <- inject_Z_mult, <- Zle_Qle. lia.
Qed.

End RandomFacts.

Section SerialFacts.
Import Benchmarking Harness.

Lemma Serial_calls_returns (ids : list Z) (g : Rng) (W : Z) :
  W ≠ 0 →
  ∃ Output g', Serial_calls ids g W = (Some Output, g')
               ∧ map fst Output = ids
               ∧ Forall (λ r : Z * Q, (0 <= r.2)%Q ∧ (r.2 <= 4)%Q) Output
               ∧ pos g' = (pos g + 2 * Z.to_nat W * length ids)%nat.
Proof.
  intros HW. revert g. induction ids as [|i ids IH]; intros g.
  - exists [], g. repeat split; [constructor | simpl; lia].
  - cbn [Serial_calls].
    destruct (CPUHeavyFunction_range g W i) as (_ & Hneg & Hpos).
    assert (Hr : ∃ Pi g1, CPUHeavyFunction g W i = (Some (i, Pi), g1)
                          ∧ (0 <= Pi)%Q ∧ (Pi <= 4)%Q
                          ∧ pos g1 = (pos g + 2 * Z.to_nat W)%nat).
    { destruct (Z_lt_le_dec W 0) as [Hlt|Hge].
      - destruct (Hneg Hlt) as (Pi & E & H0). exists Pi, g.
        split; [done|]. rewrite H0. rewrite Z2Nat.nonpos by lia.
        repeat split; [lra | lra | lia].
      - destruct (Hpos ltac:(lia)) as (Pi & g1 & E & H0 & H4 & Hp & _).
        by exists Pi, g1. }
    destruct Hr as (Pi & g1 & -> & H0 & H4 & Hp).
    destruct (IH g1) as (Output & g' & -> & Hids & Hall & Hp').
    exists ((i, Pi) :: Output), g'. simpl. repeat split.
    + by rewrite Hids.
    + by constructor.
    + rewrite Hp', Hp. lia.
Qed.

(** X2: the list [Output] of [Serial].  With a non-zero weight it holds one
    pair per task, with the identifiers 0..NumberOfTasks-1 in this order and
    values between 0 and 4, after 2*WeightOfComputation random numbers per
    task; with the weight 0 the first call raises [ZeroDivisionError], so
    [Serial] raises as soon as there is a task. *)
Theorem Serial_output (g : Rng) (NumberOfWorkers NumberOfTasks WeightOfComputation : Z) :
  (WeightOfComputation ≠ 0 →
     ∃ Output g',
       Serial g NumberOfWorkers NumberOfTasks WeightOfComputation = (Some Output, g')
       ∧ map fst Output = range 0 NumberOfTasks
       ∧ Forall (λ r : Z * Q, (0 <= r.2)%Q ∧ (r.2 <= 4)%Q) Output
       ∧ pos g' = (pos g + 2 * Z.to_nat WeightOfComputation
                              * Z.to_nat NumberOfTasks)%nat)
  ∧ (WeightOfComputation = 0 → 1 <= NumberOfTasks →
     Serial g NumberOfWorkers NumberOfTasks WeightOfComputation = (None, g))
  ∧ (NumberOfTasks <= 0 →
     Serial g NumberOfWorkers NumberOfTasks WeightOfComputation = (Some [], g)).
Proof.
  unfold Serial. split; [|split].
  - intros HW.
    destruct (Serial_calls_returns (range 0 NumberOfTasks) g _ HW)
      as (Output & g' & E & H1 & H2 & H3).
    exists Output, g'. rewrite length_range, Z.sub_0_r in H3. done.
  - intros -> HN. unfold range. rewrite Z.sub_0_r.
    destruct (Z.to_nat NumberOfTasks) as [|n] eqn:E; [lia|]. reflexivity.
  - intros HN. unfold range. rewrite Z2Nat.nonpos by lia. reflexivity.
Qed.

Lemma sleep_loop_sleeps (fuel : nat) (s x : Z) :
  Z.max 0 (x - 1 - s) < Z.of_nat fuel →
  ∃ l, sleep_loop fuel s x = Some l
       ∧ sleeps l = Z.to_nat (x - 1 - s)
       ∧ l = concat (repeat [Sleep; PrintSleeping] (Z.to_nat (x - 1 - s))).
Proof.
  revert s. induction fuel as [|fuel IH]; intros s Hf; [lia|].
  cbn [sleep_loop]. destruct (s <? x - 1) eqn:E.
  - apply Z.ltb_lt in E. destruct (IH (s + 1) ltac:(lia)) as (l & -> & H1 & H2).
    eexists. split; [reflexivity|]. split.
    + unfold sleeps in *. simpl. lia.
    + replace (Z.to_nat (x - 1 - s)) with (S (Z.to_nat (x - 1 - (s + 1)))) by lia.
      simpl. by rewrite <- H2.
  - apply Z.ltb_ge in E. exists []. rewrite Z2Nat.nonpos by lia. done.
Qed.

(** X3: [SleepForxSeconds(x)] returns, after max(x, 1) sleeps of one second
    (it sleeps once even when [x] is 0 or negative); the last sleep is
    followed by the awakening message and the blank line, and every earlier
    one by the message that it is sleeping. *)
Theorem SleepForxSeconds_sleeps (fuel : nat) (x : Z) :
  Z.max 0 (x - 1) < Z.of_nat fuel →
  ∃ l, SleepForxSeconds fuel x = Some l
       ∧ sleeps l = Z.to_nat (Z.max x 1)
       ∧ l = concat (repeat [Sleep; PrintSleeping] (Z.to_nat (x - 1)))
             ++ [Sleep; PrintAwakening; PrintBlank].
Proof.
  intros Hf. unfold SleepForxSeconds.
  destruct (sleep_loop_sleeps fuel 0 x ltac:(lia)) as (l & -> & H1 & H2).
  eexists. split; [reflexivity|]. split.
  - unfold sleeps in *. rewrite List.filter_app, length_app, H1. simpl. lia.
  - by rewrite H2, Z.sub_0_r.
Qed.

Lemma SleepForxSeconds_sleeps_witness :
  ∃ l, SleepForxSeconds 10 10 = Some l ∧ sleeps l = Z.to_nat (Z.max 10 1).
Proof.
  destruct (SleepForxSeconds_sleeps 10 10) as (l & H1 & H2 & _); [lia|].
  exists l. split; [exact H1 | exact H2].
Defined.

End SerialFacts.

Section SumFacts.
Import Benchmarking Process ProcessCases.

(** X4: [SumRandomNumbers] (Process) returns the identifier it was given
    with a sum between 0 and the number int(NumberOfValuesToAdd) of random
    numbers it adds, below that number when it is positive; it adds nothing
    when the number is zero or negative. *)
Theorem SumRandomNumbers_range {I : Type} (g : Rng) (NumberOfValuesToAdd : Q) (ID : I) :
  let r := SumRandomNumbers g NumberOfValuesToAdd ID in
  let n := int_of NumberOfValuesToAdd in
  r.1.1 = ID
  ∧ (0 <= r.1.2)%Q ∧ (r.1.2 <= inject_Z (Z.max 0 n))%Q
  ∧ (1 <= n → (r.1.2 < inject_Z n)%Q)
  ∧ (n <= 0 → r = ((ID, 0%Q), g))
  ∧ pos r.2 = (pos g + Z.to_nat n)%nat ∧ raw r.2 = raw g.
Proof.
  intros r n. subst r. unfold SumRandomNumbers. fold n.
  destruct (add_random_range (Z.to_nat n) g 0) as (H1 & H2 & H3 & H4 & H5).
  assert (Hn : Z.of_nat (Z.to_nat n) = Z.max 0 n) by lia.
  rewrite Hn in H2, H3.
  destruct (add_random (Z.to_nat n) g 0) as [Sum g'] eqn:E. simpl in *.
  split; [done|]. split; [done|]. split; [lra|]. split; [|split; [|done]].
  - intros Hn1. specialize (H3 ltac:(lia)). rewrite Z.max_r in H3 by lia. lra.
  - intros Hn0. rewrite Z2Nat.nonpos in E by lia. simpl in E. by injection E as <- <-.
Qed.

Lemma Case1_calls_range (ids : list Z) (g : Rng) (N : Q) :
  let r := Case1_calls ids g N in
  map fst r.1 = ids
  ∧ Forall (λ p : Z * Q, (0 <= p.2)%Q ∧ (p.2 <= inject_Z (Z.max 0 (int_of N)))%Q) r.1
  ∧ pos r.2 = (pos g + Z.to_nat (int_of N) * length ids)%nat.
Proof.
  revert g. induction ids as [|i ids IH]; intros g.
  - simpl. repeat split; [constructor | lia].
  - cbn [Case1_calls].
    destruct (SumRandomNumbers_range g N i) as (H1 & H2 & H3 & _ & _ & H6 & _).
    destruct (SumRandomNumbers g N i) as [[i' Sum] g1]. simpl in H1, H2, H3, H6.
    subst i'. destruct (IH g1) as (I1 & I2 & I3).
    destruct (Case1_calls ids g1 N) as [rs g2]. simpl in *.
    repeat split; [by rewrite I1 | by constructor | lia].
Qed.

(** X5: case 1, the serial computation: the results come in the order of
    the calls, with the identifiers 1..NumberOfProcesses and sums between 0
    and N, after N random numbers per call. *)
Theorem Case1_results (g : Rng) (N NumberOfProcesses : Z) :
  let r := Case1 g N NumberOfProcesses in
  map fst r.1 = range 1 (NumberOfProcesses + 1)
  ∧ length r.1 = Z.to_nat NumberOfProcesses
  ∧ Forall (λ p : Z * Q, (0 <= p.2)%Q ∧ (p.2 <= inject_Z (Z.max 0 N))%Q) r.1
  ∧ pos r.2 = (pos g + Z.to_nat N * Z.to_nat NumberOfProcesses)%nat.
Proof.
  intros r. subst r. unfold Case1.
  destruct (Case1_calls_range (range 1 (NumberOfProcesses + 1)) g (inject_Z N))
    as (H1 & H2 & H3).
  assert (Hi : int_of (inject_Z N) = N) by (unfold int_of; simpl; apply Z.quot_1_r).
  rewrite Hi in H2, H3. rewrite length_range in H3.
  replace (NumberOfProcesses + 1 - 1) with NumberOfProcesses in H3 by lia.
  split; [done|]. split; [|done].
  rewrite <- (length_map fst), H1, length_range. f_equal. lia.
Qed.

End SumFacts.

Section NestedSumFacts.
Import Nesting.

Lemma int_of_range (q : Q) (b : Z) :
  (0 <= q)%Q → (q <= inject_Z b)%Q → 0 <= int_of q <= b.
Proof.
  unfold Qle, int_of. destruct q as [a d]. simpl. intros H0 Hb. split.
  - apply Z.quot_pos; lia.
  - apply Z.quot_le_upper_bound; lia.
Qed.

Lemma np_sum_range (l : list Q) (B : Q) :
  Forall (λ y, (0 <= y)%Q ∧ (y <= B)%Q) l →
  (0 <= np_sum l)%Q ∧ (np_sum l <= inject_Z (Z.of_nat (length l)) * B)%Q.
Proof.
  induction 1 as [|y l [H0 HB] _ [IH0 IH1]].
  - unfold np_sum. cbn [fold_left length]. change (inject_Z (Z.of_nat 0)) with 0%Q.
    split; lra.
  - assert (E : (np_sum (y :: l) == y + np_sum l)%Q).
    { unfold np_sum. cbn [fold_left]. rewrite (np_sum_acc l (0 + y)).
      unfold np_sum. ring. }
    rewrite E. cbn [length]. rewrite Nat2Z.inj_succ. unfold Z.succ.
    rewrite inject_Z_plus. change (inject_Z 1) with 1%Q. split; lra.
Qed.

Lemma SumRandomNumbers_nested_range (g : Rng) (W : Z) :
  (0 <= SumRandomNumbers g W)%Q ∧ (SumRandomNumbers g W <= inject_Z (Z.max 0 W))%Q.
Proof.
  unfold SumRandomNumbers.
  destruct (add_random_range (Z.to_nat W) g 0) as (H1 & H2 & _).
  replace (Z.of_nat (Z.to_nat W)) with (Z.max 0 W) in H2 by lia. split; lra.
Qed.

(** X6: one task of [JobToPerformTasks] with at least one sub-task and one
    pool worker never raises; it puts the item together with a sum between 0
    and 2*int(NumbersToAdd) (0 for a negative item), and has submitted
    NumberOfSubtasksInOneTask sub-tasks. *)
Theorem JobToPerformTasks_sum_range (K PW : Z) (ProcessID : string)
    (g : gens) (NumbersToAdd : Q) :
  1 <= K → 1 <= PW →
  ∃ es Sum g',
    JobToPerformTasks K PW ProcessID g NumbersToAdd = (es, Some (NumbersToAdd, Sum), g')
    ∧ 0 <= Sum <= 2 * Z.max 0 (int_of NumbersToAdd)
    ∧ submitted g' = (submitted g + Z.to_nat K)%nat
    ∧ length (sub_tasks es) = Z.to_nat K.
Proof.
  intros HK HPW. unfold JobToPerformTasks.
  destruct (random_randint_range 1 3 (own g) ltac:(lia)) as (RW & own' & -> & HRW).
  destruct (PW <? 1) eqn:Hlt; [apply Z.ltb_lt in Hlt; lia|].
  set (W := RW * int_of NumbersToAdd).
  set (sums := imap _ (range 0 K)).
  assert (Hall : Forall (λ y, (0 <= y)%Q ∧ (y <= inject_Z (Z.max 0 W))%Q) sums).
  { apply Forall_lookup. intros i y Hi. unfold sums in Hi.
    rewrite list_lookup_imap in Hi.
    destruct (range 0 K !! i); [|done]. injection Hi as <-.
    apply SumRandomNumbers_nested_range. }
  assert (Hlen : length sums = Z.to_nat K)
    by (unfold sums; by rewrite length_imap, length_range, Z.sub_0_r).
  destruct (np_sum_range sums _ Hall) as [Hs0 Hs1]. rewrite Hlen, Z2Nat.id in Hs1 by lia.
  destruct (reduce_defined sums K RW HK ltac:(lia)) as [Sum HSum].
  rewrite HSum. eexists _, Sum, _. split; [reflexivity|].
  split; [|split].
  - unfold reduce in HSum. destruct (Qeq_bool _ 0); [done|]. injection HSum as <-.
    assert (HKq : (1 <= inject_Z K)%Q) by (rewrite <- (Zle_Qle 1); lia).
    assert (HRq : (1 <= inject_Z RW)%Q) by (rewrite <- (Zle_Qle 1); lia).
    assert (Hd : (0 < 0.5 * inject_Z K * inject_Z RW)%Q) by nra.
    apply int_of_range.
    + apply Qle_shift_div_l; [done|]. lra.
    + apply Qle_shift_div_r; [done|].
      assert (HW : (inject_Z (Z.max 0 W) <= inject_Z RW * inject_Z (Z.max 0 (int_of NumbersToAdd)))%Q).
      { rewrite <- inject_Z_mult, <- Zle_Qle. unfold W. nia. }
      rewrite inject_Z_mult. change (inject_Z 2) with 2%Q.
      assert (0 <= inject_Z (Z.max 0 (int_of NumbersToAdd)))%Q
        by (rewrite <- (Zle_Qle 0); lia).
      nra.
  - simpl. rewrite length_range. lia.
  - transitivity (length (sub_tasks (task_events K PW ProcessID NumbersToAdd RW sums))).
    + f_equal. f_equal. unfold task_events, sub_task_numbers.
      by rewrite map_map, zip_with_fmap_l.
    + rewrite sub_tasks_of_task, length_map. apply sub_task_numbers_distinct.
Qed.

Lemma JobToPerformTasks_sum_range_witness :
  ∃ es Sum g',
    JobToPerformTasks 8 2 "Process-1" zero_gens 1000%Q = (es, Some (1000%Q, Sum), g')
    ∧ 0 <= Sum <= 2 * Z.max 0 (int_of 1000%Q).
Proof.
  destruct (JobToPerformTasks_sum_range 8 2 "Process-1" zero_gens 1000%Q)
    as (es & Sum & g' & H1 & H2 & _); [lia | lia |].
  exists es, Sum, g'. split; [exact H1 | exact H2].
Defined.

End NestedSumFacts.

(** ** Shared queues: failing calls and a single worker *)

Section QueueLossFacts.
Import SharedQueue QueueAccounting.
Context {J G Arg Res E : Type}.
Variable body : J -> G -> Arg -> list E * option Res * G.

Local Abbreviation state := (SharedQueue.state J G Arg Res E).
Local Abbreviation worker := (SharedQueue.worker J G Arg).

Lemma died_middle (l1 l2 : list worker) (w : worker) :
  died (l1 ++ w :: l2)
  = (died l1 + (if at_ w is Raised then 1 else 0) + died l2)%nat.
Proof.
  unfold died. rewrite List.filter_app, length_app. simpl.
  destruct (at_ w); simpl; lia.
Qed.

Lemma held_died_bound (ws : list worker) :
  (length (held ws) + died ws <= length ws)%nat.
Proof.
  induction ws as [|w ws IH]; [done|].
  change (w :: ws) with ([] ++ w :: ws). rewrite held_middle, died_middle.
  simpl. rewrite length_app. destruct (at_ w); simpl; unfold died in *; simpl; lia.
Qed.

Lemma held_died_init (tasks : list Arg) (ws : list (J * G)) (expected : nat) :
  held (Workers (init tasks ws expected : state)) = []
  ∧ died (Workers (init tasks ws expected : state)) = 0%nat.
Proof. unfold died. simpl. by induction ws. Qed.

Lemma loss_inv_step (a : actor) (s s' : state) :
  transition body a s s' → loss_inv s → loss_inv s'.
Proof.
  unfold loss_inv.
  destruct 1; simpl;
    rewrite ?pops_app, ?pops_inner, ?deposited_app, ?deposited_inner,
            ?held_middle, ?died_middle, ?length_app; simpl;
    rewrite ?length_app; simpl; lia.
Qed.

Lemma loss_inv_run (tasks : list Arg) (ws : list (J * G))
    (expected : nat) (sched : list actor) (s : state) :
  run body sched (init tasks ws expected) = Some s → loss_inv s.
Proof.
  intros Hrun. eapply (run_invariant body loss_inv); [|exact Hrun|].
  - intros a s1 s2. apply loss_inv_step.
  - unfold loss_inv. destruct (held_died_init tasks ws expected) as [-> ->].
    done.
Qed.

(** X7: in every state of every run of workers on shared queues, whatever
    the loop body does: every popped item has either given one deposited
    result, or is held by a worker that is still computing, or has ended its
    worker by an exception; so at most one item per worker is popped without
    a result, and when all workers have ended the results are the popped
    items less one for each worker that an exception has ended. *)
Theorem popped_items_accounted (tasks : list Arg) (ws : list (J * G))
    (expected : nat) (sched : list actor) (s : state) :
  run body sched (init tasks ws expected) = Some s →
  length (pops (log s))
  = (length (deposited (log s)) + length (held (Workers s)) + died (Workers s))%nat
  ∧ (length (pops (log s)) <= length (deposited (log s)) + length ws)%nat
  ∧ (Forall terminated (Workers s) →
     length (deposited (log s)) = (length (pops (log s)) - died (Workers s))%nat).
Proof.
  intros Hrun.
  pose proof (loss_inv_run tasks ws expected sched s Hrun) as H.
  unfold loss_inv in H. split; [exact H|]. split.
  - pose proof (held_died_bound (Workers s)) as Hb.
    rewrite (workers_length_run body _ _ _ _ _ Hrun) in Hb. lia.
  - intros Ht. rewrite (held_terminated _ Ht) in H. simpl in H. lia.
Qed.

Section AllFail.
Variable tasks : list Arg.
Hypothesis body_raises : ∀ j g x, x ∈ tasks → (body j g x).1.2 = None.

Lemma all_fail_inv_step (a : actor) (s s' : state) :
  transition body a s s' → all_fail_inv tasks s → all_fail_inv tasks s'.
Proof.
  unfold all_fail_inv.
  destruct 1; simpl; rewrite ?held_middle; simpl; intros [Hd Hin];
    rewrite ?deposited_app, ?deposited_inner, ?Hd; simpl.
  - done.
  - split; [done|]. intros y Hy. apply Hin.
    rewrite !elem_of_app, !elem_of_cons in *. tauto.
  - done.
  - done.
  - exfalso. pose proof (body_raises j g x) as Hb. rewrite H in Hb. simpl in Hb.
    assert (Some r = None); [|done]. apply Hb, Hin.
    rewrite !elem_of_app, !elem_of_cons. tauto.
  - split; [done|]. intros y Hy. apply Hin.
    rewrite !elem_of_app, !elem_of_cons in *. tauto.
Qed.

Lemma all_fail_run ws (expected : nat) sched (s : state) :
  run body sched (init tasks ws expected) = Some s →
  deposited (log s) = [] ∧ Results s = [] ∧ OutputQueue s = []
  ∧ pending s = expected.
Proof.
  intros Hrun.
  assert (H : all_fail_inv tasks s).
  { eapply (run_invariant body (all_fail_inv tasks)); [|exact Hrun|].
    - intros a s1 s2. apply all_fail_inv_step.
    - split; [done|]. by destruct (held_died_init tasks ws expected) as [-> _]. }
  destruct H as [Hd _]. destruct (sink_inv_run body _ _ _ _ _ Hrun) as [Hs Hp].
  rewrite Hd in Hs. symmetry in Hs. apply app_eq_nil in Hs as [HR HO].
  rewrite HR in Hp. simpl in Hp. repeat split; try done. lia.
Qed.

End AllFail.

Section SingleWorker.
Context {Id : Type} (aid : Arg → Id) (rid : Res → Id) (tasks : list Arg) (j0 : J).
Hypothesis body_returns :
  ∀ g x, x ∈ tasks → ∃ es r g', body j0 g x = (es, Some r, g') ∧ rid r = aid x.

Lemma single_middle (l1 l2 : list worker) (w w0 : worker) :
  l1 ++ w :: l2 = [w0] → l1 = [] ∧ l2 = [] ∧ w = w0.
Proof.
  destruct l1 as [|a l1]; simpl; intros H.
  - injection H as -> ->. done.
  - injection H as _ H. by destruct l1.
Qed.

Lemma in_order_inv_step (a : actor) (s s' : state) :
  transition body a s s' →
  in_order_inv aid rid tasks j0 s → in_order_inv aid rid tasks j0 s'.
Proof.
  unfold in_order_inv.
  destruct 1; simpl; intros (Heq & Hin & w0 & Hw & Hj & Hat);
    try (destruct (single_middle _ _ _ _ Hw) as (-> & -> & <-)); simpl in *.
  - split; [|split; [done | by exists w0]].
    rewrite Heq, map_app. simpl. by rewrite <- app_assoc.
  - split; [done|]. split; [|by eexists].
    intros y Hy. apply Hin.
    rewrite ?elem_of_app, ?elem_of_cons, ?elem_of_nil in *; tauto.
  - split; [done|]. split; [done | by eexists].
  - split; [done|]. split; [done | by eexists].
  - subst j. destruct (body_returns g x) as (es' & r' & g'' & Hb & Hid);
      [apply Hin; rewrite ?elem_of_app, ?elem_of_cons; tauto|].
    rewrite Hb in H. injection H as <- <- <-.
    split; [|split; [|by eexists]].
    + rewrite Heq, map_app. simpl. rewrite Hid. by rewrite <- app_assoc.
    + intros y Hy. apply Hin.
      rewrite ?elem_of_app, ?elem_of_cons, ?elem_of_nil in *; tauto.
  - subst j. destruct (body_returns g x) as (es' & r' & g'' & Hb & Hid);
      [apply Hin; rewrite ?elem_of_app, ?elem_of_cons; tauto|].
    rewrite Hb in H. done.
Qed.

(** With the single worker [j0] and no failing call the shared queues keep
    the order of submission: the results the caller has collected carry, in
    this order, the identifiers of the first submitted items, and all of
    them once the gets have returned; a run in which [Empty] is raised on
    the empty queue only can only end with the gets returned. *)
Lemma single_worker_in_order (g0 : G) (sched : list actor) (s : state) :
  run body sched (init tasks [(j0, g0)] (length tasks)) = Some s →
  map rid (Results s) = map aid (take (length (Results s)) tasks)
  ∧ (returned s → map rid (Results s) = map aid tasks)
  ∧ (timely sched → stuck body s → returned s).
Proof.
  intros Hrun.
  assert (H : in_order_inv aid rid tasks j0 s).
  { eapply (run_invariant body (in_order_inv aid rid tasks j0)); [|exact Hrun|].
    - intros a s1 s2. apply in_order_inv_step.
    - unfold in_order_inv. simpl. split; [done|]. split; [done|]. by eexists. }
  destruct H as (Heq & _ & w0 & Hw & _ & Hat).
  destruct (sink_inv_run body _ _ _ _ _ Hrun) as [_ Hp].
  assert (Htake : map rid (Results s) = map aid (take (length (Results s)) tasks)).
  { rewrite <- (length_map rid), <- firstn_map, Heq.
    by rewrite take_app_length. }
  split; [done|]. split.
  - unfold returned. intros Hret.
    assert (Hlen : length (Results s) = length tasks) by lia.
    by rewrite Htake, Hlen, firstn_all.
  - intros Htimely Hstuck. unfold returned.
    pose proof (stuck_terminated body _ Hstuck) as Hterm.
    rewrite Hw in Hterm. apply Forall_inv in Hterm as [He|Hr]; [|done].
    assert (Hiq : InputQueue s = []).
    { apply (exited_inv_run body _ _ _ _ _ Htimely Hrun). exists w0.
      split; [rewrite Hw; apply list_elem_of_here | done]. }
    rewrite Hw, Hiq in Heq. unfold held in Heq. simpl in Heq. rewrite He in Heq.
    simpl in Heq. apply (f_equal length) in Heq.
    rewrite !length_app, !length_map in Heq. simpl in Heq.
    pose proof (Hstuck Main) as Hm. simpl in Hm. unfold step_main in Hm.
    destruct (pending s) as [|n]; [done|].
    destruct (OutputQueue s); [simpl in Heq; lia | done].
Qed.

Lemma serial_worker_phase (xs : list Arg) :
  (∀ x, x ∈ xs → x ∈ tasks) →
  ∀ oq g n rs lg, ∃ s',
    run body (repeat (W 0) (2 * length xs + 1))
      {| InputQueue := xs; OutputQueue := oq;
         Workers := [{| job := j0; gen := g; at_ := AtLoop |}];
         pending := n; Results := rs; log := lg |} = Some s'
    ∧ pending s' = n
    ∧ length (OutputQueue s') = (length oq + length xs)%nat.
Proof.
  induction xs as [|x xs IH]; intros Hin oq g n rs lg.
  - eexists. split; [reflexivity|]. simpl. split; [done | lia].
  - replace (2 * length (x :: xs) + 1)%nat with (S (S (2 * length xs + 1)))
      by (simpl; lia).
    destruct (body_returns g x) as (es & r & g' & Hb & _);
      [apply Hin, list_elem_of_here|].
    simpl. unfold step_worker. simpl. rewrite Hb. simpl.
    destruct (IH (λ y Hy, Hin y (list_elem_of_further _ _ _ Hy))
                (oq ++ [r]) g' n rs
                ((lg ++ [(0%nat, TryPopItem x)])
                 ++ map (λ e, (0%nat, Inner e)) es ++ [(0%nat, PutResult r)]))
      as (s' & Hrun & Hp & Hlen).
    exists s'. split; [exact Hrun|]. split; [done|].
    rewrite Hlen, length_app. simpl. lia.
Qed.

Lemma serial_main_phase (k : nat) (s : state) :
  pending s = k → (k <= length (OutputQueue s))%nat →
  ∃ s', run body (repeat Main k) s = Some s' ∧ pending s' = 0%nat.
Proof.
  revert s. induction k as [|k IH]; intros s Hp Hlen.
  - by exists s.
  - simpl. unfold step_main. rewrite Hp.
    destruct (OutputQueue s) as [|r q] eqn:Hq; [simpl in Hlen; lia|].
    apply IH; simpl in *; [done | lia].
Qed.

Lemma serial_schedule_timely (n : nat) : timely (serial_schedule n).
Proof.
  unfold timely, serial_schedule. apply Forall_app.
  split; apply Forall_forall; intros a Ha; apply list_elem_of_In in Ha;
    apply repeat_spec in Ha; by subst a.
Qed.

(** When the job is called in the caller's own process and [Empty] is raised
    on the empty queue only, the gets that follow return, and the results
    are those of the submitted items, in the order of submission. *)
Lemma single_worker_serial (g0 : G) :
  ∃ s, run body (serial_schedule (length tasks))
         (init tasks [(j0, g0)] (length tasks)) = Some s
       ∧ returned s ∧ map rid (Results s) = map aid tasks.
Proof.
  destruct (serial_worker_phase tasks (λ x H, H) [] g0 (length tasks) [] [])
    as (s1 & Hrun1 & Hp1 & Hlen1).
  destruct (serial_main_phase (length tasks) s1 Hp1 ltac:(simpl in Hlen1; lia))
    as (s2 & Hrun2 & Hp2).
  assert (Hrun : run body (serial_schedule (length tasks))
                   (init tasks [(j0, g0)] (length tasks)) = Some s2).
  { unfold serial_schedule. rewrite run_app.
    unfold init. simpl map. rewrite Hrun1. exact Hrun2. }
  exists s2. split; [exact Hrun|]. split; [exact Hp2|].
  by apply (single_worker_in_order g0 _ s2 Hrun).
Qed.

End SingleWorker.

(** When the first non-blocking get of the only job raises [Empty] although
    items are queued, the job has ended at once: nothing is taken from the
    input queue, and the gets of the caller never return. *)
Lemma single_worker_early_Empty (tasks : list Arg) (j0 : J) (g0 : G) :
  tasks ≠ [] →
  ∃ s, run body [Miss 0] (init tasks [(j0, g0)] (length tasks)) = Some s
       ∧ stuck body s ∧ ¬ returned s
       ∧ InputQueue s = tasks ∧ OutputQueue s = [] ∧ Results s = []
       ∧ pops (log s) = [].
Proof.
  intros Hne. eexists. split; [reflexivity|]. simpl.
  split; [|split; [|done]].
  - intros [|[|i]|[|i]]; try reflexivity. simpl. unfold step_main. simpl.
    by destruct (length tasks).
  - unfold returned. simpl. by destruct tasks.
Qed.

End QueueLossFacts.

Section QueueInstances.
Import SharedQueue QueueAccounting Benchmarking.

Lemma popped_items_accounted_witness :
  ∃ s, run (UsingQueues CPUHeavyFunction) [W 0; W 0; W 1; W 1]%nat
         (UseProcess (λ _, zero_gen) 2 3 0) = Some s
       ∧ length (pops (log s)) = 2%nat ∧ died (Workers s) = 2%nat
       ∧ length (deposited (log s)) = 0%nat.
Proof.
  eexists. split; [vm_compute; reflexivity|].
  edestruct (popped_items_accounted (UsingQueues CPUHeavyFunction))
    with (tasks := map (λ i, (0, i)) (range 0 3))
         (ws := map (λ i, (tt, zero_gen)) (range 0 2))
         (expected := 3%nat)
         (sched := [W 0; W 0; W 1; W 1]%nat)
    as (H1 & _ & _); [vm_compute; reflexivity|].
  vm_compute. done.
Defined.

(** X8: [UseProcess] with [WeightOfComputation = 0] and at least one task:
    every call of [CPUHeavyFunction] divides by zero, so on every schedule
    nothing is ever put into the output queue, the caller's gets never
    return, every worker ends with its first item, and at most
    [NumberOfWorkers] tasks are taken from the input queue. *)
Theorem UseProcess_zero_weight (gens : nat → Rng) (NumberOfWorkers NumberOfTasks : Z)
    (sched : list actor) (s : state unit Rng (Z * Z) (Z * Q) (call Z Z)) :
  1 <= NumberOfTasks →
  run (UsingQueues CPUHeavyFunction) sched
    (UseProcess gens NumberOfWorkers NumberOfTasks 0) = Some s →
  ¬ returned s
  ∧ Results s = [] ∧ OutputQueue s = []
  ∧ length (pops (log s)) = (length (held (Workers s)) + died (Workers s))%nat
  ∧ (length (pops (log s)) <= Z.to_nat NumberOfWorkers)%nat.
Proof.
  intros HNT Hrun. unfold UseProcess in Hrun.
  assert (Hfail : ∀ (j : unit) g x, x ∈ map (λ i, (0, i)) (range 0 NumberOfTasks) →
            (UsingQueues CPUHeavyFunction j g x).1.2 = None).
  { intros j g x Hx. apply list_elem_of_fmap in Hx as (i & -> & _). done. }
  destruct (all_fail_run _ _ Hfail _ _ _ _ Hrun) as (Hd & HR & HO & Hp).
  pose proof (loss_inv_run _ _ _ _ _ _ Hrun) as Hl. unfold loss_inv in Hl.
  rewrite Hd in Hl. simpl in Hl.
  pose proof (held_died_bound (Workers s)) as Hb.
  rewrite (workers_length_run _ _ _ _ _ _ Hrun), length_map, length_range in Hb.
  split; [|repeat split; try done; lia].
  unfold returned. rewrite Hp, length_range. lia.
Qed.

Lemma UseProcess_zero_weight_witness :
  ∃ s, run (UsingQueues CPUHeavyFunction) [W 0; W 0; W 1; W 1]%nat
         (UseProcess (λ _, zero_gen) 2 3 0) = Some s
       ∧ ¬ returned s ∧ Results s = [].
Proof.
  eexists. split; [vm_compute; reflexivity|].
  edestruct (UseProcess_zero_weight (λ _, zero_gen) 2 3
               [W 0; W 0; W 1; W 1]%nat)
    as (H1 & H2 & _); [lia | vm_compute; reflexivity |].
  split; [exact H1 | exact H2].
Defined.

End QueueInstances.

Section SerialRuns.
Import SharedQueue QueueAccounting Process ProcessCases Nesting.

Lemma JobToSumRandomNumbersRepeatedly_id (N JobID : Z) (g : Rng) (x : Q) :
  ∃ es r g', JobToSumRandomNumbersRepeatedly N JobID g x = (es, Some r, g')
             ∧ r.1 = (JobID, int_of x).
Proof.
  unfold JobToSumRandomNumbersRepeatedly, Process.SumRandomNumbers.
  destruct (add_random _ g 0%Q) as [Sum g']. by eexists _, _, _.
Qed.

(** X9: case 3 of the demonstration of [Process], the job called in the
    main process on a filled input queue.  In every run the results the
    caller has collected carry the job number 1 and the integer parts of the
    input values in the order in which the values were put into the queue
    (so that no sorting is needed), and all of them once the gets have
    returned.  When [Empty] is raised on the empty queue only, the job works
    through the queue and the gets that follow return; when the first get
    raises [Empty] although the values are queued, the job returns at once,
    nothing is taken from the queue and the gets never return. *)
Theorem Case3_in_order (N : Z) (g : Rng) (items : list Q) :
  (∀ sched s,
     run (JobToSumRandomNumbersRepeatedly N) sched (Case3 g items) = Some s →
     map fst (Results s)
     = map (λ x, (1, int_of x)) (take (length (Results s)) items)
     ∧ (returned s → map fst (Results s) = map (λ x, (1, int_of x)) items)
     ∧ (timely sched → stuck (JobToSumRandomNumbersRepeatedly N) s → returned s))
  ∧ (∃ s, run (JobToSumRandomNumbersRepeatedly N) (serial_schedule (length items))
            (Case3 g items) = Some s
          ∧ timely (serial_schedule (length items))
          ∧ returned s
          ∧ map fst (Results s) = map (λ x, (1, int_of x)) items)
  ∧ (items ≠ [] →
     ∃ s, run (JobToSumRandomNumbersRepeatedly N) [Miss 0] (Case3 g items) = Some s
          ∧ stuck (JobToSumRandomNumbersRepeatedly N) s ∧ ¬ returned s
          ∧ InputQueue s = items ∧ Results s = []).
Proof.
  assert (Hbody : ∀ g x, x ∈ items →
    ∃ es r g', JobToSumRandomNumbersRepeatedly N 1 g x = (es, Some r, g')
               ∧ r.1 = (1, int_of x))
    by (intros; apply JobToSumRandomNumbersRepeatedly_id).
  split; [|split].
  - intros sched s Hrun.
    apply (single_worker_in_order _ (λ x, (1, int_of x)) fst items 1 Hbody g
             sched s Hrun).
  - destruct (single_worker_serial _ (λ x, (1, int_of x)) fst items 1 Hbody g)
      as (s & Hrun & Hret & Hid).
    exists s. split; [exact Hrun|]. split; [apply serial_schedule_timely|]. done.
  - intros Hne.
    destruct (single_worker_early_Empty (JobToSumRandomNumbersRepeatedly N)
                items 1 g Hne) as (s & Hrun & Hst & Hnr & Hiq & _ & HR & _).
    by exists s.
Qed.

(** X10: the serial part of the nested demonstration, [JobToPerformTasks]
    called in the main process, with at least one sub-task per task and at
    least one pool worker.  In every run the results the caller has
    collected carry the input numbers in the order of [ListOfNumbersToAdd],
    and all of them once the gets have returned.  When [Empty] is raised on
    the empty queue only, the job works through the queue and the gets that
    follow return; when the first get raises [Empty] although the numbers
    are queued, the job returns at once and the gets never return. *)
Theorem Nesting_serial_in_order (K PW : Z) (g : gens) (ListOfNumbersToAdd : list Q) :
  1 <= K → 1 <= PW →
  (∀ sched s,
     run (JobToPerformTasks K PW) sched (NestingMain.Serial g ListOfNumbersToAdd)
       = Some s →
     map fst (Results s) = take (length (Results s)) ListOfNumbersToAdd
     ∧ (returned s → map fst (Results s) = ListOfNumbersToAdd)
     ∧ (timely sched → stuck (JobToPerformTasks K PW) s → returned s))
  ∧ (∃ s, run (JobToPerformTasks K PW) (serial_schedule (length ListOfNumbersToAdd))
            (NestingMain.Serial g ListOfNumbersToAdd) = Some s
          ∧ timely (serial_schedule (length ListOfNumbersToAdd))
          ∧ returned s
          ∧ map fst (Results s) = ListOfNumbersToAdd)
  ∧ (ListOfNumbersToAdd ≠ [] →
     ∃ s, run (JobToPerformTasks K PW) [Miss 0]
            (NestingMain.Serial g ListOfNumbersToAdd) = Some s
          ∧ stuck (JobToPerformTasks K PW) s ∧ ¬ returned s
          ∧ InputQueue s = ListOfNumbersToAdd ∧ Results s = []).
Proof.
  intros HK HPW.
  assert (Hbody : ∀ g x, x ∈ ListOfNumbersToAdd →
    ∃ es r g', JobToPerformTasks K PW "MainProcess" g x = (es, Some r, g')
               ∧ r.1 = id x).
  { intros g1 x _.
    destruct (JobToPerformTasks_returns K PW "MainProcess" g1 x HK HPW)
      as (RW & sums & Sum & g' & _ & ->). by eexists _, _, _. }
  split; [|split].
  - intros sched s Hrun.
    destruct (single_worker_in_order _ id fst ListOfNumbersToAdd "MainProcess" Hbody g
                sched s Hrun) as (H1 & H2 & H3).
    rewrite !map_id in *. done.
  - destruct (single_worker_serial _ id fst ListOfNumbersToAdd "MainProcess" Hbody g)
      as (s & Hrun & Hret & Hid).
    exists s. rewrite map_id in Hid.
    split; [exact Hrun|]. split; [apply serial_schedule_timely|]. done.
  - intros Hne.
    destruct (single_worker_early_Empty (JobToPerformTasks K PW)
                ListOfNumbersToAdd "MainProcess" g Hne)
      as (s & Hrun & Hst & Hnr & Hiq & _ & HR & _).
    by exists s.
Qed.

Lemma Nesting_serial_in_order_witness :
  ∃ s, run (JobToPerformTasks 8 2) (serial_schedule 2)
         (NestingMain.Serial zero_gens [1000%Q; 2000%Q]) = Some s
       ∧ returned s
       ∧ map fst (Results s) = [1000%Q; 2000%Q].
Proof.
  destruct (Nesting_serial_in_order 8 2 zero_gens [1000%Q; 2000%Q])
    as (_ & (s & H1 & _ & H2 & H3) & _); [lia | lia |].
  exists s. split; [exact H1|]. split; [exact H2 | exact H3].
Defined.

End SerialRuns.

(** ** Pools: every call fails, or none *)

Section PoolMoreFacts.
Import DirectSubmit.
Context {G Args Res : Type}.
Variable f : G -> Args -> option Res * G.

Local Abbreviation state := (DirectSubmit.state G Args Res).

(** When nobody can move and there is a pool process, no call waits in the
    task queue and none is running. *)
Lemma pool_stuck_idle (tasks : list Args) (gens : list G) sched (s : state) :
  gens ≠ [] → run f sched (init tasks gens) = Some s → stuck f s →
  taskqueue s = [] ∧ running s = [].
Proof.
  intros Hgens Hrun Hstuck.
  destruct (pool_invariant_run f tasks gens sched s Hrun) as [Ht Ho Hout Hh Hr Hf].
  assert (Hlenp : length (procs s) = length gens).
  { eapply (pool_run_invariant f (λ s, length (procs s) = length gens)); [|exact Hrun|].
    - intros s1 s2. destruct 1; simpl; rewrite ?length_app; simpl; done.
    - simpl. by rewrite length_map. }
  assert (Hidle : ∀ p g o, procs s !! p = Some (g, o) → o = None).
  { intros p g [k|] Hp; [|done]. exfalso.
    pose proof (Hstuck (P p)) as Hs. simpl in Hs. unfold step_proc in Hs.
    rewrite Hp in Hs.
    assert (Hk : (k < length (submitted s))%nat).
    { apply Hr. right. unfold running. apply list_elem_of_omap.
      exists (g, Some k). split; [by eapply list_elem_of_lookup_2 | done]. }
    apply lookup_lt_is_Some in Hk as [a Ha]. rewrite Ha in Hs.
    by destruct (f g a). }
  split.
  - destruct (procs s) as [|[g o] ps] eqn:Hps;
      [destruct gens; [done | simpl in Hlenp; lia]|].
    pose proof (Hstuck (P 0)) as Hs. simpl in Hs. unfold step_proc in Hs.
    rewrite Hps in Hs. simpl in Hs.
    assert (o = None) as -> by (by apply (Hidle 0%nat g)).
    by destruct (taskqueue s).
  - assert (Hall : Forall (λ go : G * option nat, go.2 = None) (procs s)).
    { apply Forall_lookup. intros p [g o] Hp. simpl. by eapply Hidle. }
    by apply omap_snd_none.
Qed.

(** When every call fails, no result is ever collected, and a run can only
    end with the exception re-raised in the caller. *)
Lemma pool_all_fail (tasks : list Args) (gens : list G) sched (s : state) :
  (∀ g a, a ∈ tasks → (f g a).1 = None) →
  run f sched (init tasks gens) = Some s →
  Output s = []
  ∧ (tasks ≠ [] → ¬ returned s)
  ∧ (tasks ≠ [] → gens ≠ [] → stuck f s → failed s = true ∧ to_submit s = []).
Proof.
  intros Hnone Hrun.
  destruct (pool_invariant_run f tasks gens sched s Hrun) as [Ht Ho Hout Hh Hr Hf].
  assert (HO : Output s = []).
  { destruct (Output s) as [|r out] eqn:HO; [done|]. exfalso.
    destruct (Hout 0%nat r eq_refl) as (a & g & Ha & Hfa).
    rewrite Hnone in Hfa; [done|]. rewrite <- Ht. apply elem_of_app. left.
    by eapply list_elem_of_lookup_2. }
  split; [exact HO|]. split.
  - intros Hne (Hts & Hlen & _). rewrite Hts, app_nil_r in Ht.
    rewrite HO, Ht in Hlen. by destruct tasks.
  - intros Hne Hgens Hstuck.
    destruct (pool_stuck_idle tasks gens sched s Hgens Hrun Hstuck) as [Hq Hrn].
    pose proof (Hstuck Main) as Hm. simpl in Hm. unfold step_main in Hm.
    destruct (failed s) eqn:Hfl.
    + split; [done|]. clear Hm.
      eapply (pool_run_invariant f (λ s, failed s = true → to_submit s = []));
        [|exact Hrun| |exact Hfl].
      * intros s1 s2. destruct 1; simpl; try done.
      * done.
    + exfalso. destruct (to_submit s) as [|a rest] eqn:Hts; [|done].
      rewrite app_nil_r in Ht. rewrite HO in Hm. simpl in Hm.
      assert (Hlt : (0 < length (submitted s))%nat)
        by (rewrite Ht; destruct tasks; [done | simpl; lia]).
      destruct (Hh _ Hlt) as [Hin|[Hin|[o Hoc]]].
      * rewrite Hq in Hin. by apply elem_of_nil in Hin.
      * rewrite Hrn in Hin. by apply elem_of_nil in Hin.
      * apply lookup_lt_is_Some in Hlt as [a Ha]. rewrite Ha, Hoc in Hm.
        by destruct o.
Qed.

End PoolMoreFacts.

Section UsePoolMoreFacts.
Import DirectSubmit Benchmarking.

(** X11: [UsePool] with a non-zero [WeightOfComputation] and at least one
    pool process: a run can only end with [Output] evaluated, after at most
    4*NumberOfTasks+1 steps; [Output] then holds one result for each task,
    with the identifiers 0, 1, ... in this order and values between 0 and
    4. *)
Theorem UsePool_returns (gens : nat → Rng)
    (NumberOfWorkers NumberOfTasks WeightOfComputation : Z)
    (sched : list actor) (s : state Rng (Z * Z) (Z * Q)) :
  WeightOfComputation ≠ 0 → 1 <= NumberOfWorkers →
  run (apply_args CPUHeavyFunction) sched
    (UsePool gens NumberOfWorkers NumberOfTasks WeightOfComputation) = Some s →
  (stuck (apply_args CPUHeavyFunction) s → returned s)
  ∧ (returned s →
     length (Output s) = Z.to_nat NumberOfTasks
     ∧ map fst (Output s) = range 0 NumberOfTasks)
  ∧ Forall (λ r, (0 <= r.2)%Q ∧ (r.2 <= 4)%Q) (Output s)
  ∧ (length sched <= 4 * Z.to_nat NumberOfTasks + 1)%nat.
Proof.
  intros HW HNW Hrun. unfold UsePool in Hrun.
  set (tasks := map (λ i, (WeightOfComputation, i)) (range 0 NumberOfTasks)) in *.
  set (gs := map (λ i, gens (Z.to_nat i)) (range 0 NumberOfWorkers)) in *.
  assert (Hlen : length tasks = Z.to_nat NumberOfTasks).
  { unfold tasks. rewrite length_map, length_range. lia. }
  assert (Hid : ∀ g (a : Z * Z) r,
            (apply_args CPUHeavyFunction g a).1 = Some r → r.1 = a.2).
  { intros g a r. unfold apply_args.
    destruct (CPUHeavyFunction g a.1 a.2) as [o g'] eqn:E. simpl. intros ->.
    by eapply CPUHeavyFunction_id. }
  split; [|split; [|split]].
  - apply (pool_returns_when_stuck _ tasks gs sched s); [| |exact Hrun].
    + intros g a Ha. apply list_elem_of_fmap in Ha as (i & -> & _).
      unfold apply_args. simpl.
      destruct (CPUHeavyFunction_returns g WeightOfComputation i HW)
        as (Pi & g' & ->). by eexists.
    + intros Hnil. apply (f_equal length) in Hnil. unfold gs in Hnil.
      rewrite length_map, length_range in Hnil. simpl in Hnil. lia.
  - intros Hret.
    destruct (output_ids_when_returned _ snd fst Hid tasks gs sched s Hrun Hret)
      as [H1 H2].
    split; [lia|]. rewrite H2. unfold tasks. rewrite map_map. simpl. apply map_id.
  - apply Forall_lookup. intros k r Hk.
    destruct (pool_invariant_run _ tasks gs sched s Hrun) as [_ _ Hout _ _ _].
    destruct (Hout k r Hk) as (a & g & _ & Hfa). unfold apply_args in Hfa.
    destruct (CPUHeavyFunction g a.1 a.2) as [o g'] eqn:E. simpl in Hfa. subst o.
    by destruct (CPUHeavyFunction_value _ _ _ _ _ E) as (_ & ? & ?).
  - rewrite <- Hlen. apply (pool_bounded_schedule _ _ _ _ _ Hrun).
Qed.

Lemma UsePool_returns_witness :
  ∃ s, run (apply_args CPUHeavyFunction) [Main; Main; P 0; P 1; P 1; P 0; Main; Main]
         (UsePool (λ _, zero_gen) 2 2 1) = Some s
       ∧ (returned s → length (Output s) = 2%nat ∧ map fst (Output s) = [0; 1]).
Proof.
  eexists. split; [vm_compute; reflexivity|].
  edestruct (UsePool_returns (λ _, zero_gen) 2 2 1
               [Main; Main; P 0; P 1; P 1; P 0; Main; Main])
    as (_ & H & _); [lia | lia | vm_compute; reflexivity |].
  exact H.
Defined.

(** X12: [UsePool] with [WeightOfComputation = 0] and at least one task:
    every call divides by zero, so no result is ever collected and [Output]
    is never evaluated; with at least one pool process a run can only end
    with the exception re-raised in the caller by a [get], after all tasks
    have been submitted. *)
Theorem UsePool_zero_weight (gens : nat → Rng) (NumberOfWorkers NumberOfTasks : Z)
    (sched : list actor) (s : state Rng (Z * Z) (Z * Q)) :
  1 <= NumberOfTasks →
  run (apply_args CPUHeavyFunction) sched
    (UsePool gens NumberOfWorkers NumberOfTasks 0) = Some s →
  Output s = [] ∧ ¬ returned s
  ∧ (1 <= NumberOfWorkers → stuck (apply_args CPUHeavyFunction) s →
     failed s = true ∧ to_submit s = []).
Proof.
  intros HNT Hrun. unfold UsePool in Hrun.
  set (tasks := map (λ i, (0, i)) (range 0 NumberOfTasks)) in *.
  set (gs := map (λ i, gens (Z.to_nat i)) (range 0 NumberOfWorkers)) in *.
  assert (Hne : tasks ≠ []).
  { intros Hnil. apply (f_equal length) in Hnil. unfold tasks in Hnil.
    rewrite length_map, length_range in Hnil. simpl in Hnil. lia. }
  destruct (pool_all_fail (apply_args CPUHeavyFunction) tasks gs sched s)
    as (H1 & H2 & H3); [|exact Hrun|].
  { intros g a Ha. apply list_elem_of_fmap in Ha as (i & -> & _). done. }
  split; [exact H1|]. split; [by apply H2|].
  intros HNW. apply H3; [done|].
  intros Hnil. apply (f_equal length) in Hnil. unfold gs in Hnil.
  rewrite length_map, length_range in Hnil. simpl in Hnil. lia.
Qed.

Lemma UsePool_zero_weight_witness :
  ∃ s, run (apply_args CPUHeavyFunction) [Main; Main; P 0; P 0; Main]
         (UsePool (λ _, zero_gen) 1 2 0) = Some s
       ∧ Output s = [] ∧ ¬ returned s.
Proof.
  eexists. split; [vm_compute; reflexivity|].
  edestruct (UsePool_zero_weight (λ _, zero_gen) 1 2 [Main; Main; P 0; P 0; Main])
    as (H1 & H2 & _); [lia | vm_compute; reflexivity |].
  split; [exact H1 | exact H2].
Defined.

End UsePoolMoreFacts.

(** ** The workers on the manager's dictionary *)

Section WorkerFacts.
Import ManagerDict ManagerMain.

Lemma lucas_pair_fibonacci (P Q : Z) (n : nat) :
  1 <= P → Q <= -1 →
  0 <= (lucas_pair 1 (-1) n).1 <= (lucas_pair P Q n).1
  ∧ 0 <= (lucas_pair 1 (-1) n).2 <= (lucas_pair P Q n).2.
Proof.
  intros HP HQ. induction n as [|n IH]; [simpl; lia|].
  cbn [lucas_pair]. destruct (lucas_pair 1 (-1) n) as [a b].
  destruct (lucas_pair P Q n) as [a' b']. simpl in *. split; [lia | nia].
Qed.

Lemma lucas_last_16 (P Q : Z) : 1 <= P → Q <= -1 → 1597 <= lucas_last P Q 16.
Proof.
  intros HP HQ. destruct (lucas_pair_fibonacci P Q 16 HP HQ) as [_ Hf].
  unfold lucas_last. change (lucas_pair 1 (-1) 16) with (987, 1597) in Hf.
  cbn [snd] in Hf. lia.
Qed.

Lemma lucas_length (P Q : Z) (m : nat) : length (lucas P Q m) = (m + 2)%nat.
Proof.
  induction m as [|m IH]; [done|].
  destruct (lucas_next P Q m) as [_ ->]. rewrite length_app, IH. simpl. lia.
Qed.

Lemma Worker_draws (fuel : nat) (Key : Z) (g : Rng) (st : store) :
  1 <= Key →
  ∃ P Q, 1 <= P <= Key ∧ - Key <= Q <= -1
         ∧ Worker fuel Key g st = Worker_loop fuel P Q Key st
         ∧ (random_randint 1 Key g).1 = Some P
         ∧ (random_randint (- Key) (-1) (random_randint 1 Key g).2).1 = Some Q.
Proof.
  intros HKey. unfold Worker.
  destruct (random_randint_range 1 Key g HKey) as (P & g1 & -> & HP).
  destruct (random_randint_range (- Key) (-1) g1 ltac:(lia)) as (Q & g2 & HQ2 & HQ).
  simpl. rewrite HQ2. by exists P, Q.
Qed.

Lemma Worker_loop_finished_entry (fuel : nat) (P Q Key : Z) (st : store) (d : inner) :
  shared st !! Key = Some d → d !! "CompFinished" = Some (VBool true) →
  Worker_loop (S fuel) P Q Key st
  = (Ok tt, {| shared := shared st; calls := calls st ++ [GetItem Key d] |}).
Proof.
  intros Hd Hc. cbn [Worker_loop]. unfold mbind, M_bind, getitem.
  rewrite Hd, Hc. reflexivity.
Qed.

(** X13: [Worker] on an entry that is as initialised, for a key of at least
    1 and any random numbers: it returns, having replaced the entry of its
    key, and no other, by the finished one: [CompFinished] is [True], [P] and
    [Q] are the numbers drawn, [P] by [random.randint(1,Key)] and then [Q]
    by [random.randint(-Key,-1)], within [1..Key] and [-Key..-1], and the
    sequence has been extended by at most 16 elements, up to the first that
    reaches 1000. *)
Theorem Worker_finishes (fuel : nat) (Key : Z) (g : Rng) (st : store) :
  1 <= Key → shared st !! Key = Some initial_inner → (1000 < fuel)%nat →
  ∃ (P Q : Z) (m : nat),
    (random_randint 1 Key g).1 = Some P
    ∧ (random_randint (- Key) (-1) (random_randint 1 Key g).2).1 = Some Q
    ∧ 1 <= P <= Key ∧ - Key <= Q <= -1 ∧ (1 <= m <= 16)%nat
    ∧ (Worker fuel Key g st).1 = Ok tt
    ∧ shared (Worker fuel Key g st).2
      = <[Key := finished P Q m initial_inner]> (shared st)
    ∧ finished P Q m initial_inner !! "P" = Some (VInt P)
    ∧ finished P Q m initial_inner !! "Q" = Some (VInt Q)
    ∧ length (lucas P Q m) = (m + 2)%nat
    ∧ 1000 <= lucas_last P Q m
    ∧ (∀ j, (1 <= j < m)%nat → lucas_last P Q j < 1000).
Proof.
  intros HKey Hst Hfuel.
  destruct (Worker_draws fuel Key g st HKey) as (P & Q & HP & HQ & -> & HdP & HdQ).
  destruct st as [sh l]. simpl in Hst.
  assert (HP1 : 1 <= P) by lia. assert (HQ1 : Q <= -1) by lia.
  assert (Hfn : Z.max 0 (fuel_needed P Q 0) < Z.of_nat fuel)
    by (cbn [fuel_needed]; lia).
  pose proof (Worker_loop_finishes P Q HP1 HQ1 Key fuel 0 sh l initial_inner
                (VBool false) Hst eq_refl eq_refl eq_refl Hfn) as H.
  unfold wp in H. destruct H as (Hr & m & Hm & H1000 & Hlt & Hsh).
  exists P, Q, m. repeat split; try done; try lia.
  - destruct (decide (m <= 16)%nat) as [|Hgt]; [done|]. exfalso.
    pose proof (Hlt 16%nat ltac:(lia)) as H16.
    pose proof (lucas_last_16 P Q HP1 HQ1). lia.
  - apply lucas_length.
Qed.

Lemma Worker_finishes_witness :
  ∃ (P Q : Z) (m : nat),
    (1 <= m <= 16)%nat
    ∧ (Worker 1001 3 zero_gen {| shared := MyDict [3]; calls := [] |}).1 = Ok tt
    ∧ 1000 <= lucas_last P Q m.
Proof.
  destruct (Worker_finishes 1001 3 zero_gen {| shared := MyDict [3]; calls := [] |})
    as (P & Q & m & _ & _ & _ & _ & Hm & Hr & _ & _ & _ & _ & H1000 & _);
    [lia | reflexivity | lia |].
  exists P, Q, m. split; [exact Hm|]. split; [exact Hr | exact H1000].
Defined.

(** X14: the edge cases of [Worker].  With a key below 1 the first
    [random.randint] raises and the dictionary is not touched; with a key
    that the dictionary lacks, or an entry without ['CompFinished'], the loop
    condition raises, after no call or after the one read; on an entry whose
    ['CompFinished'] is [True] it returns after one read and leaves the
    dictionary as it is. *)
Theorem Worker_edge_cases (fuel : nat) (Key : Z) (g : Rng) (st : store) :
  (Key < 1 → Worker fuel Key g st = (Raise, st))
  ∧ (1 <= Key → shared st !! Key = None →
     Worker (S fuel) Key g st = (Raise, st))
  ∧ (∀ d, 1 <= Key → shared st !! Key = Some d → d !! "CompFinished" = None →
     Worker (S fuel) Key g st
     = (Raise, {| shared := shared st; calls := calls st ++ [GetItem Key d] |}))
  ∧ (∀ d, 1 <= Key → shared st !! Key = Some d →
     d !! "CompFinished" = Some (VBool true) →
     Worker (S fuel) Key g st
     = (Ok tt, {| shared := shared st; calls := calls st ++ [GetItem Key d] |})).
Proof.
  split; [|split; [|split]].
  - intros HKey. unfold Worker, random_randint.
    destruct (Key <? 1) eqn:E; [|apply Z.ltb_ge in E; lia].
    destruct (-1 <? - Key) eqn:E'; [|apply Z.ltb_ge in E'; lia]. reflexivity.
  - intros HKey Hst.
    destruct (Worker_draws (S fuel) Key g st HKey) as (P & Q & _ & _ & -> & _ & _).
    cbn [Worker_loop]. unfold mbind, M_bind, getitem. by rewrite Hst.
  - intros d HKey Hst Hc.
    destruct (Worker_draws (S fuel) Key g st HKey) as (P & Q & _ & _ & -> & _ & _).
    cbn [Worker_loop]. unfold mbind, M_bind, getitem. by rewrite Hst, Hc.
  - intros d HKey Hst Hc.
    destruct (Worker_draws (S fuel) Key g st HKey) as (P & Q & _ & _ & -> & _ & _).
    by apply Worker_loop_finished_entry.
Qed.

Lemma MyDict_lookup (ListOfKeys : list Z) (k : Z) :
  MyDict ListOfKeys !! k
  = if decide (k ∈ ListOfKeys) then Some initial_inner else None.
Proof.
  unfold MyDict.
  assert (H : ∀ d : dict,
    fold_left (λ d k, <[k := initial_inner]> d) ListOfKeys d !! k
    = if decide (k ∈ ListOfKeys) then Some initial_inner else d !! k).
  { induction ListOfKeys as [|a l IH]; intros d; simpl.
    - destruct (decide (k ∈ [])) as [Hin|]; [by apply elem_of_nil in Hin | done].
    - rewrite IH. destruct (decide (k ∈ l)) as [Hin|Hnin].
      + rewrite decide_True; [done | by apply list_elem_of_further].
      + destruct (decide (k = a)) as [->|Hne].
        * rewrite decide_True by apply list_elem_of_here.
          apply lookup_insert_eq.
        * rewrite decide_False.
          -- by apply lookup_insert_ne.
          -- rewrite elem_of_cons. tauto. }
  rewrite H. by destruct (decide (k ∈ ListOfKeys)).
Qed.

Lemma Worker_entry (fuel : nat) (Key : Z) (g : Rng) (st : store) (v : inner) :
  1 <= Key → (1000 < fuel)%nat →
  shared st !! Key = Some v → v = initial_inner ∨ is_finished Key v →
  ∃ v', shared (Worker fuel Key g st).2 = <[Key := v']> (shared st)
        ∧ is_finished Key v'.
Proof.
  intros HKey Hfuel Hst [->|Hfin].
  - destruct (Worker_draws fuel Key g st HKey) as (P & Q & HP & HQ & -> & HdP & HdQ).
    destruct st as [sh l]. simpl in Hst.
    assert (HP1 : 1 <= P) by lia. assert (HQ1 : Q <= -1) by lia.
    assert (Hfn : Z.max 0 (fuel_needed P Q 0) < Z.of_nat fuel)
      by (cbn [fuel_needed]; lia).
    pose proof (Worker_loop_finishes P Q HP1 HQ1 Key fuel 0 sh l initial_inner
                  (VBool false) Hst eq_refl eq_refl eq_refl Hfn) as H.
    unfold wp in H. destruct H as (Hr & m & Hm & H1000 & Hlt & Hsh).
    exists (finished P Q m initial_inner). split; [exact Hsh|].
    exists P, Q, m. repeat split; try done; try lia.
    destruct (decide (m <= 16)%nat) as [|Hgt]; [done|]. exfalso.
    pose proof (Hlt 16%nat ltac:(lia)) as H16.
    pose proof (lucas_last_16 P Q HP1 HQ1). lia.
  - exists v. split; [|done].
    destruct (Worker_draws fuel Key g st HKey) as (P & Q & _ & _ & -> & _ & _).
    destruct fuel as [|fuel]; [lia|].
    rewrite (Worker_loop_finished_entry fuel P Q Key st v Hst).
    + simpl. by rewrite insert_id.
    + destruct Hfin as (P' & Q' & m & _ & _ & _ & _ & ->). done.
Qed.

Lemma run_workers_entries (fuel : nat) (gens : Z → Rng) (keys : list Z) :
  (1000 < fuel)%nat → Forall (λ k, 1 <= k) keys →
  ∀ st,
    (∀ k, k ∈ keys →
       ∃ v, shared st !! k = Some v ∧ (v = initial_inner ∨ is_finished k v)) →
    (∀ k, k ∈ keys →
       ∃ v, shared (run_workers fuel keys gens st) !! k = Some v ∧ is_finished k v)
    ∧ (∀ k, k ∉ keys → shared (run_workers fuel keys gens st) !! k = shared st !! k).
Proof.
  intros Hfuel. induction 1 as [|a keys Ha Hkeys IH]; intros st Hst.
  - split; [intros k Hk; by apply elem_of_nil in Hk | done].
  - cbn [run_workers].
    destruct (Hst a (list_elem_of_here _ _)) as (va & Hva & Hok).
    destruct (Worker_entry fuel a (gens a) st va Ha Hfuel Hva Hok)
      as (v' & Hsh & Hfin).
    set (st1 := (Worker fuel a (gens a) st).2) in *.
    destruct (IH st1) as [IH1 IH2].
    { intros k Hk. rewrite Hsh. destruct (decide (k = a)) as [->|Hne].
      - exists v'. rewrite lookup_insert_eq. auto.
      - rewrite lookup_insert_ne by done. apply Hst. by apply list_elem_of_further. }
    split.
    + intros k Hk. destruct (decide (k ∈ keys)) as [Hin|Hnin]; [by apply IH1|].
      apply elem_of_cons in Hk as [->|Hk]; [|done].
      exists v'. rewrite (IH2 a Hnin), Hsh, lookup_insert_eq. done.
    + intros k Hk. rewrite elem_of_cons in Hk.
      rewrite IH2 by tauto. rewrite Hsh, lookup_insert_ne; [done|].
      intros ->. tauto.
Qed.

(** X15: the main program with the workers run one after the other, in the
    order of [ListOfKeys] (a pool of one process): when every key is at
    least 1, every entry of the dictionary ends with [CompFinished] set,
    ['P'] and ['Q'] within the bounds of its key and at most 16 elements
    appended to its sequence, whose last element is the first that reaches
    1000; the dictionary gets no other key.  A key listed twice changes
    nothing: its second worker finds the entry finished. *)
Theorem run_workers_all_finished (fuel : nat) (gens : Z → Rng) (ListOfKeys : list Z) :
  (1000 < fuel)%nat → Forall (λ k, 1 <= k) ListOfKeys →
  (∀ k, k ∈ ListOfKeys →
     ∃ v, shared (run_workers fuel ListOfKeys gens
                    {| shared := MyDict ListOfKeys; calls := [] |}) !! k = Some v
          ∧ is_finished k v
          ∧ v !! "CompFinished" = Some (VBool true))
  ∧ (∀ k, k ∉ ListOfKeys →
       shared (run_workers fuel ListOfKeys gens
                 {| shared := MyDict ListOfKeys; calls := [] |}) !! k = None).
Proof.
  intros Hfuel Hkeys.
  destruct (run_workers_entries fuel gens ListOfKeys Hfuel Hkeys
              {| shared := MyDict ListOfKeys; calls := [] |}) as [H1 H2].
  { intros k Hk. exists initial_inner. simpl. rewrite MyDict_lookup.
    rewrite decide_True by done. auto. }
  split.
  - intros k Hk. destruct (H1 k Hk) as (v & Hv & Hfin). exists v.
    split; [done|]. split; [done|].
    destruct Hfin as (P & Q & m & _ & _ & _ & _ & ->). done.
  - intros k Hk. rewrite (H2 k Hk). simpl. rewrite MyDict_lookup.
    by rewrite decide_False.
Qed.

Lemma run_workers_all_finished_witness :
  ∃ v, shared (run_workers 1001 [1; 2; 2] (λ _, zero_gen)
                 {| shared := MyDict [1; 2; 2]; calls := [] |}) !! 2 = Some v
       ∧ is_finished 2 v.
Proof.
  destruct (run_workers_all_finished 1001 (λ _, zero_gen) [1; 2; 2]) as [H _];
    [lia | repeat constructor; lia |].
  destruct (H 2) as (v & Hv & Hfin & _);
    [apply list_elem_of_further, list_elem_of_here|].
  exists v. split; [exact Hv | exact Hfin].
Defined.

End WorkerFacts.

(** ** The partial sums of the series and the integral in parts *)

Section SeriesBounds.
Import Pool.

Lemma neg_one_pow_sq (M : nat) :
  (inject_Z ((-1) ^ Z.of_nat M) * inject_Z ((-1) ^ Z.of_nat M) == 1)%Q.
Proof.
  rewrite <- inject_Z_mult, <- Z.pow_mul_l. change (-1 * -1) with 1.
  by rewrite Z.pow_1_l by lia.
Qed.

Lemma neg_one_pow_succ (M : nat) :
  (inject_Z ((-1) ^ Z.of_nat (S M)) == - inject_Z ((-1) ^ Z.of_nat M))%Q.
Proof.
  rewrite Nat2Z.inj_succ, Z.pow_succ_r by lia.
  rewrite <- inject_Z_opp. apply inject_Z_injective. lia.
Qed.

Lemma term_decreasing (M : nat) :
  (0 < 4 / inject_Z (2 * Z.of_nat (S M) + 1))%Q
  ∧ (4 / inject_Z (2 * Z.of_nat (S M) + 1) <= 4 / inject_Z (2 * Z.of_nat M + 1))%Q.
Proof.
  assert (H1 : (0 < inject_Z (2 * Z.of_nat M + 1))%Q)
    by (rewrite <- (Zlt_Qlt 0); lia).
  assert (H2 : (0 < inject_Z (2 * Z.of_nat (S M) + 1))%Q)
    by (rewrite <- (Zlt_Qlt 0); lia).
  split.
  - apply Qlt_shift_div_l; [done | lra].
  - apply Qle_shift_div_l; [done|].
    assert (E : (4 / inject_Z (2 * Z.of_nat (S M) + 1) * inject_Z (2 * Z.of_nat M + 1)
                 == 4 * inject_Z (2 * Z.of_nat M + 1)
                    / inject_Z (2 * Z.of_nat (S M) + 1))%Q) by (field; lra).
    rewrite E. apply Qle_shift_div_r; [done|].
    assert (inject_Z (2 * Z.of_nat M + 1) <= inject_Z (2 * Z.of_nat (S M) + 1))%Q
      by (rewrite <- Zle_Qle; lia).
    lra.
Qed.

(** The partial sums after the M-th stay on one side of it, within the
    size of the next summand. *)
Lemma partial_sums_alternate (d M : nat) :
  (0 <= inject_Z ((-1) ^ Z.of_nat M)
        * (MadhavaLeibniz_partial_sum (M + d) - MadhavaLeibniz_partial_sum M))%Q
  ∧ (inject_Z ((-1) ^ Z.of_nat M)
     * (MadhavaLeibniz_partial_sum (M + d) - MadhavaLeibniz_partial_sum M)
     <= 4 / inject_Z (2 * Z.of_nat M + 1))%Q.
Proof.
  revert M. induction d as [|d IH]; intros M.
  - rewrite Nat.add_0_r.
    assert (H1 : (0 < inject_Z (2 * Z.of_nat M + 1))%Q)
      by (rewrite <- (Zlt_Qlt 0); lia).
    assert (0 <= 4 / inject_Z (2 * Z.of_nat M + 1))%Q
      by (apply Qle_shift_div_l; [done | lra]).
    assert (E : (inject_Z ((-1) ^ Z.of_nat M)
        * (MadhavaLeibniz_partial_sum M - MadhavaLeibniz_partial_sum M) == 0)%Q)
      by ring.
    rewrite E. split; [lra | done].
  - replace (M + S d)%nat with (S M + d)%nat by lia.
    destruct (IH (S M)) as [I1 I2].
    destruct (term_decreasing M) as [T1 T2].
    pose proof (neg_one_pow_sq M) as Hsq.
    pose proof (neg_one_pow_succ M) as Hs.
    assert (H1 : (0 < inject_Z (2 * Z.of_nat M + 1))%Q)
      by (rewrite <- (Zlt_Qlt 0); lia).
    set (s := inject_Z ((-1) ^ Z.of_nat M)) in *.
    set (T := (MadhavaLeibniz_partial_sum (S M + d)
               - MadhavaLeibniz_partial_sum (S M))%Q) in *.
    set (u := (4 / inject_Z (2 * Z.of_nat M + 1))%Q) in *.
    set (v := (4 / inject_Z (2 * Z.of_nat (S M) + 1))%Q) in *.
    assert (E : (s * (MadhavaLeibniz_partial_sum (S M + d)
                      - MadhavaLeibniz_partial_sum M)
                 == s * T + (s * s) * u)%Q).
    { unfold T, u. cbn [MadhavaLeibniz_partial_sum]. fold s. field. lra. }
    rewrite E, Hsq. rewrite Hs in I1, I2.
    assert (E' : (- s * T == - (s * T))%Q) by ring.
    rewrite E' in I1, I2. split; lra.
Qed.

(** X16: the sums that [ComputePi] returns settle: for 0 <= M <= N the
    sum of N summands differs from the sum of M summands by at most
    4/(2M+1), the size of the first summand left out; it is not below the
    sum of M summands when M is even and not above it when M is odd.  So
    for N >= 2 every sum lies between 8/3 and 4. *)
Theorem ComputePi_sums_settle {I : Type} (M N : Z) (ID ID' : I) :
  0 <= M <= N →
  (Qabs ((ComputePi N ID).2 - (ComputePi M ID').2) <= 4 / inject_Z (2 * M + 1))%Q
  ∧ (Z.even M = true → ((ComputePi M ID').2 <= (ComputePi N ID).2)%Q)
  ∧ (Z.odd M = true → ((ComputePi N ID).2 <= (ComputePi M ID').2)%Q)
  ∧ (2 <= N → (8 # 3 <= (ComputePi N ID).2)%Q ∧ ((ComputePi N ID).2 <= 4)%Q).
Proof.
  intros HMN.
  assert (Hgen : ∀ m n : nat, (m <= n)%nat →
    (0 <= inject_Z ((-1) ^ Z.of_nat m)
          * ((ComputePi (Z.of_nat n) ID).2 - (ComputePi (Z.of_nat m) ID').2))%Q
    ∧ (inject_Z ((-1) ^ Z.of_nat m)
       * ((ComputePi (Z.of_nat n) ID).2 - (ComputePi (Z.of_nat m) ID').2)
       <= 4 / inject_Z (2 * Z.of_nat m + 1))%Q).
  { intros m n Hmn.
    change ((ComputePi (Z.of_nat n) ID).2) with (snd (ComputePi (Z.of_nat n) ID)).
    change ((ComputePi (Z.of_nat m) ID').2) with (snd (ComputePi (Z.of_nat m) ID')).
    rewrite !ComputePi_partial_sum.
    replace n with (m + (n - m))%nat by lia. apply partial_sums_alternate. }
  assert (Heven : ∀ m n : nat, (m <= n)%nat → Z.even (Z.of_nat m) = true →
    ((ComputePi (Z.of_nat m) ID').2 <= (ComputePi (Z.of_nat n) ID).2)%Q
    ∧ ((ComputePi (Z.of_nat n) ID).2 - (ComputePi (Z.of_nat m) ID').2
       <= 4 / inject_Z (2 * Z.of_nat m + 1))%Q).
  { intros m n Hmn He. destruct (Hgen m n Hmn) as [G1 G2].
    apply Z.even_spec in He.
    change ((-1) ^ Z.of_nat m) with ((- (1)) ^ Z.of_nat m) in G1, G2.
    rewrite Z.pow_opp_even, Z.pow_1_l in G1, G2 by (done || lia).
    change (inject_Z 1) with 1%Q in G1, G2. split; lra. }
  assert (Hodd : ∀ m n : nat, (m <= n)%nat → Z.odd (Z.of_nat m) = true →
    ((ComputePi (Z.of_nat n) ID).2 <= (ComputePi (Z.of_nat m) ID').2)%Q
    ∧ ((ComputePi (Z.of_nat m) ID').2 - (ComputePi (Z.of_nat n) ID).2
       <= 4 / inject_Z (2 * Z.of_nat m + 1))%Q).
  { intros m n Hmn He. destruct (Hgen m n Hmn) as [G1 G2].
    apply Z.odd_spec in He.
    change ((-1) ^ Z.of_nat m) with ((- (1)) ^ Z.of_nat m) in G1, G2.
    rewrite Z.pow_opp_odd, Z.pow_1_l in G1, G2 by (done || lia).
    change (inject_Z (- (1))) with (-1)%Q in G1, G2. split; lra. }
  rewrite <- (Z2Nat.id M), <- (Z2Nat.id N) by lia.
  assert (Hle : (Z.to_nat M <= Z.to_nat N)%nat) by lia.
  split; [|split; [|split]].
  - destruct (Z.even (Z.of_nat (Z.to_nat M))) eqn:He.
    + destruct (Heven _ _ Hle He) as [G1 G2]. apply Qabs_Qle_condition. split; lra.
    + rewrite <- Z.negb_odd in He. apply negb_false_iff in He.
      destruct (Hodd _ _ Hle He) as [G1 G2]. apply Qabs_Qle_condition. split; lra.
  - intros He. by apply Heven.
  - intros Ho. by apply Hodd.
  - intros HN. rewrite Z2Nat.id in HN by lia. split.
    + destruct (Heven 2%nat (Z.to_nat N) ltac:(lia) eq_refl) as [G _].
      assert (E : ((ComputePi (Z.of_nat 2) ID').2 == 8 # 3)%Q) by reflexivity.
      lra.
    + destruct (Hodd 1%nat (Z.to_nat N) ltac:(lia) eq_refl) as [G _].
      assert (E : ((ComputePi (Z.of_nat 1) ID').2 == 4)%Q) by reflexivity.
      lra.
Qed.

Lemma ComputePi_sums_settle_witness :
  (Qabs ((ComputePi 5 1).2 - (ComputePi 2 2).2) <= 4 / inject_Z (2 * 2 + 1))%Q
  ∧ (8 # 3 <= (ComputePi 5 1).2)%Q.
Proof.
  destruct (ComputePi_sums_settle 2 5 1 2) as (H1 & _ & _ & H2); [lia|].
  split; [exact H1 | apply H2; lia].
Defined.

End SeriesBounds.

Section IntegrationFacts.
Import Pool Integration.

Lemma AnalyticIntegral_proper (a a' b b' m t : Q) :
  (a == a')%Q → (b == b')%Q →
  (AnalyticIntegral a b m t == AnalyticIntegral a' b' m t)%Q.
Proof. unfold AnalyticIntegral. intros -> ->. reflexivity. Qed.

Lemma AnalyticIntegral_adjacent (a b c m t : Q) :
  (AnalyticIntegral a b m t + AnalyticIntegral b c m t
   == AnalyticIntegral a c m t)%Q.
Proof. unfold AnalyticIntegral. field. Qed.

Lemma consecutive_cons (x y : Q) (l : list Q) :
  consecutive (x :: y :: l) = (x, y) :: consecutive (y :: l).
Proof. reflexivity. Qed.

(** The integrals over the consecutive intervals of a list of borders add
    up to the integral from the first border to the last. *)
Lemma parts_telescope (quad : (Q → Q) → Q → Q → Q * Q) (m t : Q) :
  (∀ a b, ((quad (λ x, Integrand x m t) a b).1 == AnalyticIntegral a b m t)%Q) →
  ∀ (l : list Q) (x z : Q), last (x :: l) = Some z →
    (np_sum (map fst (map (λ ij, quad (λ x, Integrand x m t) ij.1 ij.2)
                          (consecutive (x :: l))))
     == AnalyticIntegral x z m t)%Q.
Proof.
  intros Hquad. induction l as [|y l IH]; intros x z Hz.
  - injection Hz as <-. change (0 == AnalyticIntegral x x m t)%Q.
    unfold AnalyticIntegral. field.
  - rewrite consecutive_cons. simpl map. unfold np_sum. simpl fold_left.
    rewrite np_sum_acc. rewrite last_cons_cons in Hz. rewrite (IH y z Hz).
    rewrite Hquad, <- (AnalyticIntegral_adjacent x y z). ring.
Qed.

Lemma linspace_borders (stop : Q) (n : Z) :
  1 <= n →
  ∃ x l z, linspace 0 stop (n + 1) = x :: l ∧ last (x :: l) = Some z
           ∧ (x == 0)%Q ∧ (z == stop)%Q ∧ length (x :: l) = Z.to_nat (n + 1).
Proof.
  intros Hn. unfold linspace.
  destruct (Z.to_nat (n + 1)) as [|[|k]] eqn:E; [lia | lia |].
  replace (n + 1 - 1) with n by lia.
  set (f := λ i : nat, (inject_Z (Z.of_nat i) * ((stop - 0) / inject_Z n) + 0)%Q).
  exists (f 0%nat), (map f (seq 1 (S k))), (f (S k)).
  assert (Hn0 : ¬ (inject_Z n == 0)%Q).
  { change 0%Q with (inject_Z 0). rewrite inject_Z_injective. lia. }
  split; [reflexivity|]. split; [|split; [|split]].
  - change (f 0%nat :: map f (seq 1 (S k))) with (map f (seq 0 (S (S k)))).
    rewrite seq_S, map_app. apply last_snoc.
  - unfold f. simpl. field. exact Hn0.
  - unfold f. replace (Z.of_nat (S k)) with n by lia. field. exact Hn0.
  - simpl. by rewrite length_map, length_seq.
Qed.

(** X17: the integral cut into parts: for at least one process and a
    quadrature routine that gives the integral of the linear integrand on
    every interval, the sum of the [NumberOfProcesses] part integrals over
    the consecutive borders of [np.linspace(0, 100, NumberOfProcesses+1)]
    is the analytic integral from 0 to 100: the parts cover the range once,
    without gap or overlap. *)
Theorem IntegrateInParts_exact (quad : (Q → Q) → Q → Q → Q * Q)
    (NumberOfProcesses : Z) (m t : Q) :
  1 <= NumberOfProcesses →
  (∀ a b, ((quad (λ x, Integrand x m t) a b).1 == AnalyticIntegral a b m t)%Q) →
  (IntegrateInParts quad NumberOfProcesses m t == AnalyticIntegral 0 100 m t)%Q
  ∧ length (consecutive (linspace 0 100 (NumberOfProcesses + 1)))
    = Z.to_nat NumberOfProcesses.
Proof.
  intros HNP Hquad. unfold IntegrateInParts.
  destruct (linspace_borders 100 NumberOfProcesses HNP)
    as (x & l & z & -> & Hz & Hx & Hz' & Hlen).
  split.
  - rewrite (parts_telescope quad m t Hquad l x z Hz).
    by apply AnalyticIntegral_proper.
  - unfold consecutive. rewrite length_zip_with. simpl tail.
    assert (length (removelast (x :: l)) = length l).
    { clear. revert x. induction l as [|y l IH]; intros x; [done|].
      change (removelast (x :: y :: l)) with (x :: removelast (y :: l)).
      cbn [length]. by rewrite IH. }
    simpl in Hlen. lia.
Qed.

Lemma trapezoid_exact (m t a b : Q) :
  ((trapezoid (λ x, Integrand x m t) a b).1 == AnalyticIntegral a b m t)%Q.
Proof. unfold trapezoid, Integrand, AnalyticIntegral. simpl. field. Qed.

Lemma IntegrateInParts_exact_witness :
  (IntegrateInParts trapezoid 6 2 5 == AnalyticIntegral 0 100 2 5)%Q
  ∧ (AnalyticIntegral 0 100 2 5 == 10500)%Q.
Proof.
  split; [|reflexivity].
  apply (IntegrateInParts_exact trapezoid 6 2 5); [lia|].
  intros a b. apply trapezoid_exact.
Defined.

End IntegrationFacts.

(** ** Tasks that fail in the nested demonstration *)

Section NestingFailures.
Import SharedQueue QueueAccounting Nesting.

Lemma JobToPerformTasks_raises (K PW : Z) (ProcessID : string) (g : gens) (x : Q) :
  PW < 1 ∨ K = 0 → (JobToPerformTasks K PW ProcessID g x).1.2 = None.
Proof.
  intros H. unfold JobToPerformTasks.
  destruct (random_randint 1 3 (own g)) as [[RW|] own']; [|done].
  destruct (PW <? 1) eqn:E; [done|]. apply Z.ltb_ge in E.
  destruct H as [H| ->]; [lia|]. unfold reduce.
  assert (Hd : Qeq_bool (0.5 * inject_Z 0 * inject_Z RW) 0 = true).
  { apply Qeq_bool_iff. change (inject_Z 0) with 0%Q. ring. }
  by rewrite Hd.
Qed.

(** X18: the nested demonstration with no pool worker
    ([NumberOfPoolWorkers < 1], the pool cannot be created) or with no
    sub-task ([NumberOfSubtasksInOneTask = 0], the mean divides by zero):
    every pass through the [try] block raises an exception that is not
    [Empty], so each process ends with its first item, at most one item per
    process is taken from the input queue, nothing is put into the output
    queue, and with at least one item the caller's gets never return. *)
Theorem Nesting_failing_tasks (K PW : Z) (ws : list (string * gens))
    (items : list Q) (sched : list actor)
    (s : state string gens Q (Q * Z) pool_event) :
  PW < 1 ∨ K = 0 → items ≠ [] →
  run (JobToPerformTasks K PW) sched (init items ws (length items)) = Some s →
  Results s = [] ∧ OutputQueue s = [] ∧ ¬ returned s
  ∧ length (pops (log s)) = (length (held (Workers s)) + died (Workers s))%nat
  ∧ (length (pops (log s)) <= length ws)%nat.
Proof.
  intros HK Hne Hrun.
  assert (Hfail : ∀ j g x, x ∈ items → (JobToPerformTasks K PW j g x).1.2 = None)
    by (intros; by apply JobToPerformTasks_raises).
  destruct (all_fail_run _ _ Hfail _ _ _ _ Hrun) as (Hd & HR & HO & Hp).
  pose proof (loss_inv_run _ _ _ _ _ _ Hrun) as Hl. unfold loss_inv in Hl.
  rewrite Hd in Hl. simpl in Hl.
  pose proof (held_died_bound (Workers s)) as Hb.
  rewrite (workers_length_run _ _ _ _ _ _ Hrun) in Hb.
  split; [done|]. split; [done|]. split; [|split; [done | lia]].
  unfold returned. rewrite Hp. by destruct items.
Qed.

Lemma Nesting_failing_tasks_witness :
  ∃ s, run (JobToPerformTasks 0 2) [W 0; W 0; W 1; W 1]%nat
         (init [1000%Q; 2000%Q; 3000%Q]
            [("Process-1", zero_gens); ("Process-2", zero_gens)] 3) = Some s
       ∧ Results s = [] ∧ ¬ returned s.
Proof.
  eexists. split; [vm_compute; reflexivity|].
  edestruct (Nesting_failing_tasks 0 2
               [("Process-1", zero_gens); ("Process-2", zero_gens)]
               [1000%Q; 2000%Q; 3000%Q] [W 0; W 0; W 1; W 1]%nat)
    as (H1 & _ & H2 & _); [by right | done | vm_compute; reflexivity |].
  split; [exact H1 | exact H2].
Defined.

End NestingFailures.
